(** * LightCurve: connection and streaming resource manager

    A shallow embedding of the Electron main process of LightCurve
    (the IPC handlers, the streaming consumer loop and the before-quit
    teardown) and of the wrappers of [services/pulsarClient.ts].

    JavaScript runs one task at a time and a task only gives up control at
    an [await].  Every [async] function is therefore embedded as the state
    machine it compiles to: a program counter per [await], a function that
    runs the synchronous prefix of the call, and a function that resumes the
    task with the outcome of the awaited promise.  What the native broker
    library answers is an input of the model (a [completion]); what the
    program asks of it, of the timers and of the renderer is recorded as a
    list of [event]s. *)

From Stdlib Require Import ZArith Ascii String.
From stdpp Require Import gmap strings list fin_maps pretty.

Local Open Scope string_scope.
Local Open Scope list_scope.

(** ** Promises *)

(** The outcome of a settled promise.  A rejection carries the text the
    handlers print: [err instanceof Error ? err.message : String(err)]. *)
Inductive settled (A : Type) : Type :=
| Fulfilled (a : A)
| Rejected (reason : string).
Arguments Fulfilled {A} a.
Arguments Rejected {A} reason.

(** Identity of a native object (producer, consumer, reader, client). *)
Definition handle := nat.

(** Address of a JavaScript object that is shared by reference. *)
Definition loc := nat.

(** [OAuthConfig] of the shared types (client_credentials flow). *)
Record OAuthConfig := {
  clientId : string;
  clientSecret : string;
  issuerUrl : string;
  audience : string;
  scopes : option (list string);
}.

(** JavaScript truthiness of a string. *)
Definition truthy (s : string) : bool :=
  match s with EmptyString => false | String _ _ => true end.

(** ** services/pulsarClient.ts *)

Module PulsarClient.

(** What the getters of a native [Pulsar.Message] return. *)
Record NativeMessage := {
  getData : string;
  getMessageId : string;
  getProperties : option (list (string * string));
  getPublishTimestamp : Z;
  getEventTimestamp : Z;
  getRedeliveryCount : Z;
  getPartitionKey : string;
  getTopicName : string;
}.

Record PulsarMessage := {
  data : string;
  messageId : string;
  properties : list (string * string);
  publishTimestamp : Z;
  eventTimestamp : Z;
  redeliveryCount : Z;
  partitionKey : option string;
  topicName : string;
}.

(** [PulsarConsumer.convertMessage]. *)
Definition convertMessage (msg : NativeMessage) : PulsarMessage :=
  {| data := getData msg;
     messageId := getMessageId msg;
     properties := default [] (getProperties msg);
     publishTimestamp := getPublishTimestamp msg;
     eventTimestamp := getEventTimestamp msg;
     redeliveryCount := getRedeliveryCount msg;
     partitionKey :=
       if truthy (getPartitionKey msg) then Some (getPartitionKey msg)
       else None;
     topicName := getTopicName msg |}.

(** [PulsarReader.convertMessage]: the partition key is passed on as it
    is. *)
Definition convertMessage_reader (msg : NativeMessage) : PulsarMessage :=
  {| data := getData msg;
     messageId := getMessageId msg;
     properties := default [] (getProperties msg);
     publishTimestamp := getPublishTimestamp msg;
     eventTimestamp := getEventTimestamp msg;
     redeliveryCount := getRedeliveryCount msg;
     partitionKey := Some (getPartitionKey msg);
     topicName := getTopicName msg |}.

(** [PulsarConsumer.receive_timeout]: [native] is what
    [this.consumer.receive(timeoutMs)] settles with. *)
Definition receive_timeout (native : Z → settled NativeMessage)
    (timeoutMs : Z) : settled (option PulsarMessage) :=
  match native timeoutMs with
  | Fulfilled msg => Fulfilled (Some (convertMessage msg))
  | Rejected _ => Fulfilled None
  end.

(** [PulsarReader.readNext_timeout]. *)
Definition readNext_timeout (native : Z → settled NativeMessage)
    (timeoutMs : Z) : settled (option PulsarMessage) :=
  match native timeoutMs with
  | Fulfilled msg => Fulfilled (Some (convertMessage_reader msg))
  | Rejected _ => Fulfilled None
  end.

(** The configuration handed to [new PulsarMessageClient]. *)
Record PulsarClientConfig := {
  serviceUrl : string;
  authentication : option string;
  oauthConfig : option OAuthConfig;
}.

(** [PulsarMessageClient]: the lazily created native client and the
    wrappers it has handed out, in the order they were added. *)
Record PulsarMessageClient := {
  client : option handle;
  config : PulsarClientConfig;
  producers : list handle;
  consumers : list handle;
  readers : list handle;
}.

(** [new PulsarMessageClient(config)]. *)
Definition new (cfg : PulsarClientConfig) : PulsarMessageClient :=
  {| client := None; config := cfg;
     producers := []; consumers := []; readers := [] |}.

End PulsarClient.

(** ** Events and completions *)

(** [BrowsedMessage] of the shared types: the wire shape of a message. *)
Record BrowsedMessage := {
  bm_messageId : string;
  bm_data : string;
  bm_properties : list (string * string);
  bm_publishTimestamp : Z;
  bm_eventTimestamp : Z;
  bm_partitionKey : option string;
  bm_topicName : string;
}.

(** The three kinds of resource handle. *)
Inductive kind : Type := Producer | Consumer | Reader.

(** What the main process asks of the outside world. *)
Inductive event : Type :=
| EvCreate (k : kind) (topic : string)
    (* the native createProducer, subscribe or createReader is issued *)
| EvSetTimeout (ms : Z)
    (* new Promise(resolve => setTimeout(resolve, ms)) *)
| EvReceive (c : handle) (timeoutMs : Z)
    (* the native consumer.receive(timeoutMs) is issued *)
| EvSend (channel consumerId : string) (message : BrowsedMessage)
    (* mainWindow.webContents.send(channel, {consumerId, message}) *)
| EvAcknowledge (c : handle) (msg : PulsarClient.PulsarMessage)
    (* the native consumer.acknowledge(msg) is issued *)
| EvClose (h : handle)
    (* close() of a producer, consumer or reader is issued *)
| EvClientClose (h : handle)
    (* close() of the native Pulsar.Client is issued *)
| EvConsoleLog (text : string)
| EvConsoleError (text : string).

(** What the outside world answers: the outcome of the promise a task is
    waiting for. *)
Inductive completion : Type :=
| CTimer
    (* a setTimeout promise resolved *)
| CReceived (r : settled PulsarClient.NativeMessage)
    (* the native receive settled *)
| CVoid (r : settled unit)
    (* a native acknowledge or close settled *)
| CAll (rs : list (settled unit))
    (* Promise.all over closes that each carry their own catch: every
       close has settled, [rs] lists how *)
| CJoined
    (* an awaited receiveLoop promise has resolved *)
| CCreated (r : settled handle).
    (* a native createProducer, subscribe or createReader settled *)

(** The result of running a task up to its next suspension point. *)
Inductive step (T R : Type) : Type :=
| Suspended (t : T)
| Returned (r : R).
Arguments Suspended {T R} t.
Arguments Returned {T R} r.

(** ** PulsarMessageClient.close *)

(** The suspension points of [PulsarMessageClient.close]: the three
    [await Promise.all(...)] and the [await this.client.close()]. *)
Inductive close_pc : Type :=
| AwaitProducers
| AwaitConsumers
| AwaitReaders
| AwaitClient.

(** [.catch(err => console.error(what, err))] on every close that was
    rejected. *)
Definition close_errors (what : string) (rs : list (settled unit))
  : list event :=
  omap (λ r, match r with
             | Fulfilled _ => None
             | Rejected e => Some (EvConsoleError (what +:+ " " +:+ e))
             end) rs.

Definition set_client_producers (l : list handle)
    (c : PulsarClient.PulsarMessageClient) : PulsarClient.PulsarMessageClient :=
  {| PulsarClient.client := PulsarClient.client c;
     PulsarClient.config := PulsarClient.config c;
     PulsarClient.producers := l;
     PulsarClient.consumers := PulsarClient.consumers c;
     PulsarClient.readers := PulsarClient.readers c |}.

Definition set_client_consumers (l : list handle)
    (c : PulsarClient.PulsarMessageClient) : PulsarClient.PulsarMessageClient :=
  {| PulsarClient.client := PulsarClient.client c;
     PulsarClient.config := PulsarClient.config c;
     PulsarClient.producers := PulsarClient.producers c;
     PulsarClient.consumers := l;
     PulsarClient.readers := PulsarClient.readers c |}.

Definition set_client_readers (l : list handle)
    (c : PulsarClient.PulsarMessageClient) : PulsarClient.PulsarMessageClient :=
  {| PulsarClient.client := PulsarClient.client c;
     PulsarClient.config := PulsarClient.config c;
     PulsarClient.producers := PulsarClient.producers c;
     PulsarClient.consumers := PulsarClient.consumers c;
     PulsarClient.readers := l |}.

Definition set_client_client (n : option handle)
    (c : PulsarClient.PulsarMessageClient) : PulsarClient.PulsarMessageClient :=
  {| PulsarClient.client := n;
     PulsarClient.config := PulsarClient.config c;
     PulsarClient.producers := PulsarClient.producers c;
     PulsarClient.consumers := PulsarClient.consumers c;
     PulsarClient.readers := PulsarClient.readers c |}.

(** The call [client.close()]: the closes of all producers are issued and
    the task waits for all of them. *)
Definition client_close_start (c : PulsarClient.PulsarMessageClient)
  : close_pc * list event :=
  (AwaitProducers, EvClose <$> PulsarClient.producers c).

(** [client.close()] resumed at [pc] on the client object [c].  The result
    is the next suspension point, or how the promise of [close] settles. *)
Definition client_close_resume (pc : close_pc) (k : completion)
    (c : PulsarClient.PulsarMessageClient)
  : option (PulsarClient.PulsarMessageClient
            * step close_pc (settled unit) * list event) :=
  match pc, k with
  | AwaitProducers, CAll rs =>
      Some (set_client_producers [] c, Suspended AwaitConsumers,
            close_errors "Error closing producer:" rs
            ++ (EvClose <$> PulsarClient.consumers c))
  | AwaitConsumers, CAll rs =>
      Some (set_client_consumers [] c, Suspended AwaitReaders,
            close_errors "Error closing consumer:" rs
            ++ (EvClose <$> PulsarClient.readers c))
  | AwaitReaders, CAll rs =>
      match PulsarClient.client c with
      | Some n =>
          Some (set_client_readers [] c, Suspended AwaitClient,
                close_errors "Error closing reader:" rs ++ [EvClientClose n])
      | None =>
          Some (set_client_readers [] c, Returned (Fulfilled ()),
                close_errors "Error closing reader:" rs)
      end
  | AwaitClient, CVoid (Fulfilled _) =>
      Some (set_client_client None c, Returned (Fulfilled ()), [])
  | AwaitClient, CVoid (Rejected e) =>
      Some (c, Returned (Rejected e), [])
  | _, _ => None
  end.

(** ** The main process: data *)

(** [IPCResponse<T>]: the envelope every handler answers with. *)
Record IPCResponse (T : Type) : Type := {
  resp_success : bool;
  resp_data : option T;
  resp_error : option string;
}.
Arguments resp_success {T} _.
Arguments resp_data {T} _.
Arguments resp_error {T} _.

Definition success {T : Type} (data : T) : IPCResponse T :=
  {| resp_success := true; resp_data := Some data; resp_error := None |}.

Definition error {T : Type} (message : string) : IPCResponse T :=
  {| resp_success := false; resp_data := None; resp_error := Some message |}.

Inductive AuthConfig : Type :=
| AuthToken (token : string)
| AuthOAuth (oauth : OAuthConfig)
| AuthNone.

Record ClusterConfig := {
  clusterId : string;
  adminUrl : string;
  serviceUrl : string;
  name : option string;
  auth : option AuthConfig;
  authToken : option string;
}.

Record ConnectedCluster := {
  cc_clusterId : string;
  cc_name : option string;
  cc_adminUrl : string;
  cc_serviceUrl : string;
  cc_connected : bool;
  cc_connectedAt : Z;
}.

(** The fields the constructor of [PulsarAdmin] sets. *)
Record PulsarAdmin := {
  baseUrl : string;
  admin_authToken : option string;
  oauthClient : option OAuthConfig;
}.

(** [s.replace(/\/$/, '')]. *)
Fixpoint remove_trailing_slash (s : string) : string :=
  match s with
  | EmptyString => EmptyString
  | String c EmptyString => if Ascii.eqb c "/"%char then EmptyString else s
  | String c s' => String c (remove_trailing_slash s')
  end.

(** [ClusterConnection]; the message client is a shared mutable object and
    is held by reference. *)
Record ClusterConnection := {
  conn_config : ClusterConfig;
  admin : PulsarAdmin;
  client : loc;
  connectedAt : Z;
}.

(** [StreamingConsumer]: one object per streaming consumer, shared by the
    map, by its receive loop and by the handlers that looked it up.  The
    promise in [receiveLoop] is named by the address of the loop task. *)
Record StreamingConsumer := {
  consumerId : string;
  consumer : handle;
  paused : bool;
  stopRequested : bool;
  receiveLoop : option loc;
}.

(** The module-level variables of the main process, and the store of the
    objects they refer to. *)
Record MainState := {
  mainWindow : bool;  (* mainWindow is not null *)
  connectedClusters : gmap string ClusterConnection;
  producers : gmap string handle;
  consumers : gmap string handle;
  producerIdCounter : nat;
  consumerIdCounter : nat;
  streamingConsumers : gmap string loc;
  readers : gmap string handle;
  clientObjects : gmap loc PulsarClient.PulsarMessageClient;
  streamingObjects : gmap loc StreamingConsumer;
}.

Definition set_mainWindow (w : bool) (st : MainState) : MainState :=
  {| mainWindow := w;
     connectedClusters := connectedClusters st;
     producers := producers st; consumers := consumers st;
     producerIdCounter := producerIdCounter st;
     consumerIdCounter := consumerIdCounter st;
     streamingConsumers := streamingConsumers st; readers := readers st;
     clientObjects := clientObjects st;
     streamingObjects := streamingObjects st |}.

Definition set_connectedClusters
    (f : gmap string ClusterConnection → gmap string ClusterConnection)
    (st : MainState) : MainState :=
  {| mainWindow := mainWindow st;
     connectedClusters := f (connectedClusters st);
     producers := producers st; consumers := consumers st;
     producerIdCounter := producerIdCounter st;
     consumerIdCounter := consumerIdCounter st;
     streamingConsumers := streamingConsumers st; readers := readers st;
     clientObjects := clientObjects st;
     streamingObjects := streamingObjects st |}.

Definition set_producers (f : gmap string handle → gmap string handle)
    (st : MainState) : MainState :=
  {| mainWindow := mainWindow st;
     connectedClusters := connectedClusters st;
     producers := f (producers st); consumers := consumers st;
     producerIdCounter := producerIdCounter st;
     consumerIdCounter := consumerIdCounter st;
     streamingConsumers := streamingConsumers st; readers := readers st;
     clientObjects := clientObjects st;
     streamingObjects := streamingObjects st |}.

Definition set_consumers (f : gmap string handle → gmap string handle)
    (st : MainState) : MainState :=
  {| mainWindow := mainWindow st;
     connectedClusters := connectedClusters st;
     producers := producers st; consumers := f (consumers st);
     producerIdCounter := producerIdCounter st;
     consumerIdCounter := consumerIdCounter st;
     streamingConsumers := streamingConsumers st; readers := readers st;
     clientObjects := clientObjects st;
     streamingObjects := streamingObjects st |}.

Definition set_readers (f : gmap string handle → gmap string handle)
    (st : MainState) : MainState :=
  {| mainWindow := mainWindow st;
     connectedClusters := connectedClusters st;
     producers := producers st; consumers := consumers st;
     producerIdCounter := producerIdCounter st;
     consumerIdCounter := consumerIdCounter st;
     streamingConsumers := streamingConsumers st; readers := f (readers st);
     clientObjects := clientObjects st;
     streamingObjects := streamingObjects st |}.

Definition set_producerIdCounter (n : nat) (st : MainState) : MainState :=
  {| mainWindow := mainWindow st;
     connectedClusters := connectedClusters st;
     producers := producers st; consumers := consumers st;
     producerIdCounter := n;
     consumerIdCounter := consumerIdCounter st;
     streamingConsumers := streamingConsumers st; readers := readers st;
     clientObjects := clientObjects st;
     streamingObjects := streamingObjects st |}.

Definition set_consumerIdCounter (n : nat) (st : MainState) : MainState :=
  {| mainWindow := mainWindow st;
     connectedClusters := connectedClusters st;
     producers := producers st; consumers := consumers st;
     producerIdCounter := producerIdCounter st;
     consumerIdCounter := n;
     streamingConsumers := streamingConsumers st; readers := readers st;
     clientObjects := clientObjects st;
     streamingObjects := streamingObjects st |}.

Definition set_streamingConsumers (f : gmap string loc → gmap string loc)
    (st : MainState) : MainState :=
  {| mainWindow := mainWindow st;
     connectedClusters := connectedClusters st;
     producers := producers st; consumers := consumers st;
     producerIdCounter := producerIdCounter st;
     consumerIdCounter := consumerIdCounter st;
     streamingConsumers := f (streamingConsumers st); readers := readers st;
     clientObjects := clientObjects st;
     streamingObjects := streamingObjects st |}.

Definition set_clientObjects
    (f : gmap loc PulsarClient.PulsarMessageClient
         → gmap loc PulsarClient.PulsarMessageClient)
    (st : MainState) : MainState :=
  {| mainWindow := mainWindow st;
     connectedClusters := connectedClusters st;
     producers := producers st; consumers := consumers st;
     producerIdCounter := producerIdCounter st;
     consumerIdCounter := consumerIdCounter st;
     streamingConsumers := streamingConsumers st; readers := readers st;
     clientObjects := f (clientObjects st);
     streamingObjects := streamingObjects st |}.

Definition set_streamingObjects
    (f : gmap loc StreamingConsumer → gmap loc StreamingConsumer)
    (st : MainState) : MainState :=
  {| mainWindow := mainWindow st;
     connectedClusters := connectedClusters st;
     producers := producers st; consumers := consumers st;
     producerIdCounter := producerIdCounter st;
     consumerIdCounter := consumerIdCounter st;
     streamingConsumers := streamingConsumers st; readers := readers st;
     clientObjects := clientObjects st;
     streamingObjects := f (streamingObjects st) |}.

(** The main process right after start-up, before the window exists. *)
Definition initial_state : MainState :=
  {| mainWindow := false;
     connectedClusters := ∅; producers := ∅; consumers := ∅;
     producerIdCounter := 0; consumerIdCounter := 0;
     streamingConsumers := ∅; readers := ∅;
     clientObjects := ∅; streamingObjects := ∅ |}.

#[global] Instance PulsarMessageClient_inhabited
  : Inhabited PulsarClient.PulsarMessageClient :=
  populate (PulsarClient.new
    {| PulsarClient.serviceUrl := ""; PulsarClient.authentication := None;
       PulsarClient.oauthConfig := None |}).

#[global] Instance StreamingConsumer_inhabited : Inhabited StreamingConsumer :=
  populate {| consumerId := ""; consumer := 0; paused := false;
              stopRequested := false; receiveLoop := None |}.

(** ** Cluster management handlers *)

(** [ipcMain.handle('cluster:connect', ...)].  The handler has no [await]:
    it runs in one piece.  [now] is what [Date.now()] returns.  The
    constructors of the admin and message clients only store their
    configuration (the native client is built lazily), so on a well-typed
    [config] nothing throws and the [catch] of the handler is not entered. *)
Definition cluster_connect (config : ClusterConfig) (now : Z) (st : MainState)
  : MainState * IPCResponse ConnectedCluster :=
  match connectedClusters st !! clusterId config with
  | Some _ =>
      (st, error ("Cluster " +:+ clusterId config +:+ " is already connected"))
  | None =>
      let '(token, oauth) :=
        match auth config with
        | Some (AuthToken token) => (Some token, None)
        | Some (AuthOAuth oauth) => (None, Some oauth)
        | Some AuthNone => (None, None)
        | None =>
            match authToken config with
            | Some token => if truthy token then (Some token, None)
                            else (None, None)
            | None => (None, None)
            end
        end in
      let admin :=
        {| baseUrl := remove_trailing_slash (adminUrl config);
           admin_authToken := token;
           oauthClient := oauth |} in
      let client :=
        PulsarClient.new
          {| PulsarClient.serviceUrl := serviceUrl config;
             PulsarClient.authentication := token;
             PulsarClient.oauthConfig := oauth |} in
      let l := fresh (dom (clientObjects st)) in
      let connection :=
        {| conn_config := config; admin := admin; client := l;
           connectedAt := now |} in
      (set_connectedClusters <[clusterId config := connection]>
         (set_clientObjects <[l := client]> st),
       success {| cc_clusterId := clusterId config;
                  cc_name := name config;
                  cc_adminUrl := adminUrl config;
                  cc_serviceUrl := serviceUrl config;
                  cc_connected := true;
                  cc_connectedAt := now |})
  end.

(** A [cluster:disconnect] call waiting inside [connection.client.close()]. *)
Record disconnect_task := {
  disconnect_id : string;
  disconnect_client : loc;
  disconnect_at : close_pc;
}.

(** [ipcMain.handle('cluster:disconnect', ...)] up to its [await]. *)
Definition cluster_disconnect_start (clusterId : string) (st : MainState)
  : MainState * step disconnect_task (IPCResponse unit) * list event :=
  match connectedClusters st !! clusterId with
  | None =>
      (st, Returned (error ("Cluster " +:+ clusterId +:+ " is not connected")),
       [])
  | Some connection =>
      let '(pc, evs) :=
        client_close_start (clientObjects st !!! client connection) in
      (st,
       Suspended {| disconnect_id := clusterId;
                    disconnect_client := client connection;
                    disconnect_at := pc |},
       evs)
  end.

(** [cluster:disconnect] resumed: [client.close()] goes on; when it has
    settled the entry is deleted, or the rejection is reported. *)
Definition cluster_disconnect_resume (t : disconnect_task) (k : completion)
    (st : MainState)
  : option (MainState * step disconnect_task (IPCResponse unit) * list event) :=
  match client_close_resume (disconnect_at t) k
          (clientObjects st !!! disconnect_client t) with
  | None => None
  | Some (c, r, evs) =>
      let st' := set_clientObjects <[disconnect_client t := c]> st in
      match r with
      | Suspended pc =>
          Some (st',
                Suspended {| disconnect_id := disconnect_id t;
                             disconnect_client := disconnect_client t;
                             disconnect_at := pc |},
                evs)
      | Returned (Fulfilled _) =>
          Some (set_connectedClusters (delete (disconnect_id t)) st',
                Returned (success ()), evs)
      | Returned (Rejected e) =>
          Some (st',
                Returned (error ("Failed to disconnect cluster: " +:+ e)),
                evs)
      end
  end.

(** ** Producer, consumer and reader handlers *)

(** The three registries of resource handles share the shape of their
    [close] handler: [producer:close], [consumer:close] and
    [messages:closeReader]. *)
Definition registry (k : kind) (st : MainState) : gmap string handle :=
  match k with
  | Producer => producers st
  | Consumer => consumers st
  | Reader => readers st
  end.

Definition set_registry (k : kind)
    (f : gmap string handle → gmap string handle) (st : MainState)
  : MainState :=
  match k with
  | Producer => set_producers f st
  | Consumer => set_consumers f st
  | Reader => set_readers f st
  end.

(** The words the three handlers use in their messages. *)
Definition Kind_word (k : kind) : string :=
  match k with
  | Producer => "Producer" | Consumer => "Consumer" | Reader => "Reader"
  end.

Definition kind_word (k : kind) : string :=
  match k with
  | Producer => "producer" | Consumer => "consumer" | Reader => "reader"
  end.

(** A [close] call waiting for the native [close()]. *)
Record close_task := {
  close_kind : kind;
  close_id : string;
  close_handle : handle;
}.

(** [producer:close], [consumer:close], [messages:closeReader] up to the
    [await]. *)
Definition resource_close_start (k : kind) (id : string) (st : MainState)
  : MainState * step close_task (IPCResponse unit) * list event :=
  match registry k st !! id with
  | None =>
      (st, Returned (error (Kind_word k +:+ " " +:+ id +:+ " not found")), [])
  | Some h =>
      (st,
       Suspended {| close_kind := k; close_id := id; close_handle := h |},
       [EvClose h])
  end.

(** The same handlers resumed with the outcome of the native [close()]. *)
Definition resource_close_resume (t : close_task) (k : completion)
    (st : MainState)
  : option (MainState * step close_task (IPCResponse unit) * list event) :=
  match k with
  | CVoid (Fulfilled _) =>
      Some (set_registry (close_kind t) (delete (close_id t)) st,
            Returned (success ()),
            match close_kind t with
            | Reader => [EvConsoleLog ("Closed reader " +:+ close_id t)]
            | _ => []
            end)
  | CVoid (Rejected e) =>
      Some (st,
            Returned (error ("Failed to close " +:+ kind_word (close_kind t)
                             +:+ ": " +:+ e)),
            [])
  | _ => None
  end.

(** [ipcMain.handle('consumer:acknowledge', ...)]: no [await], and no use of
    the consumer beyond the lookup. *)
Definition consumer_acknowledge (consumerId _messageId : string)
    (st : MainState) : MainState * IPCResponse unit * list event :=
  match consumers st !! consumerId with
  | None => (st, error ("Consumer " +:+ consumerId +:+ " not found"), [])
  | Some _ => (st, success (), [])
  end.

(** ** The streaming consumer loop *)

Definition set_paused (b : bool) (sc : StreamingConsumer) : StreamingConsumer :=
  {| consumerId := consumerId sc; consumer := consumer sc;
     paused := b; stopRequested := stopRequested sc;
     receiveLoop := receiveLoop sc |}.

Definition set_stopRequested (b : bool) (sc : StreamingConsumer)
  : StreamingConsumer :=
  {| consumerId := consumerId sc; consumer := consumer sc;
     paused := paused sc; stopRequested := b;
     receiveLoop := receiveLoop sc |}.

(** The conversion to the wire shape in [startConsumerLoop]. *)
Definition browsedMsg (msg : PulsarClient.PulsarMessage) : BrowsedMessage :=
  {| bm_messageId := PulsarClient.messageId msg;
     bm_data := PulsarClient.data msg;
     bm_properties := PulsarClient.properties msg;
     bm_publishTimestamp := PulsarClient.publishTimestamp msg;
     bm_eventTimestamp := PulsarClient.eventTimestamp msg;
     bm_partitionKey := PulsarClient.partitionKey msg;
     bm_topicName := PulsarClient.topicName msg |}.

(** Where [startConsumerLoop] can be suspended, and its end. *)
Inductive loop_pc : Type :=
| LPaused
    (* in the 100 ms sleep of the paused branch *)
| LReceiving
    (* in consumer.receive_timeout(1000) *)
| LAcknowledging (msg : PulsarClient.PulsarMessage)
    (* in consumer.acknowledge(msg), after the message was sent on *)
| LBackoff
    (* in the 100 ms sleep of the catch block *)
| LDone.
    (* the loop has returned: its promise is resolved *)

(** From the test of the [while] to the next [await]: leave when
    [stopRequested], sleep when [paused], else issue a receive. *)
Definition loop_top (sc : StreamingConsumer) : loop_pc * list event :=
  if stopRequested sc then (LDone, [])
  else if paused sc then (LPaused, [EvSetTimeout 100%Z])
  else (LReceiving, [EvReceive (consumer sc) 1000%Z]).

(** The [catch] block: leave when [stopRequested], else sleep 100 ms. *)
Definition loop_catch (sc : StreamingConsumer) : loop_pc * list event :=
  if stopRequested sc then (LDone, []) else (LBackoff, [EvSetTimeout 100%Z]).

(** [startConsumerLoop] resumed at [pc] with the completion [k].  The loop
    reads [mainWindow] and the flags of its [StreamingConsumer] object as
    they are at that moment, and changes neither.  [webContents.send] is
    fire-and-forget and is taken not to throw. *)
Definition loop_resume (mainWindow : bool) (sc : StreamingConsumer)
    (pc : loop_pc) (k : completion) : option (loop_pc * list event) :=
  match pc, k with
  | LPaused, CTimer => Some (loop_top sc)
  | LReceiving, CReceived r =>
      match PulsarClient.receive_timeout (λ _, r) 1000%Z with
      | Fulfilled (Some msg) =>
          if mainWindow && negb (stopRequested sc) then
            Some (LAcknowledging msg,
                  [EvSend "messages:received" (consumerId sc) (browsedMsg msg);
                   EvAcknowledge (consumer sc) msg])
          else Some (loop_top sc)
      | Fulfilled None => Some (loop_top sc)
      | Rejected _ => Some (loop_catch sc)
      end
  | LAcknowledging _, CVoid (Fulfilled _) => Some (loop_top sc)
  | LAcknowledging _, CVoid (Rejected _) => Some (loop_catch sc)
  | LBackoff, CTimer => Some (loop_top sc)
  | _, _ => None
  end.

(** What the loop sees when it is resumed: the window, its object, and the
    completion it was waiting for. *)
Definition loop_input : Type := bool * StreamingConsumer * completion.

(** The loop run over a sequence of resumptions, with the events of all of
    them in order. *)
Fixpoint loop_run (pc : loop_pc) (inputs : list loop_input)
  : option (loop_pc * list event) :=
  match inputs with
  | [] => Some (pc, [])
  | (w, sc, k) :: inputs' =>
      match loop_resume w sc pc k with
      | None => None
      | Some (pc', evs) =>
          match loop_run pc' inputs' with
          | None => None
          | Some (pc'', evs') => Some (pc'', evs ++ evs')
          end
      end
  end.

(** The messages the receive calls of a run returned, in order. *)
Definition received (inputs : list loop_input)
  : list PulsarClient.PulsarMessage :=
  omap (λ i : loop_input,
          match i.2 with
          | CReceived (Fulfilled msg) => Some (PulsarClient.convertMessage msg)
          | _ => None
          end) inputs.

(** Those of them that arrived while the window existed and no stop had
    been requested. *)
Definition received_open (inputs : list loop_input)
  : list PulsarClient.PulsarMessage :=
  omap (λ i : loop_input,
          match i.2 with
          | CReceived (Fulfilled msg) =>
              if i.1.1 && negb (stopRequested i.1.2)
              then Some (PulsarClient.convertMessage msg) else None
          | _ => None
          end) inputs.

(** The messages a trace pushes to the renderer, in order. *)
Definition pushed (evs : list event) : list BrowsedMessage :=
  omap (λ e, match e with EvSend _ _ m => Some m | _ => None end) evs.

(** Kinds of event a statement may ask about. *)
Definition is_receive (e : event) : bool :=
  match e with EvReceive _ _ => true | _ => false end.

Definition is_send (e : event) : bool :=
  match e with EvSend _ _ _ => true | _ => false end.

Definition is_acknowledge (e : event) : bool :=
  match e with EvAcknowledge _ _ => true | _ => false end.

Definition is_console (e : event) : bool :=
  match e with EvConsoleLog _ | EvConsoleError _ => true | _ => false end.

Definition is_native_call (e : event) : bool :=
  match e with
  | EvCreate _ _ | EvReceive _ _ | EvAcknowledge _ _ | EvClose _
  | EvClientClose _ => true
  | _ => false
  end.

(** ** Streaming consumer handlers *)

(** [ipcMain.handle('messages:pauseConsumer', ...)]: no [await]. *)
Definition pauseConsumer (consumerId : string) (st : MainState)
  : MainState * IPCResponse unit :=
  match streamingConsumers st !! consumerId with
  | None => (st, error ("Consumer " +:+ consumerId +:+ " not found"))
  | Some l =>
      (set_streamingObjects (alter (set_paused true) l) st, success ())
  end.

(** Where [messages:stopConsumer] can be suspended. *)
Inductive stop_pc : Type :=
| StopJoining (loop : loc)
    (* in [await streamingConsumer.receiveLoop] *)
| StopClosing.
    (* in [await streamingConsumer.consumer.close()] *)

(** A [messages:stopConsumer] call in flight: the id it was given and the
    object it looked up. *)
Record stop_task := {
  stop_id : string;
  stop_object : loc;
  stop_at : stop_pc;
}.

(** [ipcMain.handle('messages:stopConsumer', ...)] up to its first
    [await]. *)
Definition stopConsumer_start (consumerId : string) (st : MainState)
  : MainState * step stop_task (IPCResponse unit) * list event :=
  match streamingConsumers st !! consumerId with
  | None =>
      (st, Returned (error ("Consumer " +:+ consumerId +:+ " not found")), [])
  | Some l =>
      let st' := set_streamingObjects (alter (set_stopRequested true) l) st in
      let sc := streamingObjects st' !!! l in
      match receiveLoop sc with
      | Some p =>
          (st',
           Suspended {| stop_id := consumerId; stop_object := l;
                        stop_at := StopJoining p |},
           [])
      | None =>
          (st',
           Suspended {| stop_id := consumerId; stop_object := l;
                        stop_at := StopClosing |},
           [EvClose (consumer sc)])
      end
  end.

(** [messages:stopConsumer] resumed.  [CJoined] is only delivered once the
    awaited loop has returned (see [sys_step]). *)
Definition stopConsumer_resume (t : stop_task) (k : completion)
    (st : MainState)
  : option (MainState * step stop_task (IPCResponse unit) * list event) :=
  match stop_at t, k with
  | StopJoining _, CJoined =>
      Some (st,
            Suspended {| stop_id := stop_id t; stop_object := stop_object t;
                         stop_at := StopClosing |},
            [EvClose (consumer (streamingObjects st !!! stop_object t))])
  | StopClosing, CVoid (Fulfilled _) =>
      Some (set_streamingConsumers (delete (stop_id t)) st,
            Returned (success ()), [])
  | StopClosing, CVoid (Rejected e) =>
      Some (st, Returned (error ("Failed to stop consumer: " +:+ e)), [])
  | _, _ => None
  end.

(** ** Handlers that create a resource *)

(** [producer:create], [consumer:create], [messages:browseMessages] and
    [messages:startConsumer]. *)
Inductive create_what : Type :=
| CreateProducer
| CreateConsumer
| CreateReader
| StartConsumer.

Definition created_kind (w : create_what) : kind :=
  match w with
  | CreateProducer => Producer
  | CreateConsumer | StartConsumer => Consumer
  | CreateReader => Reader
  end.

(** A create call waiting in [connection.client.create...]. *)
Record create_task := {
  create_op : create_what;
  create_client : loc;
  create_topic : string;
}.

(** [PulsarMessageClient.ensureClient]; [fresh_client] names the native
    client [new Pulsar.Client] would build. *)
Definition ensureClient (fresh_client : handle)
    (c : PulsarClient.PulsarMessageClient) : PulsarClient.PulsarMessageClient :=
  match PulsarClient.client c with
  | Some _ => c
  | None => set_client_client (Some fresh_client) c
  end.

(** The wrapper is added to the set of the client that made it. *)
Definition client_add (k : kind) (h : handle)
    (c : PulsarClient.PulsarMessageClient) : PulsarClient.PulsarMessageClient :=
  match k with
  | Producer => set_client_producers (PulsarClient.producers c ++ [h]) c
  | Consumer => set_client_consumers (PulsarClient.consumers c ++ [h]) c
  | Reader => set_client_readers (PulsarClient.readers c ++ [h]) c
  end.

(** The four handlers up to the [await] of the native create call.  Of the
    options only the topic is kept; the others go to the native library as
    they are and no handler reads them again. *)
Definition create_start (w : create_what) (clusterId topic : string)
    (fresh_client : handle) (st : MainState)
  : MainState * step create_task (IPCResponse string) * list event :=
  match connectedClusters st !! clusterId with
  | None =>
      (st, Returned (error ("Cluster " +:+ clusterId +:+ " is not connected")),
       [])
  | Some connection =>
      (set_clientObjects (alter (ensureClient fresh_client) (client connection))
         st,
       Suspended {| create_op := w; create_client := client connection;
                    create_topic := topic |},
       [EvCreate (created_kind w) topic])
  end.

Definition create_failure (w : create_what) : string :=
  match w with
  | CreateProducer => "Failed to create producer: "
  | CreateConsumer => "Failed to create consumer: "
  | CreateReader => "Failed to create reader: "
  | StartConsumer => "Failed to start consumer: "
  end.

Definition producer_id (n : nat) : string := "producer_" +:+ pretty n.
Definition consumer_id (n : nat) : string := "consumer_" +:+ pretty n.
Definition reader_id (n : nat) : string := "reader_" +:+ pretty n.
Definition streaming_consumer_id (n : nat) : string :=
  "streaming_consumer_" +:+ pretty n.

(** The four handlers resumed with the outcome of the native create call.
    The answer carries the new id ([messages:browseMessages] wraps it as
    [{readerId}]).  The last component is the receive loop
    [messages:startConsumer] starts: its address and where it first
    suspends. *)
Definition create_resume (t : create_task) (k : completion) (st : MainState)
  : option (MainState * IPCResponse string * list event
            * option (loc * loop_pc)) :=
  match k with
  | CCreated (Rejected e) =>
      Some (st, error (create_failure (create_op t) +:+ e), [], None)
  | CCreated (Fulfilled h) =>
      let st1 :=
        set_clientObjects
          (alter (client_add (created_kind (create_op t)) h) (create_client t))
          st in
      match create_op t with
      | CreateProducer =>
          let n := S (producerIdCounter st1) in
          Some (set_producers <[producer_id n := h]>
                  (set_producerIdCounter n st1),
                success (producer_id n), [], None)
      | CreateConsumer =>
          let n := S (consumerIdCounter st1) in
          Some (set_consumers <[consumer_id n := h]>
                  (set_consumerIdCounter n st1),
                success (consumer_id n), [], None)
      | CreateReader =>
          let n := S (consumerIdCounter st1) in
          Some (set_readers <[reader_id n := h]>
                  (set_consumerIdCounter n st1),
                success (reader_id n),
                [EvConsoleLog ("Created reader " +:+ reader_id n +:+ " for "
                               +:+ create_topic t)],
                None)
      | StartConsumer =>
          let n := S (consumerIdCounter st1) in
          let l := fresh (dom (streamingObjects st1)) in
          let sc :=
            {| consumerId := streaming_consumer_id n; consumer := h;
               paused := false; stopRequested := false;
               receiveLoop := None |} in
          let '(pc, evs) := loop_top sc in
          Some (set_streamingObjects
                  <[l := {| consumerId := streaming_consumer_id n;
                            consumer := h; paused := false;
                            stopRequested := false;
                            receiveLoop := Some l |}]>
                  (set_streamingConsumers <[streaming_consumer_id n := l]>
                     (set_consumerIdCounter n st1)),
                success (streaming_consumer_id n), evs, Some (l, pc))
      end
  | _ => None
  end.

(** ** The event loop: handlers and receive loops interleaved *)

(** A handler call that is suspended at an [await]. *)
Inductive task : Type :=
| TDisconnect (t : disconnect_task)
| TClose (t : close_task)
| TCreate (t : create_task)
| TStop (t : stop_task).

(** The main process between two turns of the event loop: its variables,
    where each receive loop stands, and the handler calls in flight. *)
Record Sys := {
  main : MainState;
  loops : gmap loc loop_pc;
  tasks : gmap nat task;
}.

Definition initial_sys : Sys :=
  {| main := initial_state; loops := ∅; tasks := ∅ |}.

(** An [ipcRenderer.invoke] of the renderer. *)
Inductive call : Type :=
| CallConnect (config : ClusterConfig) (now : Z)
| CallDisconnect (clusterId : string)
| CallCreate (w : create_what) (clusterId topic : string)
    (fresh_client : handle)
| CallClose (k : kind) (id : string)
| CallAcknowledge (consumerId messageId : string)
| CallPause (consumerId : string)
| CallStop (consumerId : string).

(** One turn of the event loop. *)
Inductive action : Type :=
| AInvoke (i : nat) (c : call)
    (* the renderer invokes a handler; [i] names the call *)
| AResume (i : nat) (k : completion)
    (* the promise call [i] waits for settles *)
| ALoop (l : loc) (k : completion)
    (* the promise the receive loop [l] waits for settles *)
| AWindow (w : bool).
    (* the window is created ([true]) or closed ([false]) *)

(** What a handler answers. *)
Inductive reply : Type :=
| ReplyVoid (r : IPCResponse unit)
| ReplyString (r : IPCResponse string)
| ReplyCluster (r : IPCResponse ConnectedCluster).

Definition with_main (st : MainState) (s : Sys) : Sys :=
  {| main := st; loops := loops s; tasks := tasks s |}.

(** The outcome of a handler turn: the task stays suspended, or it is gone
    and has answered. *)
Definition settle_task {T : Type} (wrap : T → task) (i : nat) (s : Sys)
    (r : MainState * step T (IPCResponse unit) * list event)
  : Sys * list event * option reply :=
  match r with
  | (st, Suspended t, evs) =>
      ({| main := st; loops := loops s; tasks := <[i := wrap t]> (tasks s) |},
       evs, None)
  | (st, Returned resp, evs) =>
      ({| main := st; loops := loops s; tasks := delete i (tasks s) |},
       evs, Some (ReplyVoid resp))
  end.

Definition sys_invoke (i : nat) (c : call) (s : Sys)
  : Sys * list event * option reply :=
  match c with
  | CallConnect config now =>
      let '(st, resp) := cluster_connect config now (main s) in
      (with_main st s, [], Some (ReplyCluster resp))
  | CallDisconnect clusterId =>
      settle_task TDisconnect i s (cluster_disconnect_start clusterId (main s))
  | CallCreate w clusterId topic fresh_client =>
      match create_start w clusterId topic fresh_client (main s) with
      | (st, Suspended t, evs) =>
          ({| main := st; loops := loops s;
              tasks := <[i := TCreate t]> (tasks s) |}, evs, None)
      | (st, Returned resp, evs) =>
          (with_main st s, evs, Some (ReplyString resp))
      end
  | CallClose k id =>
      settle_task TClose i s (resource_close_start k id (main s))
  | CallAcknowledge consumerId messageId =>
      let '(st, resp, evs) :=
        consumer_acknowledge consumerId messageId (main s) in
      (with_main st s, evs, Some (ReplyVoid resp))
  | CallPause consumerId =>
      let '(st, resp) := pauseConsumer consumerId (main s) in
      (with_main st s, [], Some (ReplyVoid resp))
  | CallStop consumerId =>
      settle_task TStop i s (stopConsumer_start consumerId (main s))
  end.

(** An awaited receive loop promise resolves only when the loop has
    returned; every other completion can arrive at any turn. *)
Definition joinable (s : Sys) (t : task) (k : completion) : bool :=
  match t, k with
  | TStop t', CJoined =>
      match stop_at t' with
      | StopJoining p =>
          match loops s !! p with Some LDone => true | _ => false end
      | StopClosing => false
      end
  | _, CJoined => false
  | _, _ => true
  end.

Definition sys_resume (i : nat) (t : task) (k : completion) (s : Sys)
  : option (Sys * list event * option reply) :=
  match t with
  | TDisconnect t' =>
      settle_task TDisconnect i s <$> cluster_disconnect_resume t' k (main s)
  | TClose t' =>
      settle_task TClose i s <$> resource_close_resume t' k (main s)
  | TStop t' =>
      settle_task TStop i s <$> stopConsumer_resume t' k (main s)
  | TCreate t' =>
      match create_resume t' k (main s) with
      | None => None
      | Some (st, resp, evs, started) =>
          Some ({| main := st;
                   loops := match started with
                            | Some (l, pc) => <[l := pc]> (loops s)
                            | None => loops s
                            end;
                   tasks := delete i (tasks s) |},
                evs, Some (ReplyString resp))
      end
  end.

(** One turn of the event loop, when the action can take place. *)
Definition sys_step (a : action) (s : Sys)
  : option (Sys * list event * option reply) :=
  match a with
  | AInvoke i c =>
      match tasks s !! i with
      | Some _ => None
      | None => Some (sys_invoke i c s)
      end
  | AResume i k =>
      match tasks s !! i with
      | None => None
      | Some t => if joinable s t k then sys_resume i t k s else None
      end
  | ALoop l k =>
      match loops s !! l with
      | None => None
      | Some pc =>
          match loop_resume (mainWindow (main s))
                  (streamingObjects (main s) !!! l) pc k with
          | None => None
          | Some (pc', evs) =>
              Some ({| main := main s; loops := <[l := pc']> (loops s);
                       tasks := tasks s |}, evs, None)
          end
      end
  | AWindow w => Some (with_main (set_mainWindow w (main s)) s, [], None)
  end.

(** A sequence of turns, with the events of all of them in order. *)
Fixpoint run (acts : list action) (s : Sys) : option (Sys * list event) :=
  match acts with
  | [] => Some (s, [])
  | a :: acts' =>
      match sys_step a s with
      | None => None
      | Some (s', evs, _) =>
          match run acts' s' with
          | None => None
          | Some (s'', evs') => Some (s'', evs ++ evs')
          end
      end
  end.

(** ** Teardown: [app.on('before-quit', ...)] *)

(** Where the before-quit handler can be suspended.  Each [for ... of] loop
    is in the close of the first of the entries it has yet to visit.  The
    entries of one map are visited in the order of [map_to_list]
    (JavaScript visits them in insertion order); nothing below depends on
    the order within one map. *)
Inductive quit_pc : Type :=
| QuitProducer (rest : list (string * handle))
    (* in [await producer.close()] *)
| QuitConsumer (rest : list (string * handle))
    (* in [await consumer.close()] *)
| QuitJoining (p : loc) (rest : list (string * loc))
    (* in [await streamingConsumer.receiveLoop] *)
| QuitStreaming (rest : list (string * loc))
    (* in [await streamingConsumer.consumer.close()] *)
| QuitCluster (rest : list (string * ClusterConnection)) (pc : close_pc)
    (* in [await connection.client.close()] *)
| QuitDone.

(** [console.error(what, err)] when a close was rejected. *)
Definition log_rejection (what : string) (r : settled unit) : list event :=
  match r with
  | Fulfilled _ => []
  | Rejected e => [EvConsoleError (what +:+ " " +:+ e)]
  end.

(** The fourth loop, from the entry it is about to visit. *)
Definition quit_clusters (rest : list (string * ClusterConnection))
    (st : MainState) : MainState * quit_pc * list event :=
  match rest with
  | [] => (set_connectedClusters (λ _, ∅) st, QuitDone, [])
  | (_, connection) :: _ =>
      let '(pc, evs) :=
        client_close_start (clientObjects st !!! client connection) in
      (st, QuitCluster rest pc, evs)
  end.

(** The third loop; when it is through, [streamingConsumers.clear()] and
    on to the clusters. *)
Definition quit_streaming (rest : list (string * loc)) (st : MainState)
  : MainState * quit_pc * list event :=
  match rest with
  | [] =>
      let st' := set_streamingConsumers (λ _, ∅) st in
      quit_clusters (map_to_list (connectedClusters st')) st'
  | (_, l) :: _ =>
      let st' := set_streamingObjects (alter (set_stopRequested true) l) st in
      let sc := streamingObjects st' !!! l in
      match receiveLoop sc with
      | Some p => (st', QuitJoining p rest, [])
      | None => (st', QuitStreaming rest, [EvClose (consumer sc)])
      end
  end.

(** The second loop; when it is through, [consumers.clear()] and on to the
    streaming consumers. *)
Definition quit_consumers (rest : list (string * handle)) (st : MainState)
  : MainState * quit_pc * list event :=
  match rest with
  | [] =>
      let st' := set_consumers (λ _, ∅) st in
      quit_streaming (map_to_list (streamingConsumers st')) st'
  | (_, h) :: _ => (st, QuitConsumer rest, [EvClose h])
  end.

(** The first loop; when it is through, [producers.clear()] and on to the
    consumers. *)
Definition quit_producers (rest : list (string * handle)) (st : MainState)
  : MainState * quit_pc * list event :=
  match rest with
  | [] =>
      let st' := set_producers (λ _, ∅) st in
      quit_consumers (map_to_list (consumers st')) st'
  | (_, h) :: _ => (st, QuitProducer rest, [EvClose h])
  end.

(** The handler up to its first [await]. *)
Definition before_quit_start (st : MainState)
  : MainState * quit_pc * list event :=
  quit_producers (map_to_list (producers st)) st.

Definition prepend_events (evs : list event)
    (r : MainState * quit_pc * list event) : MainState * quit_pc * list event :=
  (r.1.1, r.1.2, evs ++ r.2).

(** The handler resumed.  [CJoined] is only delivered once the awaited
    loop has returned (see [quit_step]). *)
Definition before_quit_resume (pc : quit_pc) (k : completion) (st : MainState)
  : option (MainState * quit_pc * list event) :=
  match pc, k with
  | QuitProducer ((id, _) :: rest), CVoid r =>
      Some (prepend_events
              (log_rejection ("Error closing producer " +:+ id +:+ ":") r)
              (quit_producers rest st))
  | QuitConsumer ((id, _) :: rest), CVoid r =>
      Some (prepend_events
              (log_rejection ("Error closing consumer " +:+ id +:+ ":") r)
              (quit_consumers rest st))
  | QuitJoining _ ((id, l) :: rest), CJoined =>
      Some (st, QuitStreaming ((id, l) :: rest),
            [EvClose (consumer (streamingObjects st !!! l))])
  | QuitStreaming ((id, _) :: rest), CVoid r =>
      Some (prepend_events
              (log_rejection
                 ("Error closing streaming consumer " +:+ id +:+ ":") r)
              (quit_streaming rest st))
  | QuitCluster ((id, connection) :: rest) cpc, _ =>
      match client_close_resume cpc k
              (clientObjects st !!! client connection) with
      | None => None
      | Some (c, r, evs) =>
          let st' := set_clientObjects <[client connection := c]> st in
          match r with
          | Suspended cpc' =>
              Some (st', QuitCluster ((id, connection) :: rest) cpc', evs)
          | Returned r' =>
              Some (prepend_events
                      (evs ++ log_rejection
                                ("Error closing cluster " +:+ id +:+ ":") r')
                      (quit_clusters rest st'))
          end
      end
  | _, _ => None
  end.

(** The teardown with the receive loops it waits for.  No handler is
    invoked while the application quits. *)
Record Quit := {
  quit_main : MainState;
  quit_loops : gmap loc loop_pc;
  quit_at : quit_pc;
}.

Inductive quit_action : Type :=
| QResume (k : completion)
    (* the promise the before-quit handler waits for settles *)
| QLoop (l : loc) (k : completion).
    (* the promise the receive loop [l] waits for settles *)

Definition quit_begin (s : Sys) : Quit * list event :=
  let '(st, pc, evs) := before_quit_start (main s) in
  ({| quit_main := st; quit_loops := loops s; quit_at := pc |}, evs).

Definition quit_joinable (q : Quit) (k : completion) : bool :=
  match k, quit_at q with
  | CJoined, QuitJoining p _ =>
      match quit_loops q !! p with Some LDone => true | _ => false end
  | CJoined, _ => false
  | _, _ => true
  end.

Definition quit_step (a : quit_action) (q : Quit)
  : option (Quit * list event) :=
  match a with
  | QResume k =>
      if quit_joinable q k then
        match before_quit_resume (quit_at q) k (quit_main q) with
        | None => None
        | Some (st, pc, evs) =>
            Some ({| quit_main := st; quit_loops := quit_loops q;
                     quit_at := pc |}, evs)
        end
      else None
  | QLoop l k =>
      match quit_loops q !! l with
      | None => None
      | Some pc =>
          match loop_resume (mainWindow (quit_main q))
                  (streamingObjects (quit_main q) !!! l) pc k with
          | None => None
          | Some (pc', evs) =>
              Some ({| quit_main := quit_main q;
                       quit_loops := <[l := pc']> (quit_loops q);
                       quit_at := quit_at q |}, evs)
          end
      end
  end.

(** The states a teardown passes through, oldest first, each with the
    events of the turn that led to it. *)
Fixpoint quit_run (acts : list quit_action) (q : Quit)
  : option (list (Quit * list event)) :=
  match acts with
  | [] => Some []
  | a :: acts' =>
      match quit_step a q with
      | None => None
      | Some (q', evs) =>
          match quit_run acts' q' with
          | None => None
          | Some tr => Some ((q', evs) :: tr)
          end
      end
  end.

(** The turn invokes [close] of the message client of a cluster. *)
Definition closes_cluster (q : Quit) : bool :=
  match quit_at q with
  | QuitCluster _ _ => true
  | _ => false
  end.

(** ** Running one handler call on its own *)

(** A suspended handler call resumed with the completions [ks] and no other
    task in between.  The result lists the states in which the call was
    suspended, then gives the state it leaves, where it stands, and its
    events. *)
Fixpoint handler_run {T R : Type}
    (resume : T → completion → MainState
              → option (MainState * step T R * list event))
    (ks : list completion) (t : T) (st : MainState)
  : option (list MainState * MainState * step T R * list event) :=
  match ks with
  | [] => Some ([], st, Suspended t, [])
  | k :: ks' =>
      match resume t k st with
      | None => None
      | Some (st', Returned r, evs) =>
          match ks' with
          | [] => Some ([st], st', Returned r, evs)
          | _ :: _ => None
          end
      | Some (st', Suspended t', evs) =>
          match handler_run resume ks' t' st' with
          | None => None
          | Some (sts, st'', r, evs') => Some (st :: sts, st'', r, evs ++ evs')
          end
      end
  end.

(** ** What a trace closes *)

(** The close calls a trace issues, in order. *)
Definition is_close (e : event) : bool :=
  match e with EvClose _ | EvClientClose _ => true | _ => false end.

Definition native_closes (evs : list event) : list event :=
  List.filter is_close evs.

(** The closes [PulsarMessageClient.close] issues on the client [c] when no
    wrapper is added meanwhile: producers, consumers, readers, then the
    native client if it was ever created. *)
Definition aggregate_closes (c : PulsarClient.PulsarMessageClient)
  : list event :=
  (EvClose <$> PulsarClient.producers c)
  ++ (EvClose <$> PulsarClient.consumers c)
  ++ (EvClose <$> PulsarClient.readers c)
  ++ match PulsarClient.client c with
     | Some n => [EvClientClose n]
     | None => []
     end.

(** The closes [PulsarMessageClient.close] has yet to issue when it is
    suspended at [pc] on the client [c]. *)
Definition remaining_closes (pc : close_pc)
    (c : PulsarClient.PulsarMessageClient) : list event :=
  let native :=
    match PulsarClient.client c with
    | Some n => [EvClientClose n]
    | None => []
    end in
  match pc with
  | AwaitProducers =>
      (EvClose <$> PulsarClient.consumers c)
      ++ (EvClose <$> PulsarClient.readers c) ++ native
  | AwaitConsumers => (EvClose <$> PulsarClient.readers c) ++ native
  | AwaitReaders => native
  | AwaitClient => []
  end.

(** ** Invariants *)

(** What the before-quit handler has cleared when it stands at [pc]. *)
Definition cleared (pc : quit_pc) (st : MainState) : Prop :=
  match pc with
  | QuitProducer _ => True
  | QuitConsumer _ => producers st = ∅
  | QuitJoining _ _ | QuitStreaming _ =>
      producers st = ∅ ∧ consumers st = ∅
  | QuitCluster _ _ =>
      producers st = ∅ ∧ consumers st = ∅ ∧ streamingConsumers st = ∅
  | QuitDone =>
      producers st = ∅ ∧ consumers st = ∅ ∧ streamingConsumers st = ∅
      ∧ connectedClusters st = ∅
  end.

(** What holds of every state of a teardown that started with the readers
    [rs] registered: the readers are still those, and the maps of the loops
    that are through have been cleared. *)
Definition quit_ok (rs : gmap string handle)
    (r : MainState * quit_pc * list event) : Prop :=
  readers r.1.1 = rs ∧ cleared r.1.2 r.1.1.

(** What holds between any two turns: a registered streaming consumer has
    an object and an id made from a counter value already used; an object
    carries its own loop; and a stop call in flight has set [stopRequested]
    on its object, waits for that object's loop, and is in the native close
    only when that loop has returned. *)
Definition sys_inv (s : Sys) : Prop :=
  (∀ (id : string) (l : loc),
     streamingConsumers (main s) !! id = Some l →
     is_Some (streamingObjects (main s) !! l)
     ∧ ∃ n, id = streaming_consumer_id n
             ∧ (n ≤ consumerIdCounter (main s))%nat)
  ∧ (∀ (l : loc) (sc : StreamingConsumer),
       streamingObjects (main s) !! l = Some sc →
       receiveLoop sc = Some l ∧ is_Some (loops s !! l))
  ∧ (∀ l : loc,
       is_Some (loops s !! l) → is_Some (streamingObjects (main s) !! l))
  ∧ (∀ (i : nat) (t : stop_task),
       tasks s !! i = Some (TStop t) →
       (∃ n, stop_id t = streaming_consumer_id n
             ∧ (n ≤ consumerIdCounter (main s))%nat)
       ∧ (∃ sc, streamingObjects (main s) !! stop_object t = Some sc
                ∧ stopRequested sc = true)
       ∧ match stop_at t with
         | StopJoining p => p = stop_object t
         | StopClosing => loops s !! stop_object t = Some LDone
         end).

(** An id that is not registered and that no later [startConsumer] can
    produce. *)
Definition retired (id : string) (st : MainState) : Prop :=
  streamingConsumers st !! id = None
  ∧ ∀ n, id = streaming_consumer_id n → (n ≤ consumerIdCounter st)%nat.

(** A turn that leaves the streaming consumers alone: their map and their
    objects are unchanged and the id counter has not gone down. *)
Definition supervisor_untouched (st st' : MainState) : Prop :=
  streamingConsumers st' = streamingConsumers st
  ∧ streamingObjects st' = streamingObjects st
  ∧ (consumerIdCounter st ≤ consumerIdCounter st')%nat.

(** The streaming consumer object at [l] exists and has [paused] set. *)
Definition paused_at (l : loc) (st : MainState) : Prop :=
  ∃ sc, streamingObjects st !! l = Some sc ∧ paused sc = true.

(** ** Statements of the specification the code does not satisfy *)

(** "A failed native close still removes the entry". *)
Definition failed_close_still_removes : Prop :=
  ∀ (k : kind) (id : string) (h : handle) (st st' : MainState) (e : string)
    (r : step close_task (IPCResponse unit)) (evs : list event),
    registry k st !! id = Some h →
    resource_close_resume
      {| close_kind := k; close_id := id; close_handle := h |}
      (CVoid (Rejected e)) st = Some (st', r, evs) →
    registry k st' !! id = None.

(** "The supervisor pushes the messages its receive calls return to the
    Sink in exactly that order": every one of them, in order. *)
Definition every_received_message_is_pushed : Prop :=
  ∀ (pc pc' : loop_pc) (inputs : list loop_input) (evs : list event),
    loop_run pc inputs = Some (pc', evs) →
    pushed evs = browsedMsg <$> received inputs.

(** "Shutdown never invokes a cluster's close while a reader handle is
    still registered". *)
Definition no_reader_registered_at_cluster_close : Prop :=
  ∀ (s : Sys) (acts : list quit_action) (tr : list (Quit * list event))
    (q : Quit) (evs : list event),
    quit_run acts (quit_begin s).1 = Some tr →
    (q, evs) ∈ ((quit_begin s) :: tr) →
    closes_cluster q = true →
    readers (quit_main q) = ∅.

(** ** A session used to exercise the statements *)

Definition example_cluster : ClusterConfig :=
  {| clusterId := "c1"; adminUrl := "http://localhost:8080/";
     serviceUrl := "pulsar://localhost:6650"; name := Some "local";
     auth := Some (AuthToken "secret"); authToken := None |}.

(** The window opens; cluster [c1] is connected; on it a producer, a
    one-shot consumer, a reader and a streaming consumer are created. *)
Definition setup : list action :=
  [AWindow true;
   AInvoke 0 (CallConnect example_cluster 1000%Z);
   AInvoke 0 (CallCreate CreateProducer "c1" "t" 9);
   AResume 0 (CCreated (Fulfilled 1));
   AInvoke 0 (CallCreate CreateConsumer "c1" "t" 9);
   AResume 0 (CCreated (Fulfilled 2));
   AInvoke 0 (CallCreate CreateReader "c1" "t" 9);
   AResume 0 (CCreated (Fulfilled 3));
   AInvoke 0 (CallCreate StartConsumer "c1" "t" 9);
   AResume 0 (CCreated (Fulfilled 4))].

(** The main process after [setup]. *)
Definition busy : Sys := default initial_sys (fst <$> run setup initial_sys).

(** The connection [setup] registers for [c1]. *)
Definition example_connection : ClusterConnection :=
  {| conn_config := example_cluster;
     admin := {| baseUrl := "http://localhost:8080";
                 admin_authToken := Some "secret";
                 oauthClient := None |};
     client := 0;
     connectedAt := 1000%Z |}.

(** One producer is registered and nothing else. *)
Definition one_producer : MainState :=
  set_producerIdCounter 1 (set_producers <["producer_1" := 7]> initial_state).

(** A message as the broker hands it over, and a streaming consumer that
    is running. *)
Definition example_message (id payload : string)
  : PulsarClient.NativeMessage :=
  {| PulsarClient.getData := payload;
     PulsarClient.getMessageId := id;
     PulsarClient.getProperties := None;
     PulsarClient.getPublishTimestamp := 1700000000000%Z;
     PulsarClient.getEventTimestamp := 0%Z;
     PulsarClient.getRedeliveryCount := 0%Z;
     PulsarClient.getPartitionKey := "";
     PulsarClient.getTopicName := "persistent://public/default/t" |}.

Definition example_consumer : StreamingConsumer :=
  {| consumerId := "streaming_consumer_3"; consumer := 4;
     paused := false; stopRequested := false; receiveLoop := Some 0 |}.

(** The teardown of [busy] up to the close of its cluster: the producer and
    the consumer close, the receive of the streaming consumer times out and
    its loop returns, the loop is joined and its consumer closes. *)
Definition quit_busy : list quit_action :=
  [QResume (CVoid (Fulfilled ()));
   QResume (CVoid (Fulfilled ()));
   QLoop 0 (CReceived (Rejected "TimeOut"));
   QResume CJoined;
   QResume (CVoid (Fulfilled ()))].

(** After [setup]: the streaming consumer is stopped, its pending receive
    times out, and the stop call is let through the join. *)
Definition stopping : list action :=
  setup
  ++ [AInvoke 5 (CallStop "streaming_consumer_3");
      ALoop 0 (CReceived (Rejected "TimeOut"));
      AResume 5 CJoined].

(** Later on another streaming consumer is started. *)
Definition start_again : list action :=
  [AInvoke 6 (CallCreate StartConsumer "c1" "t" 9);
   AResume 6 (CCreated (Fulfilled 5))].

(** After [setup] the streaming consumer is paused. *)
Definition pausing : list action :=
  setup ++ [AInvoke 5 (CallPause "streaming_consumer_3")].

(** The receive that was in flight times out; the loop then polls the
    flags three times.  Nothing the renderer can invoke in between clears
    [paused]: its Resume button only changes what the window shows. *)
Definition polling : list action :=
  [ALoop 0 (CReceived (Rejected "TimeOut"));
   ALoop 0 CTimer; ALoop 0 CTimer; ALoop 0 CTimer].

(** The main process after [pausing] and [polling]. *)
Definition still_paused : Sys :=
  default initial_sys (fst <$> run (pausing ++ polling) initial_sys).

(** * More of the main process *)

(** ** Listing the clusters *)

(** The entry [cluster:list] and [cluster:connect] report for a
    connection. *)
Definition connected_info (clusterId : string) (conn : ClusterConnection)
  : ConnectedCluster :=
  {| cc_clusterId := clusterId;
     cc_name := name (conn_config conn);
     cc_adminUrl := adminUrl (conn_config conn);
     cc_serviceUrl := serviceUrl (conn_config conn);
     cc_connected := true;
     cc_connectedAt := connectedAt conn |}.

(** [ipcMain.handle('cluster:list', ...)]: no [await]; one entry per entry
    of the map (in the order of [map_to_list]). *)
Definition cluster_list (st : MainState) : IPCResponse (list ConnectedCluster) :=
  success ((λ entry : string * ClusterConnection,
              connected_info entry.1 entry.2)
           <$> map_to_list (connectedClusters st)).

(** ** Counting what a trace logs *)

Definition is_rejected {A : Type} (r : settled A) : bool :=
  match r with Rejected _ => true | Fulfilled _ => false end.

(** The number of promises of [rs] that were rejected. *)
Definition rejections {A : Type} (rs : list (settled A)) : nat :=
  length (List.filter is_rejected rs).

(** The number of console lines a trace writes. *)
Definition console_lines (evs : list event) : nat :=
  length (List.filter is_console evs).

(** ** Counting receives, and what is acknowledged *)

(** One when the loop is suspended inside a receive. *)
Definition in_flight (pc : loop_pc) : nat :=
  match pc with LReceiving => 1 | _ => 0 end.

(** The number of receive calls a trace issues. *)
Definition receives_issued (evs : list event) : nat :=
  length (List.filter is_receive evs).

(** The number of receive calls that settle in a run. *)
Definition receives_settled (inputs : list loop_input) : nat :=
  length (List.filter
            (λ i : loop_input,
               match i.2 with CReceived _ => true | _ => false end)
            inputs).

(** The messages a trace acknowledges, in order. *)
Definition acknowledged (evs : list event)
  : list PulsarClient.PulsarMessage :=
  omap (λ e, match e with EvAcknowledge _ m => Some m | _ => None end) evs.

(** What the receive loop of the object [sc] may ask for: a 100 ms sleep, a
    receive on its consumer bounded by one second, a push on the
    [messages:received] channel under its id, an acknowledge on its
    consumer. *)
Definition loop_event_of (sc : StreamingConsumer) (e : event) : bool :=
  match e with
  | EvSetTimeout ms => Z.eqb ms 100
  | EvReceive c timeoutMs => Nat.eqb c (consumer sc) && Z.eqb timeoutMs 1000
  | EvSend channel id _ =>
      String.eqb channel "messages:received" && String.eqb id (consumerId sc)
  | EvAcknowledge c _ => Nat.eqb c (consumer sc)
  | _ => false
  end.

(** ** Ids *)

(** The id a create handler makes from the counter value [n]. *)
Definition created_id (w : create_what) (n : nat) : string :=
  match w with
  | CreateProducer => producer_id n
  | CreateConsumer => consumer_id n
  | CreateReader => reader_id n
  | StartConsumer => streaming_consumer_id n
  end.

(** The counter it takes the value from: only the producers have one of
    their own. *)
Definition counter_of (w : create_what) (st : MainState) : nat :=
  match w with
  | CreateProducer => producerIdCounter st
  | CreateConsumer | CreateReader | StartConsumer => consumerIdCounter st
  end.

(** The id is a key of the map the handler registers in. *)
Definition registered (w : create_what) (st : MainState) (id : string)
  : Prop :=
  match w with
  | CreateProducer => is_Some (producers st !! id)
  | CreateConsumer => is_Some (consumers st !! id)
  | CreateReader => is_Some (readers st !! id)
  | StartConsumer => is_Some (streamingConsumers st !! id)
  end.

(** Every registered id was made from a counter value already used. *)
Definition ids_inv (st : MainState) : Prop :=
  ∀ (w : create_what) (id : string),
    registered w st id →
    ∃ n, id = created_id w n ∧ (n ≤ counter_of w st)%nat.

(** A turn under which no map gains a key and no counter goes down. *)
Definition registries_shrink (st st' : MainState) : Prop :=
  (∀ (w : create_what) (id : string),
     registered w st' id → registered w st id)
  ∧ (∀ w : create_what, (counter_of w st ≤ counter_of w st')%nat).

(** After [setup], a second one-shot consumer is asked for: the call is in
    its native create, and then it has answered. *)
Definition creating : Sys :=
  default initial_sys
    (fst <$> run (setup ++ [AInvoke 6 (CallCreate CreateConsumer "c1" "t" 9)])
               initial_sys).

Definition created : Sys :=
  default initial_sys
    ((λ r : Sys * list event * option reply, r.1.1)
     <$> sys_step (AResume 6 (CCreated (Fulfilled 5))) creating).

(** That consumer is closed and a third one is asked for. *)
Definition close_and_create : list action :=
  [AInvoke 7 (CallClose Consumer "consumer_4");
   AResume 7 (CVoid (Fulfilled ()));
   AInvoke 8 (CallCreate CreateConsumer "c1" "t" 9)].

Definition recreating : Sys :=
  default initial_sys (fst <$> run close_and_create created).

(** ** What the teardown relies on *)

(** Every streaming consumer object carries its own receive loop, and that
    loop exists. *)
Definition objects_ok (objects : gmap loc StreamingConsumer)
    (lps : gmap loc loop_pc) : Prop :=
  ∀ (l : loc) (sc : StreamingConsumer),
    objects !! l = Some sc → receiveLoop sc = Some l ∧ is_Some (lps !! l).

(** The entries the third loop has yet to visit refer to objects. *)
Definition entries_ok (rest : list (string * loc)) (st : MainState) : Prop :=
  ∀ (id : string) (l : loc),
    (id, l) ∈ rest → is_Some (streamingObjects st !! l).

(** What holds of a teardown between two turns: while it waits for a loop
    it waits for the loop of the entry it is visiting, whose object it has
    told to stop; while it is in the close of a streaming consumer the loop
    of that consumer has returned. *)
Definition quit_inv_at (lps : gmap loc loop_pc) (st : MainState)
    (pc : quit_pc) : Prop :=
  objects_ok (streamingObjects st) lps
  ∧ match pc with
    | QuitProducer _ | QuitConsumer _ =>
        entries_ok (map_to_list (streamingConsumers st)) st
    | QuitJoining p rest =>
        entries_ok rest st
        ∧ ∃ id rest', rest = (id, p) :: rest'
                      ∧ stopRequested (streamingObjects st !!! p) = true
    | QuitStreaming rest =>
        entries_ok rest st
        ∧ ∃ id l rest', rest = (id, l) :: rest'
                        ∧ lps !! l = Some LDone
                        ∧ stopRequested (streamingObjects st !!! l) = true
    | QuitCluster _ _ | QuitDone => True
    end.

Definition quit_inv (q : Quit) : Prop :=
  quit_inv_at (quit_loops q) (quit_main q) (quit_at q).

(** The teardown of [busy] when it is in the close of the streaming
    consumer. *)
Definition closing_streaming : Quit :=
  default (quit_begin busy).1
    (tr ← quit_run quit_busy (quit_begin busy).1; fst <$> tr !! 3).

(** * Handlers that work on a resource of their own *)

(** [messages:browse], [messages:peek] and [messages:send] create a reader
    or a producer, use it and close it; [consumer:receive],
    [messages:readMessages] and [producer:send] make one call on a
    registered handle. *)

(** ** What they ask for and what they are answered *)

(** [ProducerSendOptions], and the [Pulsar.ProducerMessage] that
    [PulsarProducer.send] builds from it. *)
Record ProducerSendOptions := {
  so_data : string;
  so_properties : option (list (string * string));
  so_eventTimestamp : option Z;
  so_sequenceId : option Z;
  so_partitionKey : option string;
  so_orderingKey : option string;
  so_deliverAfter : option Z;
  so_deliverAt : option Z;
}.

Record ProducerMessage := {
  pm_data : string;
  pm_properties : option (list (string * string));
  pm_eventTimestamp : option Z;
  pm_sequenceId : option Z;
  pm_partitionKey : option string;
  pm_orderingKey : option string;
  pm_deliverAfter : option Z;
  pm_deliverAt : option Z;
}.

(** [if (options.partitionKey)]: an empty string is not copied. *)
Definition if_truthy (s : option string) : option string :=
  match s with
  | Some s' => if truthy s' then Some s' else None
  | None => None
  end.

(** [PulsarProducer.send]: the message handed to the native producer. *)
Definition producer_message (options : ProducerSendOptions)
  : ProducerMessage :=
  {| pm_data := so_data options;
     pm_properties := so_properties options;
     pm_eventTimestamp := so_eventTimestamp options;
     pm_sequenceId := so_sequenceId options;
     pm_partitionKey := if_truthy (so_partitionKey options);
     pm_orderingKey := if_truthy (so_orderingKey options);
     pm_deliverAfter := so_deliverAfter options;
     pm_deliverAt := so_deliverAt options |}.

(** What these handlers ask of the outside world. *)
Inductive io : Type :=
| IoEvent (e : event)
    (* one of the calls of the handlers above *)
| IoReadNext (reader : handle) (timeoutMs : Z)
    (* the native reader.readNext(timeoutMs) is issued *)
| IoHasNext (reader : handle)
    (* the native reader.hasNext() is called *)
| IoProducerSend (producer : handle) (message : ProducerMessage)
    (* the native producer.send(message) is issued *)
| IoReceive (consumer : handle)
    (* the native consumer.receive() is issued, with no bound *)
| IoConsoleWarn (text : string).

(** What they are answered. *)
Inductive answer : Type :=
| Answer (k : completion)
    (* a create, a close, a receive or a readNext settled *)
| AnsweredHasNext (r : settled bool)
    (* what reader.hasNext() returned, or that it threw *)
| AnsweredSent (r : settled string).
    (* the native producer.send settled; the text of the message id *)

(** A handler call resumed over a sequence of turns and nothing else in
    between.  Each turn comes with what [Date.now()] returns in it. *)
Fixpoint io_run {T R : Type}
    (resume : T → Z → answer → MainState
              → option (MainState * step T R * list io))
    (turns : list (Z * answer)) (t : T) (st : MainState)
  : option (MainState * step T R * list io) :=
  match turns with
  | [] => Some (st, Suspended t, [])
  | (now, a) :: turns' =>
      match resume t now a st with
      | None => None
      | Some (st', Returned r, evs) =>
          match turns' with
          | [] => Some (st', Returned r, evs)
          | _ :: _ => None
          end
      | Some (st', Suspended t', evs) =>
          match io_run resume turns' t' st' with
          | None => None
          | Some (st'', r, evs') => Some (st'', r, evs ++ evs')
          end
      end
  end.

(** [x || d] and [x ?? d] on an optional number. *)
Definition or_default (x : option Z) (d : Z) : Z :=
  match x with
  | Some n => if (n =? 0)%Z then d else n
  | None => d
  end.

Definition nullish_default (x : option Z) (d : Z) : Z := default d x.

(** The calls a trace makes, by kind. *)
Definition reads_of (evs : list io) : list (handle * Z) :=
  omap (λ e, match e with IoReadNext r ms => Some (r, ms) | _ => None end)
       evs.

Definition closes_of (evs : list io) : list handle :=
  omap (λ e, match e with IoEvent (EvClose h) => Some h | _ => None end) evs.

Definition sends_of (evs : list io) : list (handle * ProducerMessage) :=
  omap (λ e, match e with IoProducerSend p m => Some (p, m) | _ => None end)
       evs.

Definition warnings_of (evs : list io) : list string :=
  omap (λ e, match e with IoConsoleWarn text => Some text | _ => None end)
       evs.

(** ** [messages:browse] *)

(** [BrowseMessagesOptions]; the start position goes to the native library
    with the topic and is not read again. *)
Record BrowseMessagesOptions := {
  bo_topic : string;
  bo_maxMessages : option Z;
  bo_timeoutMs : option Z;
}.

Record BrowseMessagesResult := {
  br_messages : list BrowsedMessage;
  br_totalRead : nat;
  br_hasMore : bool;
}.

(** Where the handler can be suspended.  [BrowseHasNext] is no [await]:
    [hasNext] is synchronous and its answer comes in the same turn. *)
Inductive browse_pc : Type :=
| BrowseCreating
    (* in [await connection.client.createReader(...)] *)
| BrowseReading (reader : handle) (i : nat) (messages : list BrowsedMessage)
    (totalRead : nat)
    (* in [await reader.readNext_timeout(timeoutMs)] *)
| BrowseHasNext (reader : handle) (messages : list BrowsedMessage)
    (totalRead : nat)
    (* in [reader.hasNext()] *)
| BrowseClosing (reader : handle) (result : BrowseMessagesResult)
    (* in [await reader.close()] of the [try] block *)
| BrowseCleanup (reader : handle) (err : string).
    (* in [await reader.close().catch(() => {})] of the [catch] block *)

Record browse_task := {
  browse_at : browse_pc;
  browse_client : loc;
  browse_maxMessages : Z;
  browse_timeoutMs : Z;
}.

Definition browse_goto (pc : browse_pc) (t : browse_task) : browse_task :=
  {| browse_at := pc; browse_client := browse_client t;
     browse_maxMessages := browse_maxMessages t;
     browse_timeoutMs := browse_timeoutMs t |}.

(** The handler up to the [await] of [createReader]. *)
Definition browse_start (clusterId : string) (options : BrowseMessagesOptions)
    (fresh_client : handle) (st : MainState)
  : MainState * step browse_task (IPCResponse BrowseMessagesResult)
    * list io :=
  match connectedClusters st !! clusterId with
  | None =>
      (st, Returned (error ("Cluster " +:+ clusterId +:+ " is not connected")),
       [])
  | Some connection =>
      (set_clientObjects (alter (ensureClient fresh_client) (client connection))
         st,
       Suspended {| browse_at := BrowseCreating;
                    browse_client := client connection;
                    browse_maxMessages := or_default (bo_maxMessages options) 10;
                    browse_timeoutMs := or_default (bo_timeoutMs options) 5000 |},
       [IoEvent (EvCreate Reader (bo_topic options))])
  end.

(** The test of the [for]: another read, or on to [hasNext]. *)
Definition browse_loop (reader : handle) (i : nat)
    (messages : list BrowsedMessage) (totalRead : nat) (t : browse_task)
  : step browse_task (IPCResponse BrowseMessagesResult) * list io :=
  if (Z.of_nat i <? browse_maxMessages t)%Z then
    (Suspended (browse_goto (BrowseReading reader i messages totalRead) t),
     [IoReadNext reader (browse_timeoutMs t)])
  else
    (Suspended (browse_goto (BrowseHasNext reader messages totalRead) t),
     [IoHasNext reader]).

(** The inner [catch]: close the reader, then throw again. *)
Definition browse_catch (reader : handle) (err : string) (t : browse_task)
  : step browse_task (IPCResponse BrowseMessagesResult) * list io :=
  (Suspended (browse_goto (BrowseCleanup reader err) t),
   [IoEvent (EvClose reader)]).

Definition browse_resume (t : browse_task) (_now : Z) (a : answer)
    (st : MainState)
  : option (MainState
            * step browse_task (IPCResponse BrowseMessagesResult)
            * list io) :=
  match browse_at t, a with
  | BrowseCreating, Answer (CCreated (Rejected e)) =>
      Some (st, Returned (error ("Failed to browse messages: " +:+ e)), [])
  | BrowseCreating, Answer (CCreated (Fulfilled reader)) =>
      let st' :=
        set_clientObjects (alter (client_add Reader reader) (browse_client t))
          st in
      let '(r, evs) := browse_loop reader 0 [] 0 t in
      Some (st', r, evs)
  | BrowseReading reader i messages totalRead, Answer (CReceived r) =>
      match PulsarClient.readNext_timeout (λ _, r) (browse_timeoutMs t) with
      | Fulfilled (Some msg) =>
          let '(r', evs) :=
            browse_loop reader (S i) (messages ++ [browsedMsg msg])
              (S totalRead) t in
          Some (st, r', evs)
      | Fulfilled None =>
          Some (st,
                Suspended
                  (browse_goto (BrowseHasNext reader messages totalRead) t),
                [IoHasNext reader])
      | Rejected e =>
          let '(r', evs) := browse_catch reader e t in Some (st, r', evs)
      end
  | BrowseHasNext reader messages totalRead, AnsweredHasNext (Fulfilled b) =>
      Some (st,
            Suspended
              (browse_goto
                 (BrowseClosing reader
                    {| br_messages := messages; br_totalRead := totalRead;
                       br_hasMore := b |}) t),
            [IoEvent (EvClose reader)])
  | BrowseHasNext reader _ _, AnsweredHasNext (Rejected e) =>
      let '(r', evs) := browse_catch reader e t in Some (st, r', evs)
  | BrowseClosing _ result, Answer (CVoid (Fulfilled _)) =>
      Some (st, Returned (success result), [])
  | BrowseClosing reader _, Answer (CVoid (Rejected e)) =>
      let '(r', evs) := browse_catch reader e t in Some (st, r', evs)
  | BrowseCleanup _ err, Answer (CVoid _) =>
      Some (st, Returned (error ("Failed to browse messages: " +:+ err)), [])
  | _, _ => None
  end.

(** The messages a sequence of turns reads before the first read that
    returns nothing. *)
Fixpoint read_until_null (turns : list (Z * answer))
  : list PulsarClient.PulsarMessage :=
  match turns with
  | (_, Answer (CReceived (Fulfilled msg))) :: turns' =>
      PulsarClient.convertMessage_reader msg :: read_until_null turns'
  | _ => []
  end.

(** ** [messages:peek] *)

(** [PeekMessagesOptions]. *)
Record PeekMessagesOptions := {
  po_topic : string;
  po_maxMessages : option Z;
}.

(** An entry of [PeekMessagesResult.messages]. *)
Record PeekedMessage := {
  pk_messageId : string;
  pk_payload : string;
  pk_properties : list (string * string);
  pk_publishTimestamp : Z;
  pk_eventTimestamp : option Z;
}.

(** The entry pushed for the message [msg] when [count] messages have been
    pushed before and [Date.now()] returns [now]. *)
Definition peeked (now : Z) (count : nat) (msg : PulsarClient.PulsarMessage)
  : PeekedMessage :=
  {| pk_messageId :=
       if truthy (PulsarClient.messageId msg) then PulsarClient.messageId msg
       else "msg-" +:+ pretty count;
     pk_payload := PulsarClient.data msg;
     pk_properties := PulsarClient.properties msg;
     pk_publishTimestamp :=
       if (PulsarClient.publishTimestamp msg =? 0)%Z then now
       else PulsarClient.publishTimestamp msg;
     pk_eventTimestamp :=
       if (PulsarClient.eventTimestamp msg =? 0)%Z then None
       else Some (PulsarClient.eventTimestamp msg) |}.

Inductive peek_pc : Type :=
| PeekCreating
    (* in [await connection.client.createReader(...)] *)
| PeekReading (reader : handle) (messages : list PeekedMessage) (count : nat)
    (consecutiveNulls : nat)
    (* in [await reader.readNext_timeout(2000)] *)
| PeekClosing (reader : handle) (result : IPCResponse (list PeekedMessage)).
    (* in [await reader.close()] of the [finally] block; [result] is what
       the handler returns afterwards *)

Record peek_task := {
  peek_at : peek_pc;
  peek_client : loc;
  peek_maxMessages : Z;
}.

Definition peek_goto (pc : peek_pc) (t : peek_task) : peek_task :=
  {| peek_at := pc; peek_client := peek_client t;
     peek_maxMessages := peek_maxMessages t |}.

Definition maxConsecutiveNulls : nat := 3.

(** The handler up to the [await] of [createReader]. *)
Definition peek_start (clusterId : string) (options : PeekMessagesOptions)
    (fresh_client : handle) (st : MainState)
  : MainState * step peek_task (IPCResponse (list PeekedMessage)) * list io :=
  match connectedClusters st !! clusterId with
  | None =>
      (st, Returned (error ("Cluster " +:+ clusterId +:+ " is not connected")),
       [])
  | Some connection =>
      (set_clientObjects (alter (ensureClient fresh_client) (client connection))
         st,
       Suspended {| peek_at := PeekCreating;
                    peek_client := client connection;
                    peek_maxMessages :=
                      nullish_default (po_maxMessages options) 50 |},
       [IoEvent (EvCreate Reader (po_topic options))])
  end.

(** The test of the [while]: another read, or [return success(...)] and
    with it the [finally] block. *)
Definition peek_loop (reader : handle) (messages : list PeekedMessage)
    (count consecutiveNulls : nat) (t : peek_task)
  : step peek_task (IPCResponse (list PeekedMessage)) * list io :=
  if (Z.of_nat count <? peek_maxMessages t)%Z
     && (consecutiveNulls <? maxConsecutiveNulls)%nat
  then
    (Suspended
       (peek_goto (PeekReading reader messages count consecutiveNulls) t),
     [IoReadNext reader 2000%Z])
  else
    (Suspended (peek_goto (PeekClosing reader (success messages)) t),
     [IoEvent (EvClose reader)]).

Definition peek_resume (t : peek_task) (now : Z) (a : answer) (st : MainState)
  : option (MainState * step peek_task (IPCResponse (list PeekedMessage))
            * list io) :=
  match peek_at t, a with
  | PeekCreating, Answer (CCreated (Rejected e)) =>
      Some (st, Returned (error ("Failed to create reader: " +:+ e)),
            [IoEvent (EvConsoleError ("[peek] Reader error: " +:+ e))])
  | PeekCreating, Answer (CCreated (Fulfilled reader)) =>
      let st' :=
        set_clientObjects (alter (client_add Reader reader) (peek_client t))
          st in
      let '(r, evs) := peek_loop reader [] 0 0 t in
      Some (st', r, evs)
  | PeekReading reader messages count consecutiveNulls,
    Answer (CReceived r) =>
      match PulsarClient.readNext_timeout (λ _, r) 2000%Z with
      | Fulfilled (Some msg) =>
          let '(r', evs) :=
            peek_loop reader (messages ++ [peeked now count msg]) (S count) 0
              t in
          Some (st, r', evs)
      | Fulfilled None =>
          let '(r', evs) :=
            peek_loop reader messages count (S consecutiveNulls) t in
          Some (st, r', evs)
      | Rejected e =>
          let '(r', evs) :=
            peek_loop reader messages count (S consecutiveNulls) t in
          Some (st, r',
                IoConsoleWarn ("[peek] Error reading message: " +:+ e) :: evs)
      end
  | PeekClosing _ result, Answer (CVoid (Fulfilled _)) =>
      Some (st, Returned result, [])
  | PeekClosing _ result, Answer (CVoid (Rejected e)) =>
      Some (st, Returned result,
            [IoConsoleWarn ("[peek] Error closing reader: " +:+ e)])
  | _, _ => None
  end.

(** ** [messages:send] *)

Inductive send_pc : Type :=
| SendCreating
    (* in [await connection.client.createProducer(...)] *)
| SendSending (producer : handle)
    (* in [await producer.send(...)] *)
| SendClosing (producer : handle) (messageId : string)
    (* in [await producer.close()] of the [try] block *)
| SendCleanup (producer : handle) (err : string).
    (* in [await producer.close().catch(() => {})] of the [catch] block *)

Record send_task := {
  send_at : send_pc;
  send_client : loc;
  send_options : ProducerSendOptions;
}.

Definition send_goto (pc : send_pc) (t : send_task) : send_task :=
  {| send_at := pc; send_client := send_client t;
     send_options := send_options t |}.

(** The handler up to the [await] of [createProducer]. *)
Definition send_start (clusterId topic payload : string) (key : option string)
    (properties : option (list (string * string))) (fresh_client : handle)
    (st : MainState)
  : MainState * step send_task (IPCResponse string) * list io :=
  match connectedClusters st !! clusterId with
  | None =>
      (st, Returned (error ("Cluster " +:+ clusterId +:+ " is not connected")),
       [])
  | Some connection =>
      (set_clientObjects (alter (ensureClient fresh_client) (client connection))
         st,
       Suspended {| send_at := SendCreating;
                    send_client := client connection;
                    send_options :=
                      {| so_data := payload; so_properties := properties;
                         so_eventTimestamp := None; so_sequenceId := None;
                         so_partitionKey := key; so_orderingKey := None;
                         so_deliverAfter := None; so_deliverAt := None |} |},
       [IoEvent (EvCreate Producer topic)])
  end.

Definition send_resume (t : send_task) (_now : Z) (a : answer)
    (st : MainState)
  : option (MainState * step send_task (IPCResponse string) * list io) :=
  match send_at t, a with
  | SendCreating, Answer (CCreated (Rejected e)) =>
      Some (st, Returned (error ("Failed to send message: " +:+ e)), [])
  | SendCreating, Answer (CCreated (Fulfilled producer)) =>
      Some (set_clientObjects
              (alter (client_add Producer producer) (send_client t)) st,
            Suspended (send_goto (SendSending producer) t),
            [IoProducerSend producer (producer_message (send_options t))])
  | SendSending producer, AnsweredSent (Fulfilled messageId) =>
      Some (st, Suspended (send_goto (SendClosing producer messageId) t),
            [IoEvent (EvClose producer)])
  | SendSending producer, AnsweredSent (Rejected e) =>
      Some (st, Suspended (send_goto (SendCleanup producer e) t),
            [IoEvent (EvClose producer)])
  | SendClosing _ messageId, Answer (CVoid (Fulfilled _)) =>
      Some (st, Returned (success messageId), [])
  | SendClosing producer _, Answer (CVoid (Rejected e)) =>
      Some (st, Suspended (send_goto (SendCleanup producer e) t),
            [IoEvent (EvClose producer)])
  | SendCleanup _ err, Answer (CVoid _) =>
      Some (st, Returned (error ("Failed to send message: " +:+ err)), [])
  | _, _ => None
  end.

(** ** [consumer:receive] *)

(** A [consumer:receive] call waiting for its message: with the bound it
    passed on, or with none. *)
Inductive receive_task : Type :=
| ReceiveBounded (timeoutMs : Z)
| ReceiveUnbounded.

(** [timeoutMs ? ... : ...] on an optional number. *)
Definition truthy_number (x : option Z) : bool :=
  match x with
  | Some n => negb (n =? 0)%Z
  | None => false
  end.

(** The handler up to its [await]. *)
Definition consumer_receive_start (consumerId : string) (timeoutMs : option Z)
    (st : MainState)
  : MainState * step receive_task (IPCResponse BrowsedMessage) * list io :=
  match consumers st !! consumerId with
  | None =>
      (st, Returned (error ("Consumer " +:+ consumerId +:+ " not found")), [])
  | Some h =>
      if truthy_number timeoutMs then
        (st, Suspended (ReceiveBounded (default 0%Z timeoutMs)),
         [IoEvent (EvReceive h (default 0%Z timeoutMs))])
      else (st, Suspended ReceiveUnbounded, [IoReceive h])
  end.

Definition consumer_receive_resume (t : receive_task) (_now : Z) (a : answer)
    (st : MainState)
  : option (MainState * step receive_task (IPCResponse BrowsedMessage)
            * list io) :=
  match t, a with
  | ReceiveBounded timeoutMs, Answer (CReceived r) =>
      match PulsarClient.receive_timeout (λ _, r) timeoutMs with
      | Fulfilled (Some msg) => Some (st, Returned (success (browsedMsg msg)), [])
      | Fulfilled None =>
          Some (st, Returned (error "No message received within timeout"), [])
      | Rejected e =>
          Some (st, Returned (error ("Failed to receive message: " +:+ e)), [])
      end
  | ReceiveUnbounded, Answer (CReceived (Fulfilled msg)) =>
      Some (st,
            Returned (success (browsedMsg (PulsarClient.convertMessage msg))),
            [])
  | ReceiveUnbounded, Answer (CReceived (Rejected e)) =>
      Some (st, Returned (error ("Failed to receive message: " +:+ e)), [])
  | _, _ => None
  end.

(** ** A session for these handlers *)

(** Ten messages at most, five seconds each: the defaults. *)
Definition browse_options : BrowseMessagesOptions :=
  {| bo_topic := "t"; bo_maxMessages := Some 0%Z; bo_timeoutMs := None |}.

Definition browse_task_example : browse_task :=
  {| browse_at := BrowseCreating; browse_client := 0;
     browse_maxMessages := 10; browse_timeoutMs := 5000 |}.

(** The reader is created, two messages are read, the third read times
    out, the topic has more, the reader closes. *)
Definition browse_turns : list (Z * answer) :=
  [(2000%Z, Answer (CCreated (Fulfilled 11)));
   (2001%Z, Answer (CReceived (Fulfilled (example_message "1:0" "a"))));
   (2002%Z, Answer (CReceived (Fulfilled (example_message "1:1" "b"))));
   (7002%Z, Answer (CReceived (Rejected "TimeOut")));
   (7002%Z, AnsweredHasNext (Fulfilled true));
   (7003%Z, Answer (CVoid (Fulfilled ())))].

Definition browse_answer : BrowseMessagesResult :=
  {| br_messages :=
       [browsedMsg (PulsarClient.convertMessage_reader
                      (example_message "1:0" "a"));
        browsedMsg (PulsarClient.convertMessage_reader
                      (example_message "1:1" "b"))];
     br_totalRead := 2; br_hasMore := true |}.

(** Fifty messages at most: the default of [messages:peek]. *)
Definition peek_options : PeekMessagesOptions :=
  {| po_topic := "t"; po_maxMessages := None |}.

Definition peek_task_example : peek_task :=
  {| peek_at := PeekCreating; peek_client := 0; peek_maxMessages := 50 |}.

(** The reader is created, a message is read, three reads in a row time
    out, and the close of the reader fails. *)
Definition peek_turns : list (Z * answer) :=
  [(2000%Z, Answer (CCreated (Fulfilled 11)));
   (2001%Z, Answer (CReceived (Fulfilled (example_message "1:0" "a"))));
   (4001%Z, Answer (CReceived (Rejected "TimeOut")));
   (6001%Z, Answer (CReceived (Rejected "TimeOut")));
   (8001%Z, Answer (CReceived (Rejected "TimeOut")));
   (8002%Z, Answer (CVoid (Rejected "AlreadyClosed")))].

(** One for a call that is still suspended, none for one that has
    answered. *)
Definition pending {T R : Type} (r : step T R) : nat :=
  match r with Suspended _ => 1 | Returned _ => 0 end.

Definition send_task_example : send_task :=
  {| send_at := SendCreating; send_client := 0;
     send_options :=
       {| so_data := "hello"; so_properties := None;
          so_eventTimestamp := None; so_sequenceId := None;
          so_partitionKey := Some ""; so_orderingKey := None;
          so_deliverAfter := None; so_deliverAt := None |} |}.

(** The producer is created and the message is sent; then the close of
    the producer fails, twice. *)
Definition send_turns : list (Z * answer) :=
  [(2000%Z, Answer (CCreated (Fulfilled 12)));
   (2001%Z, AnsweredSent (Fulfilled "(7,0,-1,0)"));
   (2002%Z, Answer (CVoid (Rejected "AlreadyClosed")));
   (2003%Z, Answer (CVoid (Rejected "AlreadyClosed")))].

(** * services/connectionProfileStorage.ts *)

(** The profiles file is read and written in one piece.  A file that was
    written is read back as the data that was written: [JSON.parse] undoes
    [JSON.stringify] on profiles, which hold strings and numbers only. *)

Module ProfileStorage.

(** [SavedProfile] of the shared types. *)
Record SavedProfile := {
  profileId : string;
  clusterId : string;
  name : string;
  adminUrl : string;
  serviceUrl : string;
  auth : option AuthConfig;
  savedAt : Z;
}.

(** [Omit<SavedProfile, 'profileId' | 'savedAt'>]. *)
Record ProfileDetails := {
  d_clusterId : string;
  d_name : string;
  d_adminUrl : string;
  d_serviceUrl : string;
  d_auth : option AuthConfig;
}.

(** [ProfilesData]; a file that parses may lack the [profiles] field. *)
Record ProfilesData := {
  profiles : option (list SavedProfile);
  lastUsedProfileId : option string;
}.

(** The profiles file: not there, there but not readable as
    [ProfilesData] ([readFileSync] or [JSON.parse] throws), or holding
    data. *)
Inductive File : Type :=
| Missing
| Unreadable
| Stored (data : ProfilesData).

(** [loadProfiles]; the second component is what is written to the
    console. *)
Definition loadProfiles (file : File) : list SavedProfile * list string :=
  match file with
  | Missing => ([], [])
  | Unreadable => ([], ["Error loading profiles:"])
  | Stored data => (default [] (profiles data), [])
  end.

(** [readProfilesData]. *)
Definition readProfilesData (file : File) : ProfilesData :=
  match file with
  | Stored data => data
  | Missing | Unreadable =>
      {| profiles := Some []; lastUsedProfileId := None |}
  end.

(** [writeProfiles]; [write_ok] tells whether [fs.writeFileSync]
    returns. *)
Definition writeProfiles (ps : list SavedProfile) (write_ok : bool)
    (file : File) : File * list string :=
  let data := readProfilesData file in
  if write_ok then
    (Stored {| profiles := Some ps;
               lastUsedProfileId := lastUsedProfileId data |}, [])
  else (file, ["Error writing profiles:"]).

(** The test of [saveProfile] for a profile with the same connection
    details. *)
Definition same_details (profile : ProfileDetails) (p : SavedProfile) : bool :=
  String.eqb (adminUrl p) (d_adminUrl profile)
  && String.eqb (serviceUrl p) (d_serviceUrl profile)
  && String.eqb (name p) (d_name profile).

(** [a || b] on optional strings. *)
Definition or_else (a : option string) (b : option string) : option string :=
  match a with
  | Some s => if truthy s then Some s else b
  | None => b
  end.

(** [profileId || existingProfile?.profileId || `profile_${Date.now()}`];
    [now] is what [Date.now()] returns. *)
Definition choose_id (profileId : option string)
    (existingProfile : option SavedProfile) (now : Z) : string :=
  default ("profile_" +:+ pretty now)
    (or_else profileId
       (or_else (ProfileStorage.profileId <$> existingProfile) None)).

Definition with_id (profile : ProfileDetails) (id : string) (now : Z)
  : SavedProfile :=
  {| profileId := id;
     clusterId := d_clusterId profile;
     name := d_name profile;
     adminUrl := d_adminUrl profile;
     serviceUrl := d_serviceUrl profile;
     auth := d_auth profile;
     savedAt := now |}.

(** [p.profileId === id] and [p.profileId !== id]. *)
Definition has_id (id : string) (p : SavedProfile) : bool :=
  String.eqb (ProfileStorage.profileId p) id.

Definition other_id (id : string) (p : SavedProfile) : bool :=
  negb (has_id id p).

(** [saveProfile]; [idNow] and [savedNow] are what the two calls of
    [Date.now()] return. *)
Definition saveProfile (profile : ProfileDetails) (profileId : option string)
    (idNow savedNow : Z) (write_ok : bool) (file : File)
  : SavedProfile * File * list string :=
  let '(profiles, log1) := loadProfiles file in
  let existingProfile := List.find (same_details profile) profiles in
  let id := choose_id profileId existingProfile idNow in
  let filtered := List.filter (other_id id) profiles in
  let savedProfile := with_id profile id savedNow in
  let '(file', log2) :=
    writeProfiles (filtered ++ [savedProfile]) write_ok file in
  (savedProfile, file', log1 ++ log2).

(** [deleteProfile]. *)
Definition deleteProfile (profileId : string) (write_ok : bool) (file : File)
  : bool * File * list string :=
  let '(profiles, log1) := loadProfiles file in
  let filtered := List.filter (other_id profileId) profiles in
  if (length filtered =? length profiles)%nat then (false, file, log1)
  else
    let '(file', log2) := writeProfiles filtered write_ok file in
    (true, file', log1 ++ log2).

(** [getProfile]. *)
Definition getProfile (profileId : string) (file : File)
  : option SavedProfile :=
  List.find (has_id profileId) (loadProfiles file).1.

(** [setLastUsedProfile]. *)
Definition setLastUsedProfile (profileId : string) (write_ok : bool)
    (file : File) : File * list string :=
  let data := readProfilesData file in
  if write_ok then
    (Stored {| profiles := profiles data;
               lastUsedProfileId := Some profileId |}, [])
  else (file, ["Error saving last used profile:"]).

(** [getLastUsedProfileId] and [getLastUsedProfile]. *)
Definition getLastUsedProfileId (file : File) : option string :=
  lastUsedProfileId (readProfilesData file).

Definition getLastUsedProfile (file : File) : option SavedProfile :=
  match getLastUsedProfileId file with
  | Some lastId => if truthy lastId then getProfile lastId file else None
  | None => None
  end.

End ProfileStorage.

(** [profiles:saveProfile] and [profiles:deleteProfile] of the main
    process: the storage catches what goes wrong, so the [catch] of the
    handlers is not entered. *)
Definition profiles_saveProfile (profile : ProfileStorage.ProfileDetails)
    (idNow savedNow : Z) (write_ok : bool) (file : ProfileStorage.File)
  : IPCResponse ProfileStorage.SavedProfile * ProfileStorage.File :=
  let '(saved, file', _) :=
    ProfileStorage.saveProfile profile None idNow savedNow write_ok file in
  (success saved, file').

Definition profiles_deleteProfile (profileId : string) (write_ok : bool)
    (file : ProfileStorage.File) : IPCResponse unit * ProfileStorage.File :=
  let '(_, file', _) :=
    ProfileStorage.deleteProfile profileId write_ok file in
  (success (), file').

(** What the handlers keep true of the stored profiles: every id is a
    non-empty string, no two profiles share an id, and no two share their
    connection details. *)
Definition details_of (p : ProfileStorage.SavedProfile)
  : string * string * string :=
  (ProfileStorage.adminUrl p, ProfileStorage.serviceUrl p,
   ProfileStorage.name p).

Definition profiles_ok (ps : list ProfileStorage.SavedProfile) : Prop :=
  Forall (λ p, truthy (ProfileStorage.profileId p) = true) ps
  ∧ NoDup (ProfileStorage.profileId <$> ps)
  ∧ NoDup (details_of <$> ps).

(** Two connections to save. *)
Definition local_details : ProfileStorage.ProfileDetails :=
  {| ProfileStorage.d_clusterId := "c1";
     ProfileStorage.d_name := "local";
     ProfileStorage.d_adminUrl := "http://localhost:8080";
     ProfileStorage.d_serviceUrl := "pulsar://localhost:6650";
     ProfileStorage.d_auth := None |}.

Definition staging_details : ProfileStorage.ProfileDetails :=
  {| ProfileStorage.d_clusterId := "c2";
     ProfileStorage.d_name := "staging";
     ProfileStorage.d_adminUrl := "https://staging:8443";
     ProfileStorage.d_serviceUrl := "pulsar+ssl://staging:6651";
     ProfileStorage.d_auth := Some (AuthToken "secret") |}.

(** * services/oauthClient.ts *)

(** The client_credentials flow of [OAuthClient]: the token cache and the
    search for a token endpoint.  The body of the request and what is
    written to the console are left out. *)

Module OAuthClient.

(** [OAuthTokenResponse]. *)
Record OAuthTokenResponse := {
  access_token : string;
  token_type : string;
  expires_in : Z;
  scope : option string;
}.

(** The field [tokenCache] when it is not [null]. *)
Record TokenCache := {
  token : string;
  expiresAt : Z;
}.

(** What one [fetch] of a token endpoint leads to. *)
Inductive Fetched : Type :=
| FetchRejected (e : string)
    (* [fetch] rejects *)
| HttpStatus (status : Z) (statusText errorText : string)
    (* [response.ok] is false; [errorText] is the body, or 'Unknown error' *)
| JsonRejected (e : string)
    (* [response.json()] rejects *)
| Granted (data : OAuthTokenResponse).

(** [/\/token(\?|$)/.test(s)]: somewhere in [s] stands "/token", followed
    by "?" or by the end of [s]. *)
Fixpoint token_endpoint (s : string) : bool :=
  match s with
  | EmptyString => false
  | String _ s' =>
      String.eqb s "/token" || String.prefix "/token?" s || token_endpoint s'
  end.

(** The endpoints to try, in order, before duplicates are removed. *)
Definition tokenEndpoints (config : OAuthConfig) : list string :=
  let issuerUrl := remove_trailing_slash (issuerUrl config) in
  (if token_endpoint issuerUrl then [issuerUrl] else [])
  ++ [issuerUrl +:+ "/oauth/token";
      issuerUrl +:+ "/cached/oauth/token";
      issuerUrl +:+ "/protocol/openid-connect/token"].

(** [Array.from(new Set(l))]: the first occurrence of every element, in
    order. *)
Definition unique (l : list string) : list string :=
  fold_left (λ seen s, if bool_decide (s ∈ seen) then seen else seen ++ [s])
    l [].

Definition uniqueTokenEndpoints (config : OAuthConfig) : list string :=
  unique (tokenEndpoints config).

(** The line kept for an endpoint that did not grant a token.  A status
    other than 404 is thrown and caught again, which puts the url in
    front a second time. *)
Definition attempt_error (tokenUrl : string) (r : Fetched) : string :=
  match r with
  | FetchRejected e | JsonRejected e => tokenUrl +:+ " -> " +:+ e
  | HttpStatus status statusText errorText =>
      let detailedMessage :=
        tokenUrl +:+ " -> HTTP " +:+ pretty status +:+ " " +:+ statusText
        +:+ " - " +:+ errorText in
      if (status =? 404)%Z then detailedMessage
      else tokenUrl +:+ " -> " +:+ detailedMessage
  | Granted _ => ""
  end.

(** The [for] loop of [requestToken] over the endpoints left to try:
    [respond] tells what the fetch of an endpoint leads to.  The result is
    the response that was granted or the errors of all attempts, and the
    endpoints that were fetched. *)
Fixpoint try_endpoints (respond : string → Fetched) (urls : list string)
    (attemptErrors : list string)
  : (OAuthTokenResponse + list string) * list string :=
  match urls with
  | [] => (inr attemptErrors, [])
  | tokenUrl :: urls' =>
      match respond tokenUrl with
      | Granted data => (inl data, [tokenUrl])
      | r =>
          let '(result, fetched) :=
            try_endpoints respond urls'
              (attemptErrors ++ [attempt_error tokenUrl r]) in
          (result, tokenUrl :: fetched)
      end
  end.

(** [requestToken]; [now] is what [Date.now()] returns when the token is
    cached.  The result is how the promise settles, the cache, and the
    endpoints that were fetched. *)
Definition requestToken (config : OAuthConfig) (respond : string → Fetched)
    (now : Z) (tokenCache : option TokenCache)
  : settled string * option TokenCache * list string :=
  match try_endpoints respond (uniqueTokenEndpoints config) [] with
  | (inl data, fetched) =>
      (Fulfilled (access_token data),
       Some {| token := access_token data;
               expiresAt := now + expires_in data * 1000 - 60000 |},
       fetched)
  | (inr attemptErrors, fetched) =>
      (Rejected ("Failed to acquire OAuth token: "
                 +:+ String.concat "; " attemptErrors),
       tokenCache, fetched)
  end.

(** [getAccessToken]; [now] is what [Date.now()] returns at the call, and
    [cachedAt] what it returns when a new token is cached. *)
Definition getAccessToken (config : OAuthConfig) (respond : string → Fetched)
    (now cachedAt : Z) (tokenCache : option TokenCache)
  : settled string * option TokenCache * list string :=
  match tokenCache with
  | Some cache =>
      if (now + 60000 <? expiresAt cache)%Z
      then (Fulfilled (token cache), tokenCache, [])
      else requestToken config respond cachedAt tokenCache
  | None => requestToken config respond cachedAt tokenCache
  end.

(** [clearCache]. *)
Definition clearCache (_ : option TokenCache) : option TokenCache := None.

End OAuthClient.

(** A provider that knows one endpoint, and the configuration that leads
    to it. *)
Definition example_oauth : OAuthConfig :=
  {| clientId := "lightcurve"; clientSecret := "s3cret";
     issuerUrl := "https://auth.example.com/";
     audience := "urn:pulsar"; scopes := None |}.

Definition example_provider (tokenUrl : string) : OAuthClient.Fetched :=
  if String.eqb tokenUrl "https://auth.example.com/cached/oauth/token" then
    OAuthClient.Granted
      {| OAuthClient.access_token := "t0k3n";
         OAuthClient.token_type := "Bearer";
         OAuthClient.expires_in := 300;
         OAuthClient.scope := None |}
  else OAuthClient.HttpStatus 404 "Not Found" "no such path".

(** A configuration whose issuer url is the token endpoint itself. *)
Definition direct_oauth : OAuthConfig :=
  {| clientId := "lightcurve"; clientSecret := "s3cret";
     issuerUrl := "https://auth.example.com/oauth/token";
     audience := "urn:pulsar"; scopes := Some ["admin"] |}.

(** * Properties *)

(** ** Receive with a timeout *)

Lemma loop_top_not_backoff (sc : StreamingConsumer) :
  (loop_top sc).1 ≠ LBackoff.
Proof. unfold loop_top. by repeat case_match. Qed.

Lemma loop_top_no_console (sc : StreamingConsumer) :
  forallb (λ e, negb (is_console e)) (loop_top sc).2 = true.
Proof. unfold loop_top. by repeat case_match. Qed.

(** C9.  [PulsarConsumer.receive_timeout] and [PulsarReader.readNext_timeout]
    answer null whenever the native call is rejected, whatever the timeout
    and whatever the error.  In the streaming loop a rejected receive then
    takes the same path whatever the error was: straight back to the test of
    the [while], with no console output and no back-off sleep; when the
    consumer is neither stopped nor paused the next receive is issued at
    once. *)
Theorem receive_timeout_null_on_any_error
    (native : Z → settled PulsarClient.NativeMessage) (timeoutMs : Z)
    (e : string) :
  native timeoutMs = Rejected e →
  PulsarClient.receive_timeout native timeoutMs = Fulfilled None
  ∧ PulsarClient.readNext_timeout native timeoutMs = Fulfilled None
  ∧ ∀ (w : bool) (sc : StreamingConsumer),
      loop_resume w sc LReceiving (CReceived (native timeoutMs))
      = Some (loop_top sc)
      ∧ (loop_top sc).1 ≠ LBackoff
      ∧ forallb (λ ev, negb (is_console ev)) (loop_top sc).2 = true
      ∧ (stopRequested sc = false → paused sc = false →
         loop_top sc = (LReceiving, [EvReceive (consumer sc) 1000%Z])).
Proof.
  intros Hnative.
  unfold PulsarClient.receive_timeout, PulsarClient.readNext_timeout.
  rewrite Hnative. split; [done|]. split; [done|].
  intros w sc. split; [done|].
  split; [apply loop_top_not_backoff|].
  split; [apply loop_top_no_console|].
  intros Hstop Hpaused. unfold loop_top. by rewrite Hstop, Hpaused.
Qed.

Lemma receive_timeout_null_on_any_error_witness :
  let native : Z → settled PulsarClient.NativeMessage :=
    λ _, Rejected "ConnectError" in
  let sc := {| consumerId := "streaming_consumer_1"; consumer := 4;
               paused := false; stopRequested := false;
               receiveLoop := Some 0 |} in
  native 1000%Z = Rejected "ConnectError"
  ∧ PulsarClient.receive_timeout native 1000%Z = Fulfilled None
  ∧ loop_resume true sc LReceiving (CReceived (native 1000%Z))
    = Some (LReceiving, [EvReceive 4 1000%Z]).
Proof.
  intros native sc.
  destruct (receive_timeout_null_on_any_error native 1000%Z "ConnectError")
    as (Hnull & _ & Hloop); [reflexivity|].
  split; [reflexivity|]. split; [exact Hnull|].
  destruct (Hloop true sc) as (Hresume & _ & _ & Htop).
  rewrite Hresume, Htop by reflexivity. reflexivity.
Defined.

(** ** Acknowledge of a one-shot consumer *)

(** C10.  [consumer:acknowledge] on a registered consumer answers with
    success, issues no call at all (so none to the native consumer) and
    leaves the state as it is; the only failure is the not-found answer for
    an id that is not registered. *)
Theorem consumer_acknowledge_is_a_noop
    (consumerId messageId : string) (st : MainState) :
  (consumer_acknowledge consumerId messageId st).1.1 = st
  ∧ (consumer_acknowledge consumerId messageId st).2 = []
  ∧ (is_Some (consumers st !! consumerId) →
     (consumer_acknowledge consumerId messageId st).1.2 = success ())
  ∧ (consumers st !! consumerId = None →
     (consumer_acknowledge consumerId messageId st).1.2
     = error ("Consumer " +:+ consumerId +:+ " not found"))
  ∧ (resp_success (consumer_acknowledge consumerId messageId st).1.2 = false
     ↔ consumers st !! consumerId = None).
Proof.
  unfold consumer_acknowledge.
  destruct (consumers st !! consumerId) as [h|] eqn:Hlookup; simpl.
  - repeat split; done.
  - repeat split; done.
Qed.

Lemma consumer_acknowledge_is_a_noop_witness :
  let st := set_consumers <["consumer_1" := 3]> initial_state in
  is_Some (consumers st !! "consumer_1")
  ∧ consumer_acknowledge "consumer_1" "(0,1,-1,0)" st = (st, success (), []).
Proof.
  intros st.
  destruct (consumer_acknowledge_is_a_noop "consumer_1" "(0,1,-1,0)" st)
    as (Hst & Hevs & Hok & _).
  assert (Hreg : is_Some (consumers st !! "consumer_1")).
  { exists 3. reflexivity. }
  split; [exact Hreg|].
  specialize (Hok Hreg).
  destruct (consumer_acknowledge "consumer_1" "(0,1,-1,0)" st) as [[st' r] evs].
  simpl in *. by subst.
Defined.

(** ** Connecting a cluster twice *)

(** C5.  [cluster:connect] with an id that is already in the registry
    answers with the already-connected error and changes nothing: the state
    is the one before the call, so the registry still maps the id to the
    original connection with its [connectedAt], and no client object was
    added. *)
Theorem connect_twice_fails_without_change
    (config : ClusterConfig) (now : Z) (st : MainState)
    (connection : ClusterConnection) :
  connectedClusters st !! clusterId config = Some connection →
  cluster_connect config now st
  = (st, error ("Cluster " +:+ clusterId config +:+ " is already connected"))
  ∧ connectedClusters (cluster_connect config now st).1 !! clusterId config
    = Some connection
  ∧ clientObjects (cluster_connect config now st).1 = clientObjects st.
Proof.
  intros Hpresent. unfold cluster_connect. rewrite Hpresent. done.
Qed.

Lemma connect_twice_fails_without_change_witness :
  let config := {| clusterId := "c1"; adminUrl := "http://localhost:8080/";
                   serviceUrl := "pulsar://localhost:6650"; name := None;
                   auth := None; authToken := None |} in
  let st := (cluster_connect config 1000%Z initial_state).1 in
  ∃ connection,
    connectedClusters st !! "c1" = Some connection
    ∧ connectedAt connection = 1000%Z
    ∧ cluster_connect config 2000%Z st
      = (st, error "Cluster c1 is already connected").
Proof.
  intros config st.
  assert (Hfirst : ∃ connection,
             connectedClusters st !! clusterId config = Some connection
             ∧ connectedAt connection = 1000%Z).
  { eexists. split; reflexivity. }
  destruct Hfirst as (connection & Hpresent & Hat).
  exists connection. split; [exact Hpresent|]. split; [exact Hat|].
  apply (connect_twice_fails_without_change config 2000%Z st connection Hpresent).
Defined.

(** ** Closing a producer, a consumer or a reader *)

Lemma registry_set_registry (k : kind)
    (f : gmap string handle → gmap string handle) (st : MainState) :
  registry k (set_registry k f st) = f (registry k st).
Proof. by destruct k. Qed.

(** C6, counterexample.  With one producer registered, a native close that
    is rejected leaves [producer_1] in the registry: the handler goes to its
    [catch] before it reaches [producers.delete]. *)
Lemma failed_close_still_removes_counterexample :
  ¬ failed_close_still_removes.
Proof.
  intros Hclaim.
  specialize (Hclaim Producer "producer_1" 7 one_producer one_producer
                "AlreadyClosed"
                (Returned (error "Failed to close producer: AlreadyClosed")) []).
  discriminate Hclaim; reflexivity.
Qed.

(** C6, amended.  For each of the three registries and every registered
    id, [close] issues the native close and leaves the registry as it is
    while that close is pending; when the close resolves the entry is
    deleted and the answer is success; when the close is rejected the state
    is unchanged, so the entry stays registered, and the rejection is
    answered as an error envelope. *)
Theorem close_removes_entry_once_native_close_resolves
    (k : kind) (id : string) (h : handle) (st : MainState) :
  registry k st !! id = Some h →
  let t := {| close_kind := k; close_id := id; close_handle := h |} in
  resource_close_start k id st = (st, Suspended t, [EvClose h])
  ∧ (∀ st1 : MainState,
       ∃ evs,
         resource_close_resume t (CVoid (Fulfilled ())) st1
         = Some (set_registry k (delete id) st1, Returned (success ()), evs)
         ∧ registry k (set_registry k (delete id) st1) !! id = None
         ∧ forallb (λ e, negb (is_native_call e)) evs = true)
  ∧ (∀ (st1 : MainState) (e : string),
       resource_close_resume t (CVoid (Rejected e)) st1
       = Some (st1,
               Returned (error ("Failed to close " +:+ kind_word k +:+ ": "
                                +:+ e)),
               [])).
Proof.
  intros Hpresent t. split; [|split].
  - unfold resource_close_start. by rewrite Hpresent.
  - intros st1. eexists. split; [reflexivity|]. split.
    + rewrite registry_set_registry. apply lookup_delete_eq.
    + by destruct k.
  - done.
Qed.

Lemma close_removes_entry_once_native_close_resolves_witness :
  let t := {| close_kind := Producer; close_id := "producer_1";
              close_handle := 7 |} in
  registry Producer one_producer !! "producer_1" = Some 7
  ∧ resource_close_start Producer "producer_1" one_producer
    = (one_producer, Suspended t, [EvClose 7])
  ∧ resource_close_resume t (CVoid (Rejected "AlreadyClosed")) one_producer
    = Some (one_producer,
            Returned (error "Failed to close producer: AlreadyClosed"), []).
Proof.
  intros t.
  assert (Hpresent : registry Producer one_producer !! "producer_1"
                     = Some 7) by reflexivity.
  destruct (close_removes_entry_once_native_close_resolves
              Producer "producer_1" 7 one_producer Hpresent)
    as (Hstart & _ & Hfail).
  split; [exact Hpresent|]. split; [exact Hstart|].
  apply (Hfail one_producer "AlreadyClosed").
Defined.

(** ** Disconnecting a cluster *)

Lemma native_closes_app (evs1 evs2 : list event) :
  native_closes (evs1 ++ evs2) = native_closes evs1 ++ native_closes evs2.
Proof. apply List.filter_app. Qed.

Lemma native_closes_close_errors (what : string) (rs : list (settled unit)) :
  native_closes (close_errors what rs) = [].
Proof.
  induction rs as [|[u|e] rs IH]; [done|exact IH|exact IH].
Qed.

Lemma native_closes_fmap_close (hs : list handle) :
  native_closes (EvClose <$> hs) = EvClose <$> hs.
Proof.
  induction hs as [|h hs IH]; [done|].
  change (EvClose h :: native_closes (EvClose <$> hs) = EvClose h :: (EvClose <$> hs)).
  by rewrite IH.
Qed.

(** A turn of [client.close()] never touches the registry of clusters. *)
Lemma cluster_disconnect_resume_registry
    (t : disconnect_task) (k : completion) (st st' : MainState)
    (r : step disconnect_task (IPCResponse unit)) (evs : list event) :
  cluster_disconnect_resume t k st = Some (st', r, evs) →
  match r with
  | Suspended t' =>
      connectedClusters st' = connectedClusters st
      ∧ disconnect_id t' = disconnect_id t
      ∧ disconnect_client t' = disconnect_client t
  | Returned resp =>
      (resp = success ()
       ∧ connectedClusters st' = delete (disconnect_id t) (connectedClusters st))
      ∨ (∃ e, resp = error ("Failed to disconnect cluster: " +:+ e)
              ∧ connectedClusters st' = connectedClusters st)
  end.
Proof.
  unfold cluster_disconnect_resume. intros Hresume.
  destruct (client_close_resume _ _ _) as [[[c [pc|[u|e]]] evs']|];
    simplify_eq; simpl; eauto.
Qed.

Lemma disconnect_run_registry (ks : list completion) :
  ∀ (t : disconnect_task) (st st' : MainState) (sts : list MainState)
    (r : step disconnect_task (IPCResponse unit)) (evs : list event),
    handler_run cluster_disconnect_resume ks t st = Some (sts, st', r, evs) →
    Forall (λ s, connectedClusters s = connectedClusters st) sts
    ∧ match r with
      | Suspended _ => connectedClusters st' = connectedClusters st
      | Returned resp =>
          (resp = success ()
           ∧ connectedClusters st'
             = delete (disconnect_id t) (connectedClusters st))
          ∨ (∃ e, resp = error ("Failed to disconnect cluster: " +:+ e)
                  ∧ connectedClusters st' = connectedClusters st)
      end.
Proof.
  induction ks as [|k ks IH]; intros t st st' sts r evs Hrun; simpl in Hrun.
  - by simplify_eq.
  - destruct (cluster_disconnect_resume t k st) as [[[st1 [t1|resp]] evs1]|]
      eqn:Hstep; [|destruct ks; simplify_eq|done].
    + destruct (handler_run _ ks t1 st1) as [[[[sts2 st2] r2] evs2]|] eqn:Hrest;
        simplify_eq.
      apply cluster_disconnect_resume_registry in Hstep as (Hreg & Hid & _).
      apply IH in Hrest as [Hsts Hr]. split.
      * constructor; [done|]. eapply Forall_impl; [exact Hsts|].
        intros s Hs. simpl in Hs. congruence.
      * destruct r; rewrite <- ?Hid, <- ?Hreg; done.
    + apply cluster_disconnect_resume_registry in Hstep.
      split; [by constructor|done].
Qed.

Lemma client_close_resume_closes (pc : close_pc) (k : completion)
    (c c' : PulsarClient.PulsarMessageClient)
    (r : step close_pc (settled unit)) (evs : list event) :
  client_close_resume pc k c = Some (c', r, evs) →
  remaining_closes pc c
  = native_closes evs
    ++ match r with
       | Suspended pc' => remaining_closes pc' c'
       | Returned _ => []
       end.
Proof.
  unfold client_close_resume, remaining_closes. intros Hresume.
  destruct pc, k as [| |[u|e]|rs| |]; simplify_eq;
    try destruct (PulsarClient.client c) as [n|] eqn:Hclient; simplify_eq;
    simpl; rewrite ?Hclient;
    rewrite ?native_closes_app, ?native_closes_close_errors,
      ?native_closes_fmap_close, ?app_nil_r; try done.
Qed.

Lemma disconnect_run_closes (ks : list completion) :
  ∀ (t : disconnect_task) (st st' : MainState) (sts : list MainState)
    (resp : IPCResponse unit) (evs : list event),
    handler_run cluster_disconnect_resume ks t st
    = Some (sts, st', Returned resp, evs) →
    native_closes evs
    = remaining_closes (disconnect_at t)
        (clientObjects st !!! disconnect_client t).
Proof.
  induction ks as [|k ks IH]; intros t st st' sts resp evs Hrun;
    simpl in Hrun; [by simplify_eq|].
  unfold cluster_disconnect_resume in Hrun at 1.
  destruct (client_close_resume _ k _) as [[[c [pc|r]] evs1]|] eqn:Hstep;
    [| |done].
  - destruct (handler_run _ ks _ _) as [[[[sts2 st2] r2] evs2]|] eqn:Hrest;
      simplify_eq.
    apply IH in Hrest. simpl in Hrest.
    rewrite lookup_total_insert_eq in Hrest.
    apply client_close_resume_closes in Hstep.
    by rewrite native_closes_app, Hrest, Hstep.
  - apply client_close_resume_closes in Hstep. rewrite app_nil_r in Hstep.
    destruct r, ks; simplify_eq; done.
Qed.

(** C8.  [cluster:disconnect] answers with the not-connected error exactly
    when the id is not in the registry.  For a registered id the call first
    invokes [client.close()] of the connection, and as long as that close
    has not settled the registry is untouched: a lookup of the id in any
    state in which the call is suspended finds the connection.  When the
    call returns, [client.close()] has issued the closes of all producers,
    consumers and readers of the client and of the native client; the entry
    is deleted if the close was fulfilled, and kept, with the rejection
    reported under another message, if it was rejected. *)
Theorem disconnect_closes_client_before_removal
    (clusterId : string) (st : MainState) :
  ((cluster_disconnect_start clusterId st).1.2
   = Returned (error ("Cluster " +:+ clusterId +:+ " is not connected"))
   ↔ connectedClusters st !! clusterId = None)
  ∧ ∀ connection : ClusterConnection,
      connectedClusters st !! clusterId = Some connection →
      let c := clientObjects st !!! client connection in
      let t := {| disconnect_id := clusterId;
                  disconnect_client := client connection;
                  disconnect_at := AwaitProducers |} in
      cluster_disconnect_start clusterId st
      = (st, Suspended t, EvClose <$> PulsarClient.producers c)
      ∧ ∀ (ks : list completion) (sts : list MainState) (st' : MainState)
          (r : step disconnect_task (IPCResponse unit)) (evs : list event),
          handler_run cluster_disconnect_resume ks t st
          = Some (sts, st', r, evs) →
          Forall (λ s, connectedClusters s !! clusterId = Some connection) sts
          ∧ match r with
            | Suspended _ =>
                connectedClusters st' !! clusterId = Some connection
            | Returned resp =>
                native_closes ((EvClose <$> PulsarClient.producers c) ++ evs)
                = aggregate_closes c
                ∧ resp ≠ error ("Cluster " +:+ clusterId
                                +:+ " is not connected")
                ∧ ((resp = success ()
                    ∧ connectedClusters st'
                      = delete clusterId (connectedClusters st))
                   ∨ (∃ e,
                        resp = error ("Failed to disconnect cluster: " +:+ e)
                        ∧ connectedClusters st' !! clusterId
                          = Some connection))
            end.
Proof.
  split.
  - unfold cluster_disconnect_start.
    destruct (connectedClusters st !! clusterId) as [connection|]; simpl;
      split; done.
  - intros connection Hpresent c t. split.
    + unfold cluster_disconnect_start. by rewrite Hpresent.
    + intros ks sts st' r evs Hrun.
      pose proof (disconnect_run_registry ks t st st' sts r evs Hrun)
        as [Hsts Hr].
      split.
      * eapply Forall_impl; [exact Hsts|]. intros s Hs. simpl in Hs.
        by rewrite Hs.
      * destruct r as [t'|resp]; [by rewrite Hr|].
        split; [|split].
        -- rewrite native_closes_app, native_closes_fmap_close.
           rewrite (disconnect_run_closes ks t st st' sts resp evs Hrun).
           unfold aggregate_closes, remaining_closes. by simpl.
        -- destruct Hr as [[-> _]|(e & -> & _)]; [done|].
           intros Heq. injection Heq as Heq. discriminate Heq.
        -- destruct Hr as [[-> Hdel]|(e & -> & Hkeep)]; [by left|right].
           exists e. split; [done|]. by rewrite Hkeep.
Qed.

Lemma disconnect_closes_client_before_removal_witness :
  ∃ (sts : list MainState) (st' : MainState) (evs : list event),
    connectedClusters (main busy) !! "c1" = Some example_connection
    ∧ handler_run cluster_disconnect_resume
        [CAll [Fulfilled ()];
         CAll [Rejected "AlreadyClosed"; Fulfilled ()];
         CAll [Fulfilled ()];
         CVoid (Fulfilled ())]
        {| disconnect_id := "c1"; disconnect_client := 0;
           disconnect_at := AwaitProducers |} (main busy)
      = Some (sts, st', Returned (success ()), evs)
    ∧ Forall (λ s, connectedClusters s !! "c1" = Some example_connection) sts
    ∧ length sts = 4
    ∧ connectedClusters st' !! "c1" = None
    ∧ native_closes ([EvClose 1] ++ evs)
      = [EvClose 1; EvClose 2; EvClose 4; EvClose 3; EvClientClose 9].
Proof.
  eexists _, _, _.
  assert (Hpresent : connectedClusters (main busy) !! "c1"
                     = Some example_connection) by (vm_compute; reflexivity).
  split; [exact Hpresent|].
  destruct (disconnect_closes_client_before_removal "c1" (main busy))
    as [_ Hdisconnect].
  destruct (Hdisconnect example_connection Hpresent) as [_ Hrun].
  match goal with |- ?H ∧ _ => assert (Hran : H) by (vm_compute; reflexivity) end.
  split; [exact Hran|].
  destruct (Hrun _ _ _ _ _ Hran) as (Hsts & Hcloses & _ & Hresp).
  split; [exact Hsts|]. split; [reflexivity|]. split.
  - destruct Hresp as [[_ ->]|(e & He & _)]; [|discriminate He].
    apply lookup_delete_eq.
  - exact Hcloses.
Defined.

(** ** The streaming consumer loop *)

(** The loop returns only when it finds [stopRequested] set. *)
Lemma loop_resume_done (w : bool) (sc : StreamingConsumer) (pc : loop_pc)
    (k : completion) (evs : list event) :
  loop_resume w sc pc k = Some (LDone, evs) → stopRequested sc = true.
Proof.
  unfold loop_resume, loop_top, loop_catch, PulsarClient.receive_timeout.
  intros Hresume. destruct (stopRequested sc); [done|].
  repeat case_match; simplify_eq.
Qed.

(** Once [stopRequested] is set the loop returns at its next resumption
    and asks nothing more of the outside world. *)
Lemma loop_resume_stop_requested (w : bool) (sc : StreamingConsumer)
    (pc pc' : loop_pc) (k : completion) (evs : list event) :
  stopRequested sc = true →
  loop_resume w sc pc k = Some (pc', evs) →
  pc' = LDone ∧ evs = [].
Proof.
  unfold loop_resume, loop_top, loop_catch, PulsarClient.receive_timeout.
  intros Hstop Hresume. rewrite Hstop, andb_false_r in Hresume.
  repeat case_match; simplify_eq; done.
Qed.

(** A turn of the loop that pushes or acknowledges is the turn in which a
    receive returned a message, with the window present and no stop
    requested; it pushes first and acknowledges second. *)
Lemma loop_resume_send_or_acknowledge (w : bool) (sc : StreamingConsumer)
    (pc pc' : loop_pc) (k : completion) (evs : list event) :
  loop_resume w sc pc k = Some (pc', evs) →
  existsb is_send evs || existsb is_acknowledge evs = true →
  w = true ∧ stopRequested sc = false ∧ pc = LReceiving
  ∧ ∃ msg, k = CReceived (Fulfilled msg)
      ∧ pc' = LAcknowledging (PulsarClient.convertMessage msg)
      ∧ evs = [EvSend "messages:received" (consumerId sc)
                 (browsedMsg (PulsarClient.convertMessage msg));
               EvAcknowledge (consumer sc) (PulsarClient.convertMessage msg)].
Proof.
  unfold loop_resume, loop_top, loop_catch, PulsarClient.receive_timeout.
  intros Hresume Hevs.
  destruct w, (stopRequested sc) eqn:Hstop, (paused sc) eqn:Hpaused;
    repeat case_match; simplify_eq; simpl in Hevs; try done;
    repeat split; eauto.
Qed.

(** C2.  When a receive returns a message while the window exists and no
    stop has been requested, the loop pushes the converted message to the
    renderer and then acknowledges it; no turn of the loop pushes or
    acknowledges under any other condition.  A rejected acknowledge leads to
    the 100 ms back-off, not out of the loop: the loop returns after a
    rejected acknowledge exactly when it would after a fulfilled one, that
    is when a stop was requested, and it never returns for another reason.
    After the back-off the next receive is issued and its message is
    delivered. *)
Theorem loop_delivers_then_acknowledges
    (w : bool) (sc : StreamingConsumer) (msg : PulsarClient.NativeMessage) :
  let m := PulsarClient.convertMessage msg in
  let delivery (m' : PulsarClient.PulsarMessage) :=
    [EvSend "messages:received" (consumerId sc) (browsedMsg m');
     EvAcknowledge (consumer sc) m'] in
  (w = true → stopRequested sc = false →
   loop_resume w sc LReceiving (CReceived (Fulfilled msg))
   = Some (LAcknowledging m, delivery m))
  ∧ (∀ (pc pc' : loop_pc) (k : completion) (evs : list event),
       loop_resume w sc pc k = Some (pc', evs) →
       existsb is_send evs || existsb is_acknowledge evs = true →
       w = true ∧ stopRequested sc = false)
  ∧ (∀ e : string,
       stopRequested sc = false →
       loop_resume w sc (LAcknowledging m) (CVoid (Rejected e))
       = Some (LBackoff, [EvSetTimeout 100%Z]))
  ∧ (∀ (e : string) (u : unit),
       fst <$> loop_resume w sc (LAcknowledging m) (CVoid (Rejected e))
       = Some LDone
       ↔ fst <$> loop_resume w sc (LAcknowledging m) (CVoid (Fulfilled u))
         = Some LDone)
  ∧ (∀ (pc : loop_pc) (k : completion) (evs : list event),
       loop_resume w sc pc k = Some (LDone, evs) → stopRequested sc = true)
  ∧ (∀ (e : string) (msg2 : PulsarClient.NativeMessage),
       w = true → stopRequested sc = false → paused sc = false →
       loop_run (LAcknowledging m)
         [(w, sc, CVoid (Rejected e)); (w, sc, CTimer);
          (w, sc, CReceived (Fulfilled msg2))]
       = Some (LAcknowledging (PulsarClient.convertMessage msg2),
               [EvSetTimeout 100%Z; EvReceive (consumer sc) 1000%Z]
               ++ delivery (PulsarClient.convertMessage msg2))).
Proof.
  intros m delivery. repeat split.
  - intros -> Hstop. simpl. by rewrite Hstop.
  - by eapply loop_resume_send_or_acknowledge.
  - by eapply loop_resume_send_or_acknowledge.
  - intros e Hstop. simpl. unfold loop_catch. by rewrite Hstop.
  - simpl. unfold loop_catch, loop_top. by repeat case_match.
  - simpl. unfold loop_catch, loop_top. by repeat case_match.
  - intros pc k evs. apply loop_resume_done.
  - intros e msg2 -> Hstop Hpaused. subst delivery.
    destruct sc as [cid c p s rl]. simpl in Hstop, Hpaused. by subst.
Qed.

Lemma loop_delivers_then_acknowledges_witness :
  let m1 := PulsarClient.convertMessage (example_message "1:0" "a") in
  let m2 := PulsarClient.convertMessage (example_message "1:1" "b") in
  loop_run LReceiving
    [(true, example_consumer, CReceived (Fulfilled (example_message "1:0" "a")));
     (true, example_consumer, CVoid (Rejected "AlreadyClosed"));
     (true, example_consumer, CTimer);
     (true, example_consumer, CReceived (Fulfilled (example_message "1:1" "b")))]
  = Some (LAcknowledging m2,
          [EvSend "messages:received" "streaming_consumer_3" (browsedMsg m1);
           EvAcknowledge 4 m1;
           EvSetTimeout 100%Z;
           EvReceive 4 1000%Z;
           EvSend "messages:received" "streaming_consumer_3" (browsedMsg m2);
           EvAcknowledge 4 m2]).
Proof.
  intros m1 m2.
  destruct (loop_delivers_then_acknowledges true example_consumer
              (example_message "1:0" "a"))
    as (Hdeliver & _ & _ & _ & _ & Hnext).
  specialize (Hdeliver eq_refl eq_refl).
  specialize (Hnext "AlreadyClosed" (example_message "1:1" "b")
                eq_refl eq_refl eq_refl).
  change (loop_run LReceiving (?i :: ?rest))
    with (match loop_resume i.1.1 i.1.2 LReceiving i.2 with
          | None => None
          | Some (pc', evs) =>
              match loop_run pc' rest with
              | None => None
              | Some (pc'', evs') => Some (pc'', evs ++ evs')
              end
          end).
  simpl fst; simpl snd. rewrite Hdeliver, Hnext. reflexivity.
Defined.

(** ** Pausing a streaming consumer *)

(** While [paused] is set no turn of the loop issues a receive. *)
Lemma loop_resume_paused (w : bool) (sc : StreamingConsumer)
    (pc pc' : loop_pc) (k : completion) (evs : list event) :
  paused sc = true →
  loop_resume w sc pc k = Some (pc', evs) →
  existsb is_receive evs = false ∧ pc' ≠ LReceiving.
Proof.
  unfold loop_resume, loop_top, loop_catch, PulsarClient.receive_timeout.
  intros Hpaused Hresume. rewrite Hpaused in Hresume.
  repeat case_match; simplify_eq; done.
Qed.

(** [messages:pauseConsumer] on a registered id has no [await]: in one
    turn it sets [paused] on the consumer's object, changes nothing else and
    answers success.  While [paused] is set no turn of the loop issues a
    receive, and the loop polls the flags every 100 ms.  A receive that was
    already in flight still completes, and its message is pushed to the
    renderer. *)
Lemma pause_stops_new_receives
    (id : string) (st : MainState) (l : loc) (sc : StreamingConsumer) :
  streamingConsumers st !! id = Some l →
  streamingObjects st !! l = Some sc →
  let delivery (m : PulsarClient.PulsarMessage) :=
    [EvSend "messages:received" (consumerId sc) (browsedMsg m);
     EvAcknowledge (consumer sc) m] in
  pauseConsumer id st
  = (set_streamingObjects (alter (set_paused true) l) st, success ())
  ∧ streamingObjects (pauseConsumer id st).1 !! l = Some (set_paused true sc)
  ∧ (∀ (w : bool) (sc' : StreamingConsumer) (pc pc' : loop_pc)
       (k : completion) (evs : list event),
       paused sc' = true →
       loop_resume w sc' pc k = Some (pc', evs) →
       existsb is_receive evs = false ∧ pc' ≠ LReceiving)
  ∧ (stopRequested sc = false →
     (∀ w : bool,
        loop_resume w (set_paused true sc) LPaused CTimer
        = Some (LPaused, [EvSetTimeout 100%Z]))
     ∧ (∀ msg : PulsarClient.NativeMessage,
          loop_resume true (set_paused true sc) LReceiving
            (CReceived (Fulfilled msg))
          = Some (LAcknowledging (PulsarClient.convertMessage msg),
                  delivery (PulsarClient.convertMessage msg)))).
Proof.
  intros Hid Hobject delivery. split; [|split; [|split]].
  - unfold pauseConsumer. by rewrite Hid.
  - unfold pauseConsumer. rewrite Hid. simpl.
    by rewrite lookup_alter_eq, Hobject.
  - intros w sc' pc pc' k evs. apply loop_resume_paused.
  - intros Hstop. subst delivery.
    destruct sc as [cid c p s rl]. simpl in Hstop. subst s. done.
Qed.

Lemma pause_stops_new_receives_witness :
  let m := PulsarClient.convertMessage (example_message "1:0" "a") in
  streamingConsumers (main busy) !! "streaming_consumer_3" = Some 0
  ∧ streamingObjects (main busy) !! 0 = Some example_consumer
  ∧ streamingObjects (pauseConsumer "streaming_consumer_3" (main busy)).1 !! 0
    = Some (set_paused true example_consumer)
  ∧ loop_resume true (set_paused true example_consumer) LPaused CTimer
    = Some (LPaused, [EvSetTimeout 100%Z])
  ∧ loop_resume true (set_paused true example_consumer) LReceiving
      (CReceived (Fulfilled (example_message "1:0" "a")))
    = Some (LAcknowledging m,
            [EvSend "messages:received" "streaming_consumer_3" (browsedMsg m);
             EvAcknowledge 4 m]).
Proof.
  intros m.
  assert (Hid : streamingConsumers (main busy) !! "streaming_consumer_3"
                = Some 0) by (vm_compute; reflexivity).
  assert (Hobject : streamingObjects (main busy) !! 0 = Some example_consumer)
    by (vm_compute; reflexivity).
  destruct (pause_stops_new_receives "streaming_consumer_3" (main busy) 0
              example_consumer Hid Hobject)
    as (_ & Hpaused & _ & Hloop).
  destruct (Hloop eq_refl) as (Hpoll & Hflight).
  split; [exact Hid|]. split; [exact Hobject|]. split; [exact Hpaused|].
  split; [apply Hpoll|apply Hflight].
Defined.

(** ** Order of delivery *)

Lemma pushed_app (evs1 evs2 : list event) :
  pushed (evs1 ++ evs2) = pushed evs1 ++ pushed evs2.
Proof. apply omap_app. Qed.

(** What one turn of the loop pushes: the message of a receive that
    returned with the window present and no stop requested, nothing else. *)
Lemma loop_resume_pushed (w : bool) (sc : StreamingConsumer)
    (pc pc' : loop_pc) (k : completion) (evs : list event) :
  loop_resume w sc pc k = Some (pc', evs) →
  pushed evs = browsedMsg <$> received_open [(w, sc, k)].
Proof.
  unfold loop_resume, loop_top, loop_catch, PulsarClient.receive_timeout,
    received_open.
  intros Hresume. simpl.
  destruct pc as [| |m| |], k as [|[nm|e]|[u|e]|rs| |r]; simplify_eq;
    try done;
    destruct w, (stopRequested sc), (paused sc); simpl in *; simplify_eq;
    done.
Qed.

Lemma loop_run_pushed (inputs : list loop_input) :
  ∀ (pc pc' : loop_pc) (evs : list event),
    loop_run pc inputs = Some (pc', evs) →
    pushed evs = browsedMsg <$> received_open inputs.
Proof.
  induction inputs as [|[[w sc] k] inputs IH]; intros pc pc' evs Hrun;
    simpl in Hrun; [by simplify_eq|].
  destruct (loop_resume w sc pc k) as [[pc1 evs1]|] eqn:Hstep; [|done].
  destruct (loop_run pc1 inputs) as [[pc2 evs2]|] eqn:Hrest; simplify_eq.
  rewrite pushed_app, (loop_resume_pushed _ _ _ _ _ _ Hstep), (IH _ _ _ Hrest).
  change ((w, sc, k) :: inputs) with ([(w, sc, k)] ++ inputs).
  unfold received_open. by rewrite omap_app, fmap_app.
Qed.

Lemma received_open_all (inputs : list loop_input) :
  Forall (λ i : loop_input, i.1.1 = true ∧ stopRequested i.1.2 = false)
    inputs →
  received_open inputs = received inputs.
Proof.
  induction 1 as [|[[w sc] k] inputs [Hw Hstop] _ IH]; [done|].
  simpl in Hw, Hstop. unfold received_open, received in *.
  change ((w, sc, k) :: inputs) with ([(w, sc, k)] ++ inputs).
  rewrite !omap_app, IH. f_equal. simpl. by rewrite Hw, Hstop.
Qed.

(** C4, counterexample.  With no window, a message a receive returns is
    not pushed: the loop goes on to the next receive. *)
Lemma every_received_message_is_pushed_counterexample :
  ¬ every_received_message_is_pushed.
Proof.
  intros Hclaim.
  specialize (Hclaim LReceiving LReceiving
                [(false, example_consumer,
                  CReceived (Fulfilled (example_message "1:0" "a")))]
                [EvReceive 4 1000%Z] eq_refl).
  discriminate Hclaim.
Qed.

(** C4, amended.  The messages the loop pushes to the renderer are, in the
    order of the receive calls, those the receive calls returned while the
    window existed and no stop had been requested, and all the messages
    received when that held throughout.  Nothing is buffered: a message is
    pushed in the very turn in which its receive returns, first thing, and
    that turn issues no receive, so the next receive comes after the
    push. *)
Theorem loop_pushes_in_receive_order
    (pc pc' : loop_pc) (inputs : list loop_input) (evs : list event) :
  loop_run pc inputs = Some (pc', evs) →
  pushed evs = browsedMsg <$> received_open inputs
  ∧ (Forall (λ i : loop_input, i.1.1 = true ∧ stopRequested i.1.2 = false)
       inputs →
     pushed evs = browsedMsg <$> received inputs)
  ∧ ∀ (w : bool) (sc : StreamingConsumer) (msg : PulsarClient.NativeMessage)
      (pc1 pc2 : loop_pc) (evs1 : list event),
      loop_resume w sc pc1 (CReceived (Fulfilled msg)) = Some (pc2, evs1) →
      w = true → stopRequested sc = false →
      head evs1
      = Some (EvSend "messages:received" (consumerId sc)
                (browsedMsg (PulsarClient.convertMessage msg)))
      ∧ existsb is_receive evs1 = false.
Proof.
  intros Hrun. split; [by eapply loop_run_pushed|]. split.
  - intros Hopen. rewrite <- (received_open_all inputs Hopen).
    by eapply loop_run_pushed.
  - intros w sc msg pc1 pc2 evs1 Hstep -> Hstop.
    unfold loop_resume, PulsarClient.receive_timeout in Hstep.
    rewrite Hstop in Hstep. destruct pc1; simpl in Hstep; simplify_eq. done.
Qed.

Lemma loop_pushes_in_receive_order_witness :
  let a := PulsarClient.convertMessage (example_message "1:0" "a") in
  let b := PulsarClient.convertMessage (example_message "1:1" "b") in
  let c := PulsarClient.convertMessage (example_message "1:2" "c") in
  let inputs : list loop_input :=
    [(true, example_consumer, CReceived (Fulfilled (example_message "1:0" "a")));
     (true, example_consumer, CVoid (Fulfilled ()));
     (true, example_consumer, CReceived (Fulfilled (example_message "1:1" "b")));
     (true, example_consumer, CVoid (Fulfilled ()));
     (true, example_consumer, CReceived (Fulfilled (example_message "1:2" "c")))] in
  let evs :=
    [EvSend "messages:received" "streaming_consumer_3" (browsedMsg a);
     EvAcknowledge 4 a;
     EvReceive 4 1000%Z;
     EvSend "messages:received" "streaming_consumer_3" (browsedMsg b);
     EvAcknowledge 4 b;
     EvReceive 4 1000%Z;
     EvSend "messages:received" "streaming_consumer_3" (browsedMsg c);
     EvAcknowledge 4 c] in
  loop_run LReceiving inputs = Some (LAcknowledging c, evs)
  ∧ pushed evs = [browsedMsg a; browsedMsg b; browsedMsg c].
Proof.
  intros a b c inputs evs.
  assert (Hrun : loop_run LReceiving inputs = Some (LAcknowledging c, evs))
    by reflexivity.
  split; [exact Hrun|].
  destruct (loop_pushes_in_receive_order _ _ _ _ Hrun) as (_ & Hall & _).
  rewrite Hall; [reflexivity|].
  repeat constructor.
Defined.

(** ** Teardown *)

Lemma quit_clusters_ok (rs : gmap string handle)
    (rest : list (string * ClusterConnection))
    (st : MainState) :
  readers st = rs → producers st = ∅ → consumers st = ∅ →
  streamingConsumers st = ∅ →
  quit_ok rs (quit_clusters rest st).
Proof.
  intros Hrs Hp Hc Hs. unfold quit_clusters, quit_ok.
  destruct rest as [|[id connection] rest]; simpl; done.
Qed.

Lemma quit_streaming_ok (rs : gmap string handle)
    (rest : list (string * loc)) (st : MainState) :
  readers st = rs → producers st = ∅ → consumers st = ∅ →
  quit_ok rs (quit_streaming rest st).
Proof.
  intros Hrs Hp Hc. unfold quit_streaming.
  destruct rest as [|[id l] rest].
  - by apply quit_clusters_ok.
  - unfold quit_ok. by case_match.
Qed.

Lemma quit_consumers_ok (rs : gmap string handle)
    (rest : list (string * handle)) (st : MainState) :
  readers st = rs → producers st = ∅ →
  quit_ok rs (quit_consumers rest st).
Proof.
  intros Hrs Hp. unfold quit_consumers.
  destruct rest as [|[id h] rest]; [by apply quit_streaming_ok|done].
Qed.

Lemma quit_producers_ok (rs : gmap string handle)
    (rest : list (string * handle)) (st : MainState) :
  readers st = rs → quit_ok rs (quit_producers rest st).
Proof.
  intros Hrs. unfold quit_producers.
  destruct rest as [|[id h] rest]; [by apply quit_consumers_ok|done].
Qed.

Lemma prepend_events_ok (rs : gmap string handle) (evs evs' : list event)
    (r : MainState * quit_pc * list event) (st' : MainState)
    (pc' : quit_pc) :
  prepend_events evs r = (st', pc', evs') → quit_ok rs r →
  quit_ok rs (st', pc', evs').
Proof.
  destruct r as [[st pc] evs0]. unfold prepend_events. simpl.
  by intros [= <- <- <-].
Qed.

Lemma before_quit_resume_ok (rs : gmap string handle) (pc pc' : quit_pc)
    (k : completion)
    (st st' : MainState) (evs : list event) :
  readers st = rs → cleared pc st →
  before_quit_resume pc k st = Some (st', pc', evs) →
  readers st' = rs ∧ cleared pc' st'.
Proof.
  intros Hrs Hcleared Hresume.
  change (quit_ok rs (st', pc', evs)). unfold before_quit_resume in Hresume.
  destruct pc as [[|[id h] rest]|[|[id h] rest]|p [|[id l] rest]
                 |[|[id l] rest]|[|[id connection] rest] cpc|];
    simpl in Hcleared; try done.
  - destruct k; simplify_eq.
    eapply prepend_events_ok; [done|]. by apply quit_producers_ok.
  - destruct k; simplify_eq.
    eapply prepend_events_ok; [done|]. by apply quit_consumers_ok.
  - destruct k; simplify_eq. done.
  - destruct k; simplify_eq. destruct Hcleared as [Hp Hc].
    eapply prepend_events_ok; [done|]. by apply quit_streaming_ok.
  - destruct Hcleared as (Hp & Hc & Hs).
    destruct (client_close_resume _ _ _) as [[[c [cpc'|r']] evs']|];
      simplify_eq; [done|].
    eapply prepend_events_ok; [done|]. by apply quit_clusters_ok.
Qed.

Lemma quit_step_ok (rs : gmap string handle) (a : quit_action)
    (q q' : Quit) (evs : list event) :
  readers (quit_main q) = rs → cleared (quit_at q) (quit_main q) →
  quit_step a q = Some (q', evs) →
  readers (quit_main q') = rs ∧ cleared (quit_at q') (quit_main q').
Proof.
  intros Hrs Hcleared Hstep. destruct a as [k|l k]; simpl in Hstep.
  - destruct (quit_joinable q k); [|done].
    destruct (before_quit_resume _ _ _) as [[[st pc] evs']|] eqn:Hresume;
      simplify_eq.
    by eapply before_quit_resume_ok.
  - repeat case_match; simplify_eq. done.
Qed.

Lemma quit_run_ok (rs : gmap string handle) (acts : list quit_action) :
  ∀ (q : Quit) (tr : list (Quit * list event)),
    readers (quit_main q) = rs → cleared (quit_at q) (quit_main q) →
    quit_run acts q = Some tr →
    Forall (λ x, readers (quit_main x.1) = rs
                 ∧ cleared (quit_at x.1) (quit_main x.1)) tr.
Proof.
  induction acts as [|a acts IH]; intros q tr Hrs Hcleared Hrun;
    simpl in Hrun; [by simplify_eq|].
  destruct (quit_step a q) as [[q' evs]|] eqn:Hstep; [|done].
  destruct (quit_run acts q') as [tr'|] eqn:Hrest; [|done].
  injection Hrun as <-.
  destruct (quit_step_ok _ _ _ _ _ Hrs Hcleared Hstep) as [Hrs' Hcleared'].
  constructor; [done|]. by eapply IH.
Qed.

(** C7.  In every state of the teardown in which the close of a cluster's
    message client has been invoked, the maps of producers, one-shot
    consumers and streaming consumers have been cleared (their loops come
    first, in that order), but the map of readers is the one the teardown
    started with: the before-quit handler never closes or removes a reader,
    so every reader registered when the application quits is still
    registered while the clusters are closed. *)
Theorem teardown_leaves_readers_registered
    (s : Sys) (acts : list quit_action) (tr : list (Quit * list event))
    (q : Quit) (evs : list event) :
  quit_run acts (quit_begin s).1 = Some tr →
  (q, evs) ∈ quit_begin s :: tr →
  closes_cluster q = true →
  producers (quit_main q) = ∅
  ∧ consumers (quit_main q) = ∅
  ∧ streamingConsumers (quit_main q) = ∅
  ∧ readers (quit_main q) = readers (main s).
Proof.
  intros Hrun Hq Hcluster.
  assert (Hstart : quit_ok (readers (main s)) (before_quit_start (main s)))
    by by apply quit_producers_ok.
  assert (Hall : Forall (λ x : Quit * list event,
                    readers (quit_main x.1) = readers (main s)
                    ∧ cleared (quit_at x.1) (quit_main x.1))
                   (quit_begin s :: tr)).
  { unfold quit_begin in *.
    destruct (before_quit_start (main s)) as [[st pc] evs0].
    destruct Hstart as [Hrs Hcleared]. simpl in Hrun, Hrs, Hcleared.
    constructor; [done|].
    eapply quit_run_ok; [| |exact Hrun]; done. }
  rewrite Forall_forall in Hall. destruct (Hall _ Hq) as [Hrs Hcleared].
  simpl in Hrs, Hcleared. unfold closes_cluster in Hcluster.
  destruct (quit_at q); try done. by destruct Hcleared as (? & ? & ?).
Qed.

Lemma teardown_leaves_readers_registered_witness :
  ∃ (tr : list (Quit * list event)) (q : Quit),
    quit_run quit_busy (quit_begin busy).1 = Some tr
    ∧ last tr = Some (q, [EvClose 1])
    ∧ closes_cluster q = true
    ∧ producers (quit_main q) = ∅
    ∧ readers (quit_main q) !! "reader_2" = Some 3.
Proof.
  eexists _, _.
  match goal with
  | |- ?H ∧ _ => assert (Hrun : H) by (vm_compute; reflexivity)
  end.
  split; [exact Hrun|].
  match goal with
  | |- ?H ∧ _ => assert (Hlast : H) by reflexivity
  end.
  split; [exact Hlast|].
  match goal with
  | |- ?H ∧ _ => assert (Hcluster : H) by reflexivity
  end.
  split; [exact Hcluster|].
  apply last_Some_elem_of in Hlast.
  destruct (teardown_leaves_readers_registered busy quit_busy _ _ _ Hrun
              (list_elem_of_further _ _ _ Hlast) Hcluster)
    as (Hp & _ & _ & Hreaders).
  split; [exact Hp|]. rewrite Hreaders. vm_compute. reflexivity.
Defined.

(** The wording of the specification fails on the same run. *)
Lemma no_reader_registered_at_cluster_close_counterexample :
  ¬ no_reader_registered_at_cluster_close.
Proof.
  intros Hclaim.
  assert (Hreached : ∃ (tr : list (Quit * list event)) (q : Quit),
             quit_run quit_busy (quit_begin busy).1 = Some tr
             ∧ last tr = Some (q, [EvClose 1])
             ∧ closes_cluster q = true
             ∧ readers (quit_main q) !! "reader_2" = Some 3).
  { eexists _, _. split; [vm_compute; reflexivity|].
    split; [reflexivity|]. split; reflexivity. }
  destruct Hreached as (tr & q & Hrun & Hlast & Hcluster & Hreader).
  apply last_Some_elem_of in Hlast.
  specialize (Hclaim busy quit_busy tr q _ Hrun
                (list_elem_of_further _ _ _ Hlast) Hcluster).
  rewrite Hclaim in Hreader. discriminate Hreader.
Qed.

(** ** Stopping a streaming consumer *)

Lemma supervisor_untouched_refl (st : MainState) : supervisor_untouched st st.
Proof. by repeat split. Qed.

Lemma cluster_connect_untouched (config : ClusterConfig) (now : Z)
    (st : MainState) :
  supervisor_untouched st (cluster_connect config now st).1.
Proof.
  unfold cluster_connect. repeat case_match; by repeat split.
Qed.

Lemma cluster_disconnect_start_untouched (clusterId : string)
    (st : MainState) :
  (cluster_disconnect_start clusterId st).1.1 = st.
Proof. unfold cluster_disconnect_start. by repeat case_match. Qed.

Lemma cluster_disconnect_resume_untouched (t : disconnect_task)
    (k : completion) (st st' : MainState)
    (r : step disconnect_task (IPCResponse unit)) (evs : list event) :
  cluster_disconnect_resume t k st = Some (st', r, evs) →
  supervisor_untouched st st'.
Proof.
  unfold cluster_disconnect_resume. intros Hresume.
  repeat case_match; simplify_eq; by repeat split.
Qed.

Lemma create_start_untouched (w : create_what) (clusterId topic : string)
    (fresh_client : handle) (st : MainState) :
  supervisor_untouched st (create_start w clusterId topic fresh_client st).1.1.
Proof. unfold create_start. case_match; by repeat split. Qed.

Lemma resource_close_start_untouched (k : kind) (id : string)
    (st : MainState) :
  (resource_close_start k id st).1.1 = st.
Proof. unfold resource_close_start. by case_match. Qed.

Lemma resource_close_resume_untouched (t : close_task) (k : completion)
    (st st' : MainState) (r : step close_task (IPCResponse unit))
    (evs : list event) :
  resource_close_resume t k st = Some (st', r, evs) →
  supervisor_untouched st st'.
Proof.
  unfold resource_close_resume. intros Hresume.
  destruct k as [| |[u|e]| | |]; simplify_eq; [|by repeat split].
  destruct (close_kind t); by repeat split.
Qed.

Lemma create_resume_untouched (t : create_task) (k : completion)
    (st st' : MainState) (resp : IPCResponse string) (evs : list event) :
  create_resume t k st = Some (st', resp, evs, None) →
  supervisor_untouched st st'.
Proof.
  unfold create_resume. intros Hresume.
  destruct k as [| | | | |[h|e]]; simplify_eq; [|by repeat split].
  destruct (create_op t); simplify_eq; repeat split; simpl; lia.
Qed.

(** The invariant only looks at the streaming consumers, the loops and the
    stop calls: a turn that leaves those alone keeps it. *)
Lemma sys_inv_frame (s s' : Sys) :
  sys_inv s →
  supervisor_untouched (main s) (main s') →
  loops s' = loops s →
  (∀ i t, tasks s' !! i = Some (TStop t) → tasks s !! i = Some (TStop t)) →
  sys_inv s'.
Proof.
  intros (Hreg & Hobj & Hloop & Hstop) (Hmap & Hobjs & Hcount) Hloops Htasks.
  unfold sys_inv. rewrite Hmap, Hobjs, Hloops.
  split; [|split; [|split]]; [| done | done |].
  - intros id l Hid. destruct (Hreg id l Hid) as (Hsome & n & -> & Hn).
    split; [done|]. exists n. split; [done|lia].
  - intros i t Hi. apply Htasks in Hi.
    destruct (Hstop i t Hi) as ((n & Hid & Hn) & Hsc & Hat).
    split; [|done]. exists n. split; [done|lia].
Qed.

(** A task that is stored or removed by a handler other than
    [messages:stopConsumer] adds no stop call. *)
Lemma settle_task_other {T : Type} (wrap : T → task) (i : nat) (s s' : Sys)
    (r : MainState * step T (IPCResponse unit) * list event)
    (evs : list event) (rep : option reply) :
  (∀ t t', wrap t ≠ TStop t') →
  settle_task wrap i s r = (s', evs, rep) →
  main s' = r.1.1 ∧ loops s' = loops s
  ∧ ∀ j t, tasks s' !! j = Some (TStop t) → tasks s !! j = Some (TStop t).
Proof.
  intros Hwrap Hsettle. destruct r as [[st [t|resp]] evs0];
    simpl in Hsettle; simplify_eq; simpl; (split; [done|split; [done|]]);
    intros j t'.
  - destruct (decide (i = j)) as [->|Hne].
    + rewrite lookup_insert_eq. intros [= Heq]. by destruct (Hwrap t t').
    + by rewrite lookup_insert_ne.
  - destruct (decide (i = j)) as [->|Hne].
    + by rewrite lookup_delete_eq.
    + by rewrite lookup_delete_ne.
Qed.

(** Setting a flag on one object keeps the invariant, as long as
    [receiveLoop] is kept and [stopRequested] is not reset. *)
Lemma sys_inv_alter (s : Sys) (f : StreamingConsumer → StreamingConsumer)
    (l : loc) :
  (∀ sc, receiveLoop (f sc) = receiveLoop sc) →
  (∀ sc, stopRequested sc = true → stopRequested (f sc) = true) →
  sys_inv s →
  sys_inv (with_main (set_streamingObjects (alter f l) (main s)) s).
Proof.
  intros Hloopf Hstopf (Hreg & Hobj & Hloop & Hstop).
  assert (Hsome : ∀ l', is_Some (alter f l (streamingObjects (main s)) !! l')
                        ↔ is_Some (streamingObjects (main s) !! l')).
  { intros l'. rewrite lookup_alter. case_decide; [subst|done].
    by rewrite fmap_is_Some. }
  unfold sys_inv. simpl. split; [|split; [|split]].
  - intros id l' Hid. destruct (Hreg id l' Hid) as [Hobject Hn].
    split; [by apply Hsome|done].
  - intros l' sc. rewrite lookup_alter. case_decide as Hl; [subst l'|].
    + destruct (streamingObjects (main s) !! l) as [sc0|] eqn:Hsc0;
        simpl; [|done].
      intros [= <-]. rewrite Hloopf. by apply Hobj.
    + apply Hobj.
  - intros l' Hl'. apply Hsome. by apply Hloop.
  - intros i t Hi. destruct (Hstop i t Hi) as (Hn & (sc & Hsc & Hreq) & Hat).
    split; [done|]. split; [|done].
    rewrite lookup_alter. case_decide as Hl; [|by exists sc].
    subst l. rewrite Hsc. simpl. exists (f sc). split; [done|].
    by apply Hstopf.
Qed.

(** What [messages:startConsumer] does when the subscribe call has
    succeeded: a new object at a fresh address, registered under the id of
    the next counter value, with its loop in the first receive. *)
Lemma create_resume_started (t : create_task) (k : completion)
    (st st' : MainState) (resp : IPCResponse string) (evs : list event)
    (l : loc) (pc : loop_pc) :
  create_resume t k st = Some (st', resp, evs, Some (l, pc)) →
  streamingObjects st !! l = None
  ∧ pc = LReceiving
  ∧ resp = success (streaming_consumer_id (S (consumerIdCounter st)))
  ∧ consumerIdCounter st' = S (consumerIdCounter st)
  ∧ streamingConsumers st'
    = <[streaming_consumer_id (S (consumerIdCounter st)) := l]>
        (streamingConsumers st)
  ∧ ∃ h,
      evs = [EvReceive h 1000%Z]
      ∧ streamingObjects st'
        = <[l := {| consumerId :=
                      streaming_consumer_id (S (consumerIdCounter st));
                    consumer := h; paused := false; stopRequested := false;
                    receiveLoop := Some l |}]> (streamingObjects st).
Proof.
  unfold create_resume. intros Hresume.
  destruct k as [| | | | |[h|e]]; simplify_eq.
  destruct (create_op t); cbn in Hresume; simplify_eq. simpl.
  split; [apply not_elem_of_dom, is_fresh|]. repeat split. by exists h.
Qed.

Lemma sys_step_inv (a : action) (s s' : Sys) (evs : list event)
    (r : option reply) :
  sys_inv s → sys_step a s = Some (s', evs, r) → sys_inv s'.
Proof.
  intros Hinv Hstep.
  destruct a as [i c|i k|l k|w]; simpl in Hstep.
  - (* a handler is invoked *)
    destruct (tasks s !! i) as [?|] eqn:Hfree; [done|].
    injection Hstep as Hstep.
    destruct c as [config now|clusterId|w clusterId topic fc|kd id|cid mid
                  |cid|cid]; simpl in Hstep.
    + destruct (cluster_connect config now (main s)) as [st resp] eqn:Hcall.
      simplify_eq. eapply sys_inv_frame; [done| |done|done]. simpl.
      pose proof (cluster_connect_untouched config now (main s)) as Hu.
      by rewrite Hcall in Hu.
    + apply settle_task_other in Hstep as (Hmain & Hloops & Htasks); [|done].
      eapply sys_inv_frame; [done| |done|done].
      rewrite Hmain, cluster_disconnect_start_untouched.
      apply supervisor_untouched_refl.
    + pose proof (create_start_untouched w clusterId topic fc (main s)) as Hu.
      destruct (create_start w clusterId topic fc (main s))
        as [[st [t|resp]] evs0]; simplify_eq;
        (eapply sys_inv_frame; [done|done|done|]); simpl; [|done].
      intros j t'. destruct (decide (i = j)) as [->|Hne].
      * by rewrite lookup_insert_eq.
      * by rewrite lookup_insert_ne.
    + apply settle_task_other in Hstep as (Hmain & Hloops & Htasks); [|done].
      eapply sys_inv_frame; [done| |done|done].
      rewrite Hmain, resource_close_start_untouched.
      apply supervisor_untouched_refl.
    + unfold consumer_acknowledge in Hstep.
      destruct (consumers (main s) !! cid); simplify_eq;
        (eapply sys_inv_frame; [done| |done|done]);
        apply supervisor_untouched_refl.
    + unfold pauseConsumer in Hstep.
      destruct (streamingConsumers (main s) !! cid) as [l|]; simplify_eq.
      * by apply sys_inv_alter.
      * eapply sys_inv_frame; [done| |done|done].
        apply supervisor_untouched_refl.
    + unfold stopConsumer_start in Hstep.
      destruct (streamingConsumers (main s) !! cid) as [l|] eqn:Hcid.
      * (* the id is registered: the flag is set, the call joins the loop *)
        pose proof Hinv as (Hreg & Hobj & _ & _).
        destruct (Hreg cid l Hcid) as ([sc Hsc] & Hn).
        destruct (Hobj l sc Hsc) as [Hloop _].
        simpl in Hstep. rewrite lookup_total_alter_eq, Hsc in Hstep.
        simpl in Hstep. rewrite Hloop in Hstep. simpl in Hstep.
        simplify_eq.
        pose proof (sys_inv_alter s (set_stopRequested true) l
                      (λ _, eq_refl) (λ _ _, eq_refl) Hinv)
          as (Hreg' & Hobj' & Hloop' & Hstop').
        unfold sys_inv. simpl in *. split; [done|]. split; [done|].
        split; [done|]. intros j t. destruct (decide (i = j)) as [->|Hne].
        -- rewrite lookup_insert_eq. intros [= <-]. simpl.
           split; [done|]. split; [|done].
           rewrite lookup_alter_eq, Hsc. simpl. by eexists.
        -- rewrite lookup_insert_ne by done. apply Hstop'.
      * simpl in Hstep. simplify_eq.
        eapply sys_inv_frame; [done| |done|]; simpl.
        -- apply supervisor_untouched_refl.
        -- intros j t. destruct (decide (i = j)) as [->|Hne].
           ++ by rewrite lookup_delete_eq.
           ++ by rewrite lookup_delete_ne.
  - (* a handler call is resumed *)
    destruct (tasks s !! i) as [t|] eqn:Hi; [|done].
    destruct (joinable s t k) eqn:Hjoin; [|done].
    destruct t as [t|t|t|t]; simpl in Hstep.
    + destruct (cluster_disconnect_resume t k (main s))
        as [[[st q] evs0]|] eqn:Hresume; [|done].
      assert (Hsettle : settle_task TDisconnect i s (st, q, evs0) = (s', evs, r))
        by (by injection Hstep).
      clear Hstep. rename Hsettle into Hstep.
      apply settle_task_other in Hstep as (Hmain & Hloops & Htasks); [|done].
      eapply sys_inv_frame; [done| |done|done]. rewrite Hmain.
      by eapply cluster_disconnect_resume_untouched.
    + destruct (resource_close_resume t k (main s))
        as [[[st q] evs0]|] eqn:Hresume; [|done].
      assert (Hsettle : settle_task TClose i s (st, q, evs0) = (s', evs, r))
        by (by injection Hstep).
      clear Hstep. rename Hsettle into Hstep.
      apply settle_task_other in Hstep as (Hmain & Hloops & Htasks); [|done].
      eapply sys_inv_frame; [done| |done|done]. rewrite Hmain.
      by eapply resource_close_resume_untouched.
    + (* a create call *)
      destruct (create_resume t k (main s))
        as [[[[st resp] evs0] [[l pc]|]]|] eqn:Hresume; simplify_eq.
      * (* messages:startConsumer registers a new consumer *)
        apply create_resume_started in Hresume
          as (Hfresh & -> & _ & Hcount & Hmap & h & _ & Hobjs).
        destruct Hinv as (Hreg & Hobj & Hloop & Hstop).
        unfold sys_inv. simpl. rewrite Hcount, Hmap, Hobjs.
        split; [|split; [|split]].
        -- intros id l'.
           destruct (decide (streaming_consumer_id
                               (S (consumerIdCounter (main s))) = id))
             as [<-|Hne].
           ++ rewrite lookup_insert_eq. intros [= <-].
              rewrite lookup_insert_eq. split; [done|]. by eexists.
           ++ rewrite lookup_insert_ne by done. intros Hid.
              destruct (Hreg id l' Hid) as (Hsome & n & -> & Hn).
              split; [|exists n; split; [done|lia]].
              rewrite lookup_insert_is_Some. destruct (decide (l = l')); auto.
        -- intros l' sc. destruct (decide (l = l')) as [<-|Hne].
           ++ rewrite !lookup_insert_eq. by intros [= <-].
           ++ rewrite !lookup_insert_ne by done. apply Hobj.
        -- intros l'. rewrite !lookup_insert_is_Some.
           intros [->|[Hne Hl']]; [by left|right]. split; [done|].
           by apply Hloop.
        -- intros j t'. destruct (decide (i = j)) as [->|Hne];
             [by rewrite lookup_delete_eq|].
           rewrite lookup_delete_ne by done. intros Hj.
           destruct (Hstop j t' Hj) as ((n & Hid & Hn) & (sc & Hsc & Hreq) & Hat).
           assert (Hne' : l ≠ stop_object t') by congruence.
           split; [exists n; split; [done|lia]|].
           split; [exists sc; by rewrite lookup_insert_ne|].
           destruct (stop_at t'); [done|]. by rewrite lookup_insert_ne.
      * eapply sys_inv_frame; [done| |done|]; simpl.
        -- by eapply create_resume_untouched.
        -- intros j t'. destruct (decide (i = j)) as [->|Hne].
           ++ by rewrite lookup_delete_eq.
           ++ by rewrite lookup_delete_ne.
    + (* a stop call *)
      pose proof Hinv as (Hreg & Hobj & Hloop & Hstop).
      destruct (Hstop i t Hi) as (Hn & Hsc & Hat).
      unfold stopConsumer_resume in Hstep. simpl in Hjoin.
      destruct (stop_at t) as [p|] eqn:Hpc.
      * (* the loop is joined: the close is issued *)
        destruct k; simplify_eq. simpl in Hstep. simplify_eq.
        destruct (loops s !! stop_object t) as [[]|] eqn:Hdone; simplify_eq.
        unfold sys_inv. simpl. split; [done|]. split; [done|]. split; [done|].
        intros j t'. destruct (decide (i = j)) as [->|Hne].
        -- rewrite lookup_insert_eq. by intros [= <-].
        -- rewrite lookup_insert_ne by done. apply Hstop.
      * (* the close has settled *)
        destruct k as [| |[u|e]| | |]; simplify_eq; simpl in Hstep;
          simplify_eq.
        -- unfold sys_inv. simpl. split; [|split; [done|split; [done|]]].
           ++ intros id l. rewrite lookup_delete_Some. intros [_ Hid].
              by apply Hreg.
           ++ intros j t'. destruct (decide (i = j)) as [->|Hne];
                [by rewrite lookup_delete_eq|].
              rewrite lookup_delete_ne by done. apply Hstop.
        -- eapply sys_inv_frame; [done| |done|]; simpl.
           ++ apply supervisor_untouched_refl.
           ++ intros j t'. destruct (decide (i = j)) as [->|Hne].
              ** by rewrite lookup_delete_eq.
              ** by rewrite lookup_delete_ne.
  - (* a receive loop is resumed *)
    destruct (loops s !! l) as [pc|] eqn:Hpc; [|done].
    destruct (loop_resume _ _ pc k) as [[pc' evs0]|] eqn:Hresume; simplify_eq.
    destruct Hinv as (Hreg & Hobj & Hloop & Hstop).
    unfold sys_inv. simpl. split; [done|]. split; [|split].
    + intros l' sc Hsc. destruct (Hobj l' sc Hsc) as [Hrl Hsome].
      split; [done|]. rewrite lookup_insert_is_Some.
      destruct (decide (l = l')); auto.
    + intros l'. rewrite lookup_insert_is_Some.
      intros [<-|[_ Hl']]; [|by apply Hloop]. apply Hloop. by eexists.
    + intros i t Hi. destruct (Hstop i t Hi) as (Hn & Hsc & Hat).
      split; [done|]. split; [done|].
      destruct (stop_at t); [done|].
      destruct (decide (l = stop_object t)) as [->|Hne].
      * rewrite Hat in Hpc. by simplify_eq.
      * by rewrite lookup_insert_ne.
  - simplify_eq. eapply sys_inv_frame; [done| |done|done].
    by repeat split.
Qed.

Lemma sys_inv_initial : sys_inv initial_sys.
Proof.
  unfold sys_inv, initial_sys. simpl.
  split; [|split; [|split]]; intros *; rewrite lookup_empty; try done.
Qed.

Lemma run_inv (acts : list action) :
  ∀ (s s' : Sys) (evs : list event),
    sys_inv s → run acts s = Some (s', evs) → sys_inv s'.
Proof.
  induction acts as [|a acts IH]; intros s s' evs Hinv Hrun; simpl in Hrun;
    [by simplify_eq|].
  destruct (sys_step a s) as [[[s1 evs1] r1]|] eqn:Hstep; [|done].
  destruct (run acts s1) as [[s2 evs2]|] eqn:Hrest; simplify_eq.
  eapply IH; [|done]. by eapply sys_step_inv.
Qed.

(** No turn brings a retired id back: only [messages:startConsumer]
    registers an id, and it takes the next counter value. *)
Lemma sys_step_retired (id : string) (a : action) (s s' : Sys)
    (evs : list event) (r : option reply) :
  sys_step a s = Some (s', evs, r) →
  retired id (main s) → retired id (main s').
Proof.
  intros Hstep Hretired. pose proof Hretired as [Hgone Hold].
  assert (Hkeep : ∀ st', supervisor_untouched (main s) st' → retired id st').
  { intros st' (Hmap & _ & Hcount). split; [by rewrite Hmap|].
    intros n Hn. specialize (Hold n Hn). lia. }
  destruct a as [i c|i k|l k|w]; simpl in Hstep.
  - destruct (tasks s !! i) as [?|]; [done|]. injection Hstep as Hstep.
    destruct c as [config now|clusterId|w clusterId topic fc|kd cid|cid mid
                  |cid|cid]; simpl in Hstep.
    + pose proof (cluster_connect_untouched config now (main s)) as Hu.
      destruct (cluster_connect config now (main s)); simplify_eq. by apply Hkeep.
    + pose proof (cluster_disconnect_start_untouched clusterId (main s)) as Hu.
      destruct (cluster_disconnect_start clusterId (main s)) as [[st [t|resp]] ?];
        simpl in *; simplify_eq; done.
    + pose proof (create_start_untouched w clusterId topic fc (main s)) as Hu.
      destruct (create_start w clusterId topic fc (main s))
        as [[st [t|resp]] ?]; simplify_eq; by apply Hkeep.
    + pose proof (resource_close_start_untouched kd cid (main s)) as Hu.
      destruct (resource_close_start kd cid (main s)) as [[st [t|resp]] ?];
        simpl in *; simplify_eq; done.
    + unfold consumer_acknowledge in Hstep.
      repeat case_match; simplify_eq; done.
    + unfold pauseConsumer in Hstep. repeat case_match; simplify_eq; done.
    + unfold stopConsumer_start in Hstep.
      repeat case_match; simpl in *; simplify_eq; done.
  - destruct (tasks s !! i) as [t|]; [|done].
    destruct (joinable s t k); [|done].
    destruct t as [t|t|t|t]; simpl in Hstep.
    + destruct (cluster_disconnect_resume t k (main s))
        as [[[st [t'|resp]] ?]|] eqn:Hresume; simpl in Hstep; simplify_eq;
        simpl; eapply Hkeep, cluster_disconnect_resume_untouched; done.
    + destruct (resource_close_resume t k (main s))
        as [[[st [t'|resp]] ?]|] eqn:Hresume; simpl in Hstep; simplify_eq;
        simpl; eapply Hkeep, resource_close_resume_untouched; done.
    + destruct (create_resume t k (main s))
        as [[[[st resp] evs0] [[l pc]|]]|] eqn:Hresume; simplify_eq; simpl.
      * apply create_resume_started in Hresume
          as (_ & _ & _ & Hcount & Hmap & _).
        split.
        -- rewrite Hmap, lookup_insert_ne; [done|].
           intros Heq. symmetry in Heq. specialize (Hold _ Heq). lia.
        -- rewrite Hcount. intros n Hn. specialize (Hold n Hn). lia.
      * eapply Hkeep, create_resume_untouched; done.
    + unfold stopConsumer_resume in Hstep.
      destruct (stop_at t), k as [| |[u|e]| | |]; simpl in Hstep;
        simplify_eq; simpl; try done.
      split; [|done]. simpl. rewrite lookup_delete_None. by right.
  - repeat case_match; simplify_eq; done.
  - simplify_eq. done.
Qed.

Lemma run_retired (id : string) (acts : list action) :
  ∀ (s s' : Sys) (evs : list event),
    run acts s = Some (s', evs) →
    retired id (main s) → retired id (main s').
Proof.
  induction acts as [|a acts IH]; intros s s' evs Hrun Hretired;
    simpl in Hrun; [by simplify_eq|].
  destruct (sys_step a s) as [[[s1 evs1] r1]|] eqn:Hstep; [|done].
  destruct (run acts s1) as [[s2 evs2]|] eqn:Hrest; simplify_eq.
  eapply IH; [done|]. by eapply sys_step_retired.
Qed.

(** C1.  In every state the main process can reach:
    - [stopConsumer] on a registered id sets [stopRequested] on the
      consumer's object and suspends in the join of that consumer's own
      loop; it has closed nothing and the entry is still registered;
    - a stop call leaves the join only at a turn where that loop has
      returned, and it is in that turn that it issues the native close; the
      entry is deleted only in the later turn in which the close is
      fulfilled, the loop still being returned, and it is kept when the
      close is rejected;
    - once [stopRequested] is set the loop returns at its next resumption
      without issuing anything, and a loop that has returned takes no more
      turns, so it has no receive in flight;
    - after the turn in which a stop call has deleted the entry, whatever
      happens next, [stopConsumer] on the same id answers not found. *)
Theorem stopConsumer_joins_before_close
    (acts : list action) (s : Sys) (evs0 : list event) :
  run acts initial_sys = Some (s, evs0) →
  (∀ (id : string) (l : loc),
     streamingConsumers (main s) !! id = Some l →
     ∃ st',
       stopConsumer_start id (main s)
       = (st',
          Suspended {| stop_id := id; stop_object := l;
                       stop_at := StopJoining l |},
          [])
       ∧ stopRequested (streamingObjects st' !!! l) = true
       ∧ streamingConsumers st' = streamingConsumers (main s)
       ∧ is_Some (loops s !! l))
  ∧ (∀ (i : nat) (t : stop_task) (k : completion) (s' : Sys)
       (evs : list event) (r : option reply),
       tasks s !! i = Some (TStop t) →
       sys_step (AResume i k) s = Some (s', evs, r) →
       stopRequested (streamingObjects (main s) !!! stop_object t) = true
       ∧ loops s !! stop_object t = Some LDone
       ∧ match stop_at t with
         | StopJoining p =>
             p = stop_object t ∧ k = CJoined
             ∧ evs = [EvClose (consumer (streamingObjects (main s)
                                         !!! stop_object t))]
             ∧ main s' = main s
             ∧ tasks s' !! i
               = Some (TStop {| stop_id := stop_id t;
                                stop_object := stop_object t;
                                stop_at := StopClosing |})
         | StopClosing =>
             evs = [] ∧ tasks s' !! i = None
             ∧ ((k = CVoid (Fulfilled ())
                 ∧ r = Some (ReplyVoid (success ()))
                 ∧ streamingConsumers (main s')
                   = delete (stop_id t) (streamingConsumers (main s)))
                ∨ (∃ e, k = CVoid (Rejected e)
                        ∧ r = Some (ReplyVoid
                                      (error ("Failed to stop consumer: "
                                              +:+ e)))
                        ∧ main s' = main s))
         end)
  ∧ (∀ (l : loc) (k : completion) (s' : Sys) (evs : list event)
       (r : option reply),
       stopRequested (streamingObjects (main s) !!! l) = true →
       sys_step (ALoop l k) s = Some (s', evs, r) →
       loops s' !! l = Some LDone ∧ evs = [])
  ∧ (∀ (l : loc) (k : completion),
       loops s !! l = Some LDone → sys_step (ALoop l k) s = None)
  ∧ (∀ (i : nat) (t : stop_task) (s1 : Sys) (evs1 : list event)
       (r1 : option reply) (acts2 : list action) (s2 : Sys)
       (evs2 : list event),
       tasks s !! i = Some (TStop t) →
       sys_step (AResume i (CVoid (Fulfilled ()))) s = Some (s1, evs1, r1) →
       run acts2 s1 = Some (s2, evs2) →
       stopConsumer_start (stop_id t) (main s2)
       = (main s2,
          Returned (error ("Consumer " +:+ stop_id t +:+ " not found")),
          [])).
Proof.
  intros Hrun.
  pose proof (run_inv acts _ _ _ sys_inv_initial Hrun) as Hinv.
  pose proof Hinv as (Hreg & Hobj & Hloop & Hstop).
  split; [|split; [|split; [|split]]].
  - (* the call *)
    intros id l Hid. destruct (Hreg id l Hid) as ([sc Hsc] & _).
    destruct (Hobj l sc Hsc) as [Hrl Hsome].
    eexists. unfold stopConsumer_start. rewrite Hid. simpl.
    rewrite lookup_total_alter_eq, Hsc. simpl. rewrite Hrl.
    split; [reflexivity|]. simpl. rewrite lookup_total_alter_eq, Hsc. done.
  - (* the turns of a stop call *)
    intros i t k s' evs r Hi Hstep. simpl in Hstep. rewrite Hi in Hstep.
    destruct (Hstop i t Hi) as (_ & (sc & Hsc & Hreq) & Hat).
    split; [by rewrite (lookup_total_correct _ _ _ Hsc)|].
    destruct (joinable s (TStop t) k) eqn:Hjoin; [|done].
    simpl in Hstep, Hjoin. unfold stopConsumer_resume in Hstep.
    destruct (stop_at t) as [p|] eqn:Hpc.
    + subst p. destruct k; simplify_eq.
      destruct (loops s !! stop_object t) as [[]|] eqn:Hdone; simplify_eq.
      simpl in Hstep. simplify_eq. simpl.
      split; [done|]. split; [done|]. split; [done|]. split; [done|].
      split; [done|]. apply lookup_insert_eq.
    + split; [done|].
      destruct k as [| |[[]|e]| | |]; simplify_eq; simpl in Hstep;
        simplify_eq; simpl.
      * split; [done|]. split; [apply lookup_delete_eq|]. by left.
      * split; [done|]. split; [apply lookup_delete_eq|]. right. by exists e.
  - (* the loop after a stop request *)
    intros l k s' evs r Hreq Hstep. simpl in Hstep.
    destruct (loops s !! l) as [pc|]; [|done].
    destruct (loop_resume _ _ pc k) as [[pc' evs']|] eqn:Hresume;
      simplify_eq.
    apply (loop_resume_stop_requested _ _ _ _ _ _ Hreq) in Hresume
      as [-> ->].
    simpl. split; [apply lookup_insert_eq|done].
  - (* a loop that has returned *)
    intros l k Hdone. simpl. by rewrite Hdone.
  - (* the second stop *)
    intros i t s1 evs1 r1 acts2 s2 evs2 Hi Hstep Hrun2.
    destruct (Hstop i t Hi) as ((n & Hid & Hn) & _ & _).
    assert (Hretired : retired (stop_id t) (main s1)).
    { simpl in Hstep. rewrite Hi in Hstep.
      destruct (joinable s (TStop t) _); [|done].
      simpl in Hstep. unfold stopConsumer_resume in Hstep.
      destruct (stop_at t); simplify_eq. simpl in Hstep. simplify_eq.
      split; simpl.
      - apply lookup_delete_eq.
      - intros n' Hn'. rewrite Hid in Hn'.
        apply (inj (String.append "streaming_consumer_")) in Hn'.
        apply (inj pretty) in Hn'. lia. }
    destruct (run_retired _ _ _ _ _ Hrun2 Hretired) as [Hgone _].
    unfold stopConsumer_start. by rewrite Hgone.
Qed.

Lemma stopConsumer_joins_before_close_witness :
  ∃ (s s1 s2 : Sys) (evs2 : list event),
    run stopping initial_sys
    = Some (s, [EvCreate Producer "t"; EvCreate Consumer "t";
                EvCreate Reader "t";
                EvConsoleLog "Created reader reader_2 for t";
                EvCreate Consumer "t"; EvReceive 4 1000%Z; EvClose 4])
    ∧ tasks s !! 5
      = Some (TStop {| stop_id := "streaming_consumer_3"; stop_object := 0;
                       stop_at := StopClosing |})
    ∧ loops s !! 0 = Some LDone
    ∧ sys_step (AResume 5 (CVoid (Fulfilled ()))) s
      = Some (s1, [], Some (ReplyVoid (success ())))
    ∧ streamingConsumers (main s1) !! "streaming_consumer_3" = None
    ∧ run start_again s1 = Some (s2, evs2)
    ∧ stopConsumer_start "streaming_consumer_3" (main s2)
      = (main s2,
         Returned (error "Consumer streaming_consumer_3 not found"), []).
Proof.
  eexists _, _, _, _.
  match goal with
  | |- ?H ∧ _ => assert (Hrun : H) by (vm_compute; reflexivity)
  end.
  split; [exact Hrun|].
  match goal with
  | |- ?H ∧ _ => assert (Htask : H) by (vm_compute; reflexivity)
  end.
  split; [exact Htask|].
  destruct (stopConsumer_joins_before_close _ _ _ Hrun)
    as (_ & Hturn & _ & _ & Hagain).
  match goal with
  | |- _ ∧ ?H ∧ _ => assert (Hstep : H) by (vm_compute; reflexivity)
  end.
  destruct (Hturn _ _ _ _ _ _ Htask Hstep)
    as (_ & Hdone & _ & _ & [(_ & _ & Hdeleted)|(e & He & _)]);
    [|discriminate He].
  split; [exact Hdone|]. split; [exact Hstep|]. split.
  { rewrite Hdeleted. apply lookup_delete_eq. }
  match goal with
  | |- ?H ∧ _ => assert (Hrun2 : H) by (vm_compute; reflexivity)
  end.
  split; [exact Hrun2|].
  apply (Hagain _ _ _ _ _ _ _ _ Htask Hstep Hrun2).
Defined.

(** ** A pause is never undone *)

Lemma paused_at_untouched (l : loc) (st st' : MainState) :
  supervisor_untouched st st' → paused_at l st → paused_at l st'.
Proof.
  intros (_ & Hobjects & _) Hpaused. unfold paused_at. by rewrite Hobjects.
Qed.

(** The handlers that write to a consumer object set a flag; none of them
    clears [paused]. *)
Lemma paused_at_alter (l l' : loc) (f : StreamingConsumer → StreamingConsumer)
    (st : MainState) :
  (∀ sc, paused sc = true → paused (f sc) = true) →
  paused_at l st →
  paused_at l (set_streamingObjects (alter f l') st).
Proof.
  intros Hf (sc & Hsc & Hpaused). unfold paused_at. simpl.
  destruct (decide (l = l')) as [<-|Hne].
  - exists (f sc). rewrite lookup_alter_eq, Hsc. split; [done|]. by apply Hf.
  - exists sc. by rewrite lookup_alter_ne.
Qed.

(** No turn of the event loop clears [paused], and no turn puts the loop
    of a paused consumer into a receive. *)
Lemma sys_step_paused_at (l : loc) (a : action) (s s' : Sys)
    (evs : list event) (r : option reply) :
  paused_at l (main s) →
  sys_step a s = Some (s', evs, r) →
  paused_at l (main s')
  ∧ (loops s !! l ≠ Some LReceiving → loops s' !! l ≠ Some LReceiving).
Proof.
  intros Hpaused Hstep.
  assert (Hkeep : ∀ st', supervisor_untouched (main s) st' → paused_at l st')
    by (intros st' Hu; by eapply paused_at_untouched).
  destruct a as [i c|i k|l' k|w]; simpl in Hstep.
  - destruct (tasks s !! i) as [?|]; [done|]. injection Hstep as Hstep.
    destruct c as [config now|clusterId|w clusterId topic fc|kd cid|cid mid
                  |cid|cid]; simpl in Hstep.
    + pose proof (cluster_connect_untouched config now (main s)) as Hu.
      destruct (cluster_connect config now (main s)); simplify_eq.
      split; [by apply Hkeep|done].
    + pose proof (cluster_disconnect_start_untouched clusterId (main s)) as Hu.
      destruct (cluster_disconnect_start clusterId (main s))
        as [[st [t|resp]] ?]; simpl in *; simplify_eq; by split.
    + pose proof (create_start_untouched w clusterId topic fc (main s)) as Hu.
      destruct (create_start w clusterId topic fc (main s))
        as [[st [t|resp]] ?]; simplify_eq; (split; [by apply Hkeep|done]).
    + pose proof (resource_close_start_untouched kd cid (main s)) as Hu.
      destruct (resource_close_start kd cid (main s)) as [[st [t|resp]] ?];
        simpl in *; simplify_eq; by split.
    + unfold consumer_acknowledge in Hstep.
      repeat case_match; simplify_eq; by split.
    + unfold pauseConsumer in Hstep. repeat case_match; simplify_eq;
        (split; [|done]); [|done]. simpl. by apply paused_at_alter.
    + unfold stopConsumer_start in Hstep.
      repeat case_match; simpl in *; simplify_eq; (split; [|done]);
        try done; by apply paused_at_alter.
  - destruct (tasks s !! i) as [t|]; [|done].
    destruct (joinable s t k); [|done].
    destruct t as [t|t|t|t]; simpl in Hstep.
    + destruct (cluster_disconnect_resume t k (main s))
        as [[[st [t'|resp]] ?]|] eqn:Hresume; simpl in Hstep; simplify_eq;
        simpl; (split; [|done]);
        eapply Hkeep, cluster_disconnect_resume_untouched; done.
    + destruct (resource_close_resume t k (main s))
        as [[[st [t'|resp]] ?]|] eqn:Hresume; simpl in Hstep; simplify_eq;
        simpl; (split; [|done]);
        eapply Hkeep, resource_close_resume_untouched; done.
    + destruct (create_resume t k (main s))
        as [[[[st resp] evs0] [[l2 pc]|]]|] eqn:Hresume; simplify_eq; simpl.
      * apply create_resume_started in Hresume
          as (Hfresh & _ & _ & _ & _ & h & _ & Hobjects).
        destruct Hpaused as (sc & Hsc & Hflag).
        assert (Hne : l2 ≠ l) by (intros ->; congruence).
        split.
        -- exists sc. by rewrite Hobjects, lookup_insert_ne.
        -- by rewrite lookup_insert_ne.
      * split; [|done]. eapply Hkeep, create_resume_untouched; done.
    + unfold stopConsumer_resume in Hstep.
      destruct (stop_at t), k as [| |[u|e]| | |]; simpl in Hstep;
        simplify_eq; simpl; by split.
  - destruct (loops s !! l') as [pc|] eqn:Hpc; [|done].
    destruct (loop_resume _ _ pc k) as [[pc' evs0]|] eqn:Hresume;
      simplify_eq. simpl. split; [done|].
    destruct (decide (l' = l)) as [->|Hne]; [|by rewrite lookup_insert_ne].
    intros _. rewrite lookup_insert_eq.
    destruct Hpaused as (sc & Hsc & Hflag).
    rewrite (lookup_total_correct _ _ _ Hsc) in Hresume.
    destruct (loop_resume_paused _ _ _ _ _ _ Hflag Hresume) as [_ Hnot].
    congruence.
  - simplify_eq. by split.
Qed.

Lemma run_paused_at (l : loc) (acts : list action) :
  ∀ (s s' : Sys) (evs : list event),
    paused_at l (main s) →
    run acts s = Some (s', evs) →
    paused_at l (main s')
    ∧ (loops s !! l ≠ Some LReceiving → loops s' !! l ≠ Some LReceiving).
Proof.
  induction acts as [|a acts IH]; intros s s' evs Hpaused Hrun;
    simpl in Hrun; [by simplify_eq|].
  destruct (sys_step a s) as [[[s1 evs1] r1]|] eqn:Hstep; [|done].
  destruct (run acts s1) as [[s2 evs2]|] eqn:Hrest; simplify_eq.
  destruct (sys_step_paused_at l _ _ _ _ _ Hpaused Hstep) as [Hp1 Hl1].
  destruct (IH _ _ _ Hp1 Hrest) as [Hp2 Hl2]. split; [done|]. auto.
Qed.

(** What a turn of the loop of a paused consumer can do. *)
Lemma loop_resume_while_paused (w : bool) (sc : StreamingConsumer)
    (pc pc' : loop_pc) (k : completion) (evs : list event) :
  paused sc = true →
  pc ≠ LReceiving →
  loop_resume w sc pc k = Some (pc', evs) →
  existsb is_send evs = false.
Proof.
  unfold loop_resume, loop_top, loop_catch. intros Hpaused Hpc Hresume.
  rewrite Hpaused in Hresume.
  destruct pc; try done; repeat case_match; simplify_eq; done.
Qed.

(** C3.  What [messages:pauseConsumer] starts never ends.  On a registered
    id, in any state the main process can reach, the call answers success
    in one turn and issues nothing.  Whatever turns follow (any call of
    the renderer, any completion, any number of polls), the consumer's
    object still has [paused] set: no handler writes [false] to it.  So
    the loop, once it is out of the receive that was in flight, never
    enters a receive again, and each of its turns issues no receive and
    pushes nothing.  Delivery does not resume; only a new
    [messages:startConsumer], which makes another consumer, delivers
    again. *)
Theorem pause_is_never_undone
    (before after : list action) (s0 s1 s2 : Sys)
    (evs0 evs1 evs2 : list event) (i : nat) (id : string) (l : loc)
    (answer : option reply) :
  run before initial_sys = Some (s0, evs0) →
  streamingConsumers (main s0) !! id = Some l →
  sys_step (AInvoke i (CallPause id)) s0 = Some (s1, evs1, answer) →
  run after s1 = Some (s2, evs2) →
  answer = Some (ReplyVoid (success ()))
  ∧ evs1 = []
  ∧ paused_at l (main s1)
  ∧ paused_at l (main s2)
  ∧ (loops s1 !! l ≠ Some LReceiving → loops s2 !! l ≠ Some LReceiving)
  ∧ ∀ (k : completion) (s3 : Sys) (evs3 : list event) (r3 : option reply),
      sys_step (ALoop l k) s2 = Some (s3, evs3, r3) →
      existsb is_receive evs3 = false
      ∧ loops s3 !! l ≠ Some LReceiving
      ∧ (loops s2 !! l ≠ Some LReceiving → existsb is_send evs3 = false).
Proof.
  intros Hreach Hid Hpause Hafter.
  pose proof (run_inv _ _ _ _ sys_inv_initial Hreach) as (Hmap & _).
  destruct (Hmap id l Hid) as [[sc Hsc] _].
  simpl in Hpause. destruct (tasks s0 !! i) as [?|]; [done|].
  injection Hpause as Hpause. simpl in Hpause.
  unfold pauseConsumer in Hpause. rewrite Hid in Hpause. simplify_eq.
  assert (Hp1 : paused_at l
                  (set_streamingObjects (alter (set_paused true) l)
                     (main s0))).
  { exists (set_paused true sc). simpl. by rewrite lookup_alter_eq, Hsc. }
  destruct (run_paused_at l _ (with_main _ s0) _ _ Hp1 Hafter)
    as [Hp2 Hl2].
  split; [done|]. split; [done|]. split; [done|]. split; [done|].
  split; [done|].
  intros k s3 evs3 r3 Hturn. simpl in Hturn.
  destruct (loops s2 !! l) as [pc|] eqn:Hpc; [|done].
  destruct (loop_resume _ _ pc k) as [[pc' evs']|] eqn:Hresume;
    simplify_eq. simpl. rewrite lookup_insert_eq.
  destruct Hp2 as (sc2 & Hsc2 & Hflag).
  rewrite (lookup_total_correct _ _ _ Hsc2) in Hresume.
  destruct (loop_resume_paused _ _ _ _ _ _ Hflag Hresume) as [Hnone Hnot].
  split; [done|]. split; [congruence|].
  intros Hout. eapply loop_resume_while_paused; [done| |done]. congruence.
Qed.

Lemma pause_is_never_undone_witness :
  paused_at 0 (main still_paused)
  ∧ loops still_paused !! 0 = Some LPaused
  ∧ sys_step (ALoop 0 (CReceived (Fulfilled (example_message "1:0" "a"))))
      still_paused = None
  ∧ ∀ (k : completion) (s3 : Sys) (evs3 : list event) (r3 : option reply),
      sys_step (ALoop 0 k) still_paused = Some (s3, evs3, r3) →
      existsb is_receive evs3 = false ∧ existsb is_send evs3 = false.
Proof.
  assert (Hreach : ∃ evs0, run setup initial_sys = Some (busy, evs0))
    by (eexists; vm_compute; reflexivity).
  destruct Hreach as [evs0 Hreach].
  assert (Hid : streamingConsumers (main busy) !! "streaming_consumer_3"
                = Some 0) by (vm_compute; reflexivity).
  assert (Hpause : sys_step (AInvoke 5 (CallPause "streaming_consumer_3")) busy
                   = Some (default initial_sys
                             (fst <$> run pausing initial_sys),
                           [], Some (ReplyVoid (success ()))))
    by (vm_compute; reflexivity).
  assert (Hafter : ∃ evs2,
            run polling (default initial_sys (fst <$> run pausing initial_sys))
            = Some (still_paused, evs2))
    by (eexists; vm_compute; reflexivity).
  destruct Hafter as [evs2 Hafter].
  destruct (pause_is_never_undone _ _ _ _ _ _ _ _ _ _ _ _
              Hreach Hid Hpause Hafter)
    as (_ & _ & _ & Hpaused & _ & Hturns).
  assert (Hpc : loops still_paused !! 0 = Some LPaused)
    by (vm_compute; reflexivity).
  split; [exact Hpaused|]. split; [exact Hpc|].
  split; [vm_compute; reflexivity|].
  intros k s3 evs3 r3 Hturn.
  destruct (Hturns k s3 evs3 r3 Hturn) as (Hreceive & _ & Hsend).
  split; [exact Hreceive|]. apply Hsend. intros Hin.
  discriminate (eq_trans (eq_sym Hpc) Hin).
Defined.

(** * Further properties *)

(** ** The base URL of the admin client *)

(** X1.  The constructor of [PulsarAdmin] removes exactly one trailing
    slash from the base URL: a URL that ends in a slash loses that slash
    and nothing else, and any other URL is kept as it is. *)
Theorem remove_trailing_slash_spec (s : string) :
  (∀ p : string, s = p +:+ "/" → remove_trailing_slash s = p)
  ∧ ((∀ p : string, s ≠ p +:+ "/") → remove_trailing_slash s = s).
Proof.
  induction s as [|c s [IHyes IHno]]; split.
  - intros [|c p]; discriminate.
  - done.
  - intros [|c' p] Heq; simpl in Heq.
    + injection Heq as -> ->. reflexivity.
    + injection Heq as -> ->. simpl.
      rewrite (IHyes p eq_refl). by destruct p.
  - intros Hno. simpl. destruct s as [|c' s'].
    + destruct (Ascii.eqb_spec c "/"%char) as [->|Hne]; [|done].
      by destruct (Hno "").
    + rewrite IHno; [done|]. intros p Heq. apply (Hno (String c p)).
      simpl. by rewrite Heq.
Qed.

Lemma remove_trailing_slash_spec_witness :
  "http://localhost:8080//" = "http://localhost:8080/" +:+ "/"
  ∧ remove_trailing_slash "http://localhost:8080//" = "http://localhost:8080/".
Proof.
  split; [reflexivity|].
  apply (proj1 (remove_trailing_slash_spec "http://localhost:8080//")).
  reflexivity.
Defined.

(** ** Connecting, listing and disconnecting *)

(** X2.  [cluster:connect] with an id that is not registered answers with
    success and registers a connection for exactly that id, stamped with
    the current time, leaving every other connection, every resource
    registry and both counters as they were.  The connection gets a message
    client of its own, at a fresh address, that has not been connected yet
    (no native client, no producer, consumer or reader): connecting does no
    I/O. *)
Theorem connect_registers_cluster
    (config : ClusterConfig) (now : Z) (st : MainState) :
  connectedClusters st !! clusterId config = None →
  let st' := (cluster_connect config now st).1 in
  ∃ (conn : ClusterConnection) (obj : PulsarClient.PulsarMessageClient),
    (cluster_connect config now st).2
    = success (connected_info (clusterId config) conn)
    ∧ conn_config conn = config
    ∧ connectedAt conn = now
    ∧ baseUrl (admin conn) = remove_trailing_slash (adminUrl config)
    ∧ connectedClusters st' = <[clusterId config := conn]> (connectedClusters st)
    ∧ clientObjects st !! client conn = None
    ∧ clientObjects st' = <[client conn := obj]> (clientObjects st)
    ∧ PulsarClient.client obj = None
    ∧ PulsarClient.producers obj = []
    ∧ PulsarClient.consumers obj = []
    ∧ PulsarClient.readers obj = []
    ∧ PulsarClient.serviceUrl (PulsarClient.config obj) = serviceUrl config
    ∧ producers st' = producers st
    ∧ consumers st' = consumers st
    ∧ readers st' = readers st
    ∧ streamingConsumers st' = streamingConsumers st
    ∧ producerIdCounter st' = producerIdCounter st
    ∧ consumerIdCounter st' = consumerIdCounter st.
Proof.
  intros Habsent. unfold cluster_connect. rewrite Habsent.
  destruct (match auth config with
            | Some (AuthToken token) => (Some token, None)
            | Some (AuthOAuth oauth) => (None, Some oauth)
            | Some AuthNone => (None, None)
            | None =>
                match authToken config with
                | Some token =>
                    if truthy token then (Some token, None) else (None, None)
                | None => (None, None)
                end
            end) as [token oauth].
  simpl.
  exists {| conn_config := config;
            admin := {| baseUrl := remove_trailing_slash (adminUrl config);
                        admin_authToken := token; oauthClient := oauth |};
            client := fresh (dom (clientObjects st));
            connectedAt := now |}.
  eexists. split; [reflexivity|]. simpl.
  split; [done|]. split; [done|]. split; [done|]. split; [done|].
  split; [apply not_elem_of_dom, is_fresh|]. done.
Qed.

Lemma connect_registers_cluster_witness :
  let st' := (cluster_connect example_cluster 1000%Z initial_state).1 in
  connectedClusters initial_state !! clusterId example_cluster = None
  ∧ ∃ conn : ClusterConnection,
      connectedClusters st' = <["c1" := conn]> ∅
      ∧ connectedAt conn = 1000%Z
      ∧ baseUrl (admin conn) = "http://localhost:8080".
Proof.
  intros st'.
  assert (Habsent : connectedClusters initial_state
                    !! clusterId example_cluster = None) by reflexivity.
  split; [exact Habsent|].
  destruct (connect_registers_cluster example_cluster 1000%Z initial_state
              Habsent)
    as (conn & obj & _ & _ & Hat & Hurl & Hmap & _).
  exists conn. split; [exact Hmap|]. split; [exact Hat|]. exact Hurl.
Defined.

(** X3.  [cluster:list] always succeeds and lists every registered cluster
    exactly once: one entry per connection, no id twice, each entry marked
    connected and carrying the time of its connect.  A successful
    [cluster:connect] adds exactly the entry it answered with. *)
Theorem cluster_list_one_entry_per_cluster (st : MainState) :
  ∃ l : list ConnectedCluster,
    cluster_list st = success l
    ∧ length l = size (connectedClusters st)
    ∧ NoDup (cc_clusterId <$> l)
    ∧ (∀ info : ConnectedCluster,
         info ∈ l
         ↔ ∃ (id : string) (conn : ClusterConnection),
             connectedClusters st !! id = Some conn
             ∧ info = connected_info id conn)
    ∧ (∀ (config : ClusterConfig) (now : Z),
         connectedClusters st !! clusterId config = None →
         ∃ (l' : list ConnectedCluster) (info : ConnectedCluster),
           cluster_list (cluster_connect config now st).1 = success l'
           ∧ (cluster_connect config now st).2 = success info
           ∧ cc_clusterId info = clusterId config
           ∧ cc_connectedAt info = now
           ∧ l' ≡ₚ info :: l).
Proof.
  eexists. split; [reflexivity|]. split; [|split; [|split]].
  - by rewrite length_fmap, length_map_to_list.
  - rewrite <- list_fmap_compose.
    apply (NoDup_fst_map_to_list (connectedClusters st)).
  - intros info. rewrite list_elem_of_fmap. split.
    + intros ([id conn] & -> & Hin). apply elem_of_map_to_list in Hin.
      by exists id, conn.
    + intros (id & conn & Hin & ->). exists (id, conn).
      split; [done|]. by apply elem_of_map_to_list.
  - intros config now Habsent. unfold cluster_connect. rewrite Habsent.
    destruct (match auth config with
              | Some (AuthToken token) => (Some token, None)
              | Some (AuthOAuth oauth) => (None, Some oauth)
              | Some AuthNone => (None, None)
              | None =>
                  match authToken config with
                  | Some token =>
                      if truthy token then (Some token, None)
                      else (None, None)
                  | None => (None, None)
                  end
              end) as [token oauth].
    cbn [fst snd]. eexists _, _. split; [reflexivity|].
    split; [reflexivity|]. split; [done|]. split; [done|].
    cbn [connectedClusters set_connectedClusters].
    by rewrite map_to_list_insert by done.
Qed.

Lemma cluster_list_one_entry_per_cluster_witness :
  cluster_list (main busy) = success [connected_info "c1" example_connection].
Proof.
  destruct (cluster_list_one_entry_per_cluster (main busy))
    as (l & Hlist & Hlength & _ & Hin & _).
  rewrite Hlist. f_equal.
  assert (Hc1 : connected_info "c1" example_connection ∈ l).
  { apply Hin. exists "c1", example_connection.
    split; [vm_compute; reflexivity|reflexivity]. }
  assert (Hone : length l = 1) by (rewrite Hlength; vm_compute; reflexivity).
  destruct l as [|info [|info' l]]; simplify_eq.
  by apply list_elem_of_singleton in Hc1 as ->.
Defined.

(** Disconnecting a cluster whose message client was never used issues
    nothing. *)
Lemma disconnect_unused_client (st : MainState) (id : string)
    (conn : ClusterConnection) (cfg : PulsarClient.PulsarClientConfig) :
  connectedClusters st !! id = Some conn →
  clientObjects st !! client conn = Some (PulsarClient.new cfg) →
  ∃ (t : disconnect_task) (sts : list MainState) (st2 : MainState),
    cluster_disconnect_start id st = (st, Suspended t, [])
    ∧ handler_run cluster_disconnect_resume [CAll []; CAll []; CAll []] t st
      = Some (sts, st2, Returned (success ()), [])
    ∧ connectedClusters st2 = delete id (connectedClusters st).
Proof.
  intros Hconn Hobj. unfold cluster_disconnect_start. rewrite Hconn.
  rewrite (lookup_total_correct _ _ _ Hobj).
  eexists _, _, _. split; [reflexivity|].
  unfold handler_run, cluster_disconnect_resume.
  cbn [disconnect_at disconnect_client disconnect_id].
  rewrite (lookup_total_correct _ _ _ Hobj).
  repeat (cbn [disconnect_at disconnect_client disconnect_id
               client_close_resume set_clientObjects clientObjects];
          rewrite lookup_total_insert_eq).
  cbn. split; reflexivity.
Qed.

(** X4.  A cluster that is connected and then disconnected without having
    been used costs no native call: the message client was never built, so
    [client.close()] finds nothing to close, the disconnect succeeds
    without a single event, and the registry of clusters is back to what it
    was before the connect. *)
Theorem connect_then_disconnect_is_silent
    (config : ClusterConfig) (now : Z) (st : MainState) :
  connectedClusters st !! clusterId config = None →
  let st1 := (cluster_connect config now st).1 in
  ∃ (t : disconnect_task) (sts : list MainState) (st2 : MainState),
    cluster_disconnect_start (clusterId config) st1 = (st1, Suspended t, [])
    ∧ handler_run cluster_disconnect_resume [CAll []; CAll []; CAll []] t st1
      = Some (sts, st2, Returned (success ()), [])
    ∧ connectedClusters st2 = connectedClusters st.
Proof.
  intros Habsent st1.
  assert (Hconnect : ∃ conn cfg,
             connectedClusters st1
             = <[clusterId config := conn]> (connectedClusters st)
             ∧ clientObjects st1 !! client conn = Some (PulsarClient.new cfg)).
  { subst st1. unfold cluster_connect. rewrite Habsent.
    destruct (match auth config with
              | Some (AuthToken token) => (Some token, None)
              | Some (AuthOAuth oauth) => (None, Some oauth)
              | Some AuthNone => (None, None)
              | None =>
                  match authToken config with
                  | Some token =>
                      if truthy token then (Some token, None)
                      else (None, None)
                  | None => (None, None)
                  end
              end) as [token oauth].
    simpl. eexists _, _. split; [reflexivity|]. simpl.
    apply lookup_insert_eq. }
  destruct Hconnect as (conn & cfg & Hmap & Hobj).
  destruct (disconnect_unused_client st1 (clusterId config) conn cfg)
    as (t & sts & st2 & Hstart & Hrun & Hafter); [|done|].
  { rewrite Hmap. apply lookup_insert_eq. }
  exists t, sts, st2. split; [done|]. split; [done|].
  rewrite Hafter, Hmap. by apply delete_insert_id.
Qed.

Lemma connect_then_disconnect_is_silent_witness :
  let st1 := (cluster_connect example_cluster 1000%Z initial_state).1 in
  connectedClusters initial_state !! clusterId example_cluster = None
  ∧ ∃ (t : disconnect_task) (sts : list MainState) (st2 : MainState),
      handler_run cluster_disconnect_resume [CAll []; CAll []; CAll []] t st1
      = Some (sts, st2, Returned (success ()), [])
      ∧ connectedClusters st2 = ∅.
Proof.
  intros st1.
  assert (Habsent : connectedClusters initial_state
                    !! clusterId example_cluster = None) by reflexivity.
  split; [exact Habsent|].
  destruct (connect_then_disconnect_is_silent example_cluster 1000%Z
              initial_state Habsent) as (t & sts & st2 & _ & Hrun & Hafter).
  exists t, sts, st2. split; [exact Hrun|exact Hafter].
Defined.

(** ** Closing twice, and what a close leaves behind *)

Lemma registry_set_registry_other (k k' : kind)
    (f : gmap string handle → gmap string handle) (st : MainState) :
  k ≠ k' → registry k' (set_registry k f st) = registry k' st.
Proof. by destruct k, k'. Qed.

(** X5.  For each of the three registries: [close] on an id that is not
    registered answers not found, changes nothing and issues no native
    call.  After a close has been fulfilled the id is not registered any
    more, so a second close of it answers not found; every other entry of
    the registry, the two other registries, the clusters and the streaming
    consumers are untouched by the close. *)
Theorem close_twice_is_not_found (k : kind) (id : string) (h : handle)
    (st : MainState) :
  let not_found : IPCResponse unit :=
    error (Kind_word k +:+ " " +:+ id +:+ " not found") in
  let t := {| close_kind := k; close_id := id; close_handle := h |} in
  (registry k st !! id = None →
   resource_close_start k id st = (st, Returned not_found, []))
  ∧ ∃ (st' : MainState) (evs : list event),
      resource_close_resume t (CVoid (Fulfilled ())) st
      = Some (st', Returned (success ()), evs)
      ∧ resource_close_start k id st' = (st', Returned not_found, [])
      ∧ (∀ id' : string, id' ≠ id → registry k st' !! id' = registry k st !! id')
      ∧ (∀ k' : kind, k' ≠ k → registry k' st' = registry k' st)
      ∧ connectedClusters st' = connectedClusters st
      ∧ streamingConsumers st' = streamingConsumers st
      ∧ clientObjects st' = clientObjects st.
Proof.
  intros not_found t. split.
  - intros Habsent. unfold resource_close_start. by rewrite Habsent.
  - eexists _, _. split; [reflexivity|]. split; [|split; [|split]].
    + unfold resource_close_start. simpl.
      by rewrite registry_set_registry, lookup_delete_eq.
    + intros id' Hne. simpl.
      by rewrite registry_set_registry, lookup_delete_ne.
    + intros k' Hne. simpl. by apply registry_set_registry_other.
    + by destruct k.
Qed.

Lemma close_twice_is_not_found_witness :
  registry Consumer one_producer !! "consumer_1" = None
  ∧ resource_close_start Consumer "consumer_1" one_producer
    = (one_producer, Returned (error "Consumer consumer_1 not found"), [])
  ∧ ∃ (st' : MainState) (evs : list event),
      resource_close_resume
        {| close_kind := Producer; close_id := "producer_1";
           close_handle := 7 |} (CVoid (Fulfilled ())) one_producer
      = Some (st', Returned (success ()), evs)
      ∧ resource_close_start Producer "producer_1" st'
        = (st', Returned (error "Producer producer_1 not found"), []).
Proof.
  assert (Habsent : registry Consumer one_producer !! "consumer_1" = None)
    by reflexivity.
  split; [exact Habsent|]. split.
  - apply (proj1 (close_twice_is_not_found Consumer "consumer_1" 0
                    one_producer) Habsent).
  - destruct (proj2 (close_twice_is_not_found Producer "producer_1" 7
                       one_producer))
      as (st' & evs & Hclose & Hagain & _).
    exists st', evs. split; [exact Hclose|exact Hagain].
Defined.

(** X6.  A producer, consumer or reader that was created through its
    handler and then closed through its handler is gone from the registry
    but not from the set of the message client that made it: the wrapper is
    added there by the create call and no close removes it.  A later
    [client.close()] of that cluster therefore closes the same handle once
    more. *)
Theorem closed_resource_stays_in_client_set
    (w : create_what) (l : loc) (topic : string) (h : handle)
    (st : MainState) :
  w ≠ StartConsumer →
  is_Some (clientObjects st !! l) →
  ∃ (st1 st2 : MainState) (id : string) (evs1 evs2 : list event),
    create_resume {| create_op := w; create_client := l;
                     create_topic := topic |} (CCreated (Fulfilled h)) st
    = Some (st1, success id, evs1, None)
    ∧ registry (created_kind w) st1 !! id = Some h
    ∧ resource_close_resume
        {| close_kind := created_kind w; close_id := id; close_handle := h |}
        (CVoid (Fulfilled ())) st1
      = Some (st2, Returned (success ()), evs2)
    ∧ registry (created_kind w) st2 !! id = None
    ∧ EvClose h ∈ aggregate_closes (clientObjects st2 !!! l).
Proof.
  intros Hw [c Hc].
  assert (Hadded : ∀ k, EvClose h ∈ aggregate_closes (client_add k h c)).
  { intros k. unfold aggregate_closes.
    destruct k; simpl; rewrite ?fmap_app, ?elem_of_app; simpl;
      rewrite ?list_elem_of_singleton; auto 10 using list_elem_of_here. }
  destruct w; [| | |done]; eexists _, _, _, _, _;
    (split; [reflexivity|]); simpl;
    (split; [apply lookup_insert_eq|]);
    (split; [reflexivity|]); simpl;
    (split; [apply lookup_delete_eq|]);
    rewrite lookup_total_alter_eq, Hc; apply Hadded.
Qed.

Lemma closed_resource_stays_in_client_set_witness :
  CreateReader ≠ StartConsumer
  ∧ is_Some (clientObjects (main busy) !! 0)
  ∧ ∃ (st2 : MainState) (id : string),
      registry Reader st2 !! id = None
      ∧ EvClose 11 ∈ aggregate_closes (clientObjects st2 !!! 0).
Proof.
  assert (Hw : CreateReader ≠ StartConsumer) by discriminate.
  assert (Hc : is_Some (clientObjects (main busy) !! 0))
    by (eexists; vm_compute; reflexivity).
  split; [exact Hw|]. split; [exact Hc|].
  destruct (closed_resource_stays_in_client_set CreateReader 0 "t" 11
              (main busy) Hw Hc)
    as (st1 & st2 & id & evs1 & evs2 & _ & _ & _ & Hgone & Hclosed).
  exists st2, id. split; [exact Hgone|exact Hclosed].
Defined.

(** ** What decides the outcome of a disconnect *)

Lemma console_lines_app (evs1 evs2 : list event) :
  console_lines (evs1 ++ evs2) = console_lines evs1 + console_lines evs2.
Proof. unfold console_lines. by rewrite List.filter_app, length_app. Qed.

Lemma console_lines_close_errors (what : string) (rs : list (settled unit)) :
  console_lines (close_errors what rs) = rejections rs.
Proof.
  unfold console_lines, rejections.
  induction rs as [|[u|e] rs IH]; simpl; [done|done|]. by rewrite IH.
Qed.

Lemma console_lines_fmap_close (hs : list handle) :
  console_lines (EvClose <$> hs) = 0.
Proof. unfold console_lines. by induction hs. Qed.

(** X7.  Inside a disconnect, the closes of the individual producers,
    consumers and readers cannot fail the call: each rejection is logged
    with one [console.error] and the close goes on.  Only the close of the
    native client decides.  When it is fulfilled the answer is success and
    the entry is deleted.  When it is rejected the answer carries its
    message, the connection stays registered with a client whose three sets
    are already empty, and a retry of the disconnect has only the native
    client left to close. *)
Theorem disconnect_outcome_is_native_close
    (st : MainState) (id : string) (conn : ClusterConnection) (n : handle)
    (rs1 rs2 rs3 : list (settled unit)) (r : settled unit) :
  connectedClusters st !! id = Some conn →
  PulsarClient.client (clientObjects st !!! client conn) = Some n →
  ∃ (sts : list MainState) (st' : MainState) (evs : list event),
    handler_run cluster_disconnect_resume
      [CAll rs1; CAll rs2; CAll rs3; CVoid r]
      {| disconnect_id := id; disconnect_client := client conn;
         disconnect_at := AwaitProducers |} st
    = Some (sts, st',
            Returned match r with
                     | Fulfilled _ => success ()
                     | Rejected e =>
                         error ("Failed to disconnect cluster: " +:+ e)
                     end,
            evs)
    ∧ console_lines evs = rejections rs1 + rejections rs2 + rejections rs3
    ∧ match r with
      | Fulfilled _ =>
          connectedClusters st' = delete id (connectedClusters st)
          ∧ aggregate_closes (clientObjects st' !!! client conn) = []
      | Rejected _ =>
          connectedClusters st' = connectedClusters st
          ∧ aggregate_closes (clientObjects st' !!! client conn)
            = [EvClientClose n]
      end.
Proof.
  intros Hconn Hclient.
  unfold handler_run, cluster_disconnect_resume.
  repeat (cbn [disconnect_at disconnect_client disconnect_id
               client_close_resume set_clientObjects clientObjects
               PulsarClient.client set_client_producers set_client_consumers
               set_client_readers];
          rewrite ?lookup_total_insert_eq, ?Hclient).
  destruct r as [[]|e];
    repeat (cbn [disconnect_at disconnect_client disconnect_id
                 client_close_resume set_clientObjects clientObjects
                 set_connectedClusters connectedClusters
                 PulsarClient.client set_client_producers
                 set_client_consumers set_client_readers];
            rewrite ?lookup_total_insert_eq, ?Hclient);
    eexists _, _, _; (split; [reflexivity|]);
    rewrite !app_nil_r, !console_lines_app, !console_lines_close_errors,
      !console_lines_fmap_close;
    (split; [change (console_lines [EvClientClose n]) with 0; lia|]);
    cbn [clientObjects connectedClusters set_connectedClusters
         set_clientObjects];
    rewrite lookup_total_insert_eq; (split; [done|]);
    unfold aggregate_closes; simpl; by rewrite ?Hclient.
Qed.

Lemma disconnect_outcome_is_native_close_witness :
  connectedClusters (main busy) !! "c1" = Some example_connection
  ∧ PulsarClient.client (clientObjects (main busy) !!! 0) = Some 9
  ∧ ∃ (sts : list MainState) (st' : MainState) (evs : list event),
      handler_run cluster_disconnect_resume
        [CAll [Rejected "AlreadyClosed"];
         CAll [Fulfilled (); Rejected "AlreadyClosed"];
         CAll [Fulfilled ()];
         CVoid (Rejected "ConnectError")]
        {| disconnect_id := "c1"; disconnect_client := 0;
           disconnect_at := AwaitProducers |} (main busy)
      = Some (sts, st',
              Returned (error "Failed to disconnect cluster: ConnectError"),
              evs)
      ∧ console_lines evs = 2
      ∧ connectedClusters st' !! "c1" = Some example_connection
      ∧ aggregate_closes (clientObjects st' !!! 0) = [EvClientClose 9].
Proof.
  assert (Hconn : connectedClusters (main busy) !! "c1"
                  = Some example_connection) by (vm_compute; reflexivity).
  assert (Hclient : PulsarClient.client
                      (clientObjects (main busy) !!! client example_connection)
                    = Some 9) by (vm_compute; reflexivity).
  split; [exact Hconn|]. split; [exact Hclient|].
  destruct (disconnect_outcome_is_native_close (main busy) "c1"
              example_connection 9 [Rejected "AlreadyClosed"]
              [Fulfilled (); Rejected "AlreadyClosed"] [Fulfilled ()]
              (Rejected "ConnectError") Hconn Hclient)
    as (sts & st' & evs & Hrun & Hlines & Hkept & Hretry).
  exists sts, st', evs. split; [exact Hrun|]. split; [exact Hlines|].
  split; [by rewrite Hkept|exact Hretry].
Defined.


(** ** More on the streaming consumer loop *)

Lemma receives_issued_app (evs1 evs2 : list event) :
  receives_issued (evs1 ++ evs2) = receives_issued evs1 + receives_issued evs2.
Proof. unfold receives_issued. by rewrite List.filter_app, length_app. Qed.

Lemma receives_settled_cons (i : loop_input) (inputs : list loop_input) :
  receives_settled (i :: inputs)
  = receives_settled [i] + receives_settled inputs.
Proof. unfold receives_settled. simpl. by case_match. Qed.

(** One turn of the loop: a receive is issued only when none is pending,
    and a pending one is settled by the turn that consumes it. *)
Lemma loop_resume_in_flight (w : bool) (sc : StreamingConsumer)
    (pc pc' : loop_pc) (k : completion) (evs : list event) :
  loop_resume w sc pc k = Some (pc', evs) →
  in_flight pc + receives_issued evs
  = receives_settled [(w, sc, k)] + in_flight pc'.
Proof.
  unfold loop_resume, loop_top, loop_catch, PulsarClient.receive_timeout.
  intros Hresume.
  destruct pc as [| |m| |], k as [|[nm|e]|[u|e]|rs| |r]; simplify_eq;
    destruct w, (stopRequested sc), (paused sc); simpl in *; simplify_eq;
    done.
Qed.

(** X8.  A streaming consumer never has more than one receive in flight.
    Over any run of its loop, the receives issued so far exceed the
    receives settled so far by one exactly when the loop is suspended in a
    receive, and by none otherwise. *)
Theorem loop_one_receive_in_flight
    (pc pc' : loop_pc) (inputs : list loop_input) (evs : list event) :
  loop_run pc inputs = Some (pc', evs) →
  in_flight pc + receives_issued evs
  = receives_settled inputs + in_flight pc'
  ∧ (in_flight pc + receives_issued evs - receives_settled inputs ≤ 1)%nat.
Proof.
  intros Hrun.
  assert (Hcount : in_flight pc + receives_issued evs
                   = receives_settled inputs + in_flight pc').
  { revert pc pc' evs Hrun.
    induction inputs as [|[[w sc] k] inputs IH]; intros pc pc' evs Hrun;
      simpl in Hrun;
      [simplify_eq; unfold receives_issued, receives_settled; simpl; lia|].
    destruct (loop_resume w sc pc k) as [[pc1 evs1]|] eqn:Hstep; [|done].
    destruct (loop_run pc1 inputs) as [[pc2 evs2]|] eqn:Hrest; simplify_eq.
    apply loop_resume_in_flight in Hstep. apply IH in Hrest.
    rewrite receives_issued_app, receives_settled_cons.
    rewrite Nat.add_assoc, Hstep, <- !Nat.add_assoc. by rewrite Hrest. }
  split; [done|].
  rewrite Hcount. destruct pc'; simpl; lia.
Qed.

Lemma loop_one_receive_in_flight_witness :
  let inputs : list loop_input :=
    [(true, example_consumer, CReceived (Rejected "TimeOut"));
     (true, example_consumer, CReceived (Fulfilled (example_message "1:0" "a")));
     (true, example_consumer, CVoid (Fulfilled ()))] in
  ∃ evs : list event,
    loop_run LReceiving inputs = Some (LReceiving, evs)
    ∧ 1 + receives_issued evs = receives_settled inputs + 1
    ∧ receives_settled inputs = 2.
Proof.
  intros inputs. eexists.
  match goal with
  | |- ?H ∧ _ => assert (Hrun : H) by reflexivity
  end.
  split; [exact Hrun|].
  destruct (loop_one_receive_in_flight _ _ _ _ Hrun) as [Hcount _].
  split; [exact Hcount|reflexivity].
Defined.

Lemma acknowledged_app (evs1 evs2 : list event) :
  acknowledged (evs1 ++ evs2) = acknowledged evs1 ++ acknowledged evs2.
Proof. apply omap_app. Qed.

Lemma loop_resume_acknowledged (w : bool) (sc : StreamingConsumer)
    (pc pc' : loop_pc) (k : completion) (evs : list event) :
  loop_resume w sc pc k = Some (pc', evs) →
  acknowledged evs = received_open [(w, sc, k)].
Proof.
  unfold loop_resume, loop_top, loop_catch, PulsarClient.receive_timeout,
    received_open.
  intros Hresume. simpl.
  destruct pc as [| |m| |], k as [|[nm|e]|[u|e]|rs| |r]; simplify_eq;
    try done;
    destruct w, (stopRequested sc), (paused sc); simpl in *; simplify_eq;
    done.
Qed.

(** X9.  The loop acknowledges exactly the messages it pushes, in the same
    order: those received while the window existed and no stop had been
    requested.  A message that is dropped is never acknowledged, so the
    broker still holds it for redelivery. *)
Theorem loop_acknowledges_what_it_pushes
    (pc pc' : loop_pc) (inputs : list loop_input) (evs : list event) :
  loop_run pc inputs = Some (pc', evs) →
  acknowledged evs = received_open inputs
  ∧ pushed evs = browsedMsg <$> acknowledged evs.
Proof.
  intros Hrun.
  assert (Hack : acknowledged evs = received_open inputs).
  { revert pc pc' evs Hrun.
    induction inputs as [|[[w sc] k] inputs IH]; intros pc pc' evs Hrun;
      simpl in Hrun; [by simplify_eq|].
    destruct (loop_resume w sc pc k) as [[pc1 evs1]|] eqn:Hstep; [|done].
    destruct (loop_run pc1 inputs) as [[pc2 evs2]|] eqn:Hrest; simplify_eq.
    rewrite acknowledged_app, (loop_resume_acknowledged _ _ _ _ _ _ Hstep),
      (IH _ _ _ Hrest).
    change ((w, sc, k) :: inputs) with ([(w, sc, k)] ++ inputs).
    unfold received_open. by rewrite omap_app. }
  split; [done|]. rewrite Hack. by eapply loop_run_pushed.
Qed.

Lemma loop_acknowledges_what_it_pushes_witness :
  let a := example_message "1:0" "a" in
  let b := example_message "1:1" "b" in
  let inputs : list loop_input :=
    [(false, example_consumer, CReceived (Fulfilled a));
     (true, example_consumer, CReceived (Fulfilled b))] in
  ∃ evs : list event,
    loop_run LReceiving inputs
    = Some (LAcknowledging (PulsarClient.convertMessage b), evs)
    ∧ acknowledged evs = [PulsarClient.convertMessage b].
Proof.
  intros a b inputs. eexists.
  match goal with
  | |- ?H ∧ _ => assert (Hrun : H) by reflexivity
  end.
  split; [exact Hrun|].
  destruct (loop_acknowledges_what_it_pushes _ _ _ _ Hrun) as [Hack _].
  rewrite Hack. reflexivity.
Defined.

Lemma loop_resume_events (w : bool) (sc sc' : StreamingConsumer)
    (pc pc' : loop_pc) (k : completion) (evs : list event) :
  consumerId sc' = consumerId sc → consumer sc' = consumer sc →
  loop_resume w sc' pc k = Some (pc', evs) →
  forallb (loop_event_of sc) evs = true.
Proof.
  unfold loop_resume, loop_top, loop_catch, PulsarClient.receive_timeout.
  intros Hid Hc Hresume. rewrite Hid, Hc in Hresume.
  destruct pc as [| |m| |], k as [|[nm|e]|[u|e]|rs| |r]; simplify_eq;
    destruct w, (stopRequested sc'), (paused sc'); simpl in *; simplify_eq;
    simpl; rewrite ?Nat.eqb_refl, ?String.eqb_refl; done.
Qed.

(** X10.  The receive loop of a streaming consumer never writes to the
    console, never closes anything and never creates anything.  All it asks
    for is a 100 ms sleep, a receive on its own consumer bounded by one
    second, a push on the [messages:received] channel under its own id, or
    an acknowledge on its own consumer: no receive is unbounded and a
    failing stream stays silent. *)
Theorem loop_only_sleeps_receives_pushes_acknowledges
    (sc : StreamingConsumer) (pc pc' : loop_pc) (inputs : list loop_input)
    (evs : list event) :
  Forall (λ i : loop_input,
            consumerId i.1.2 = consumerId sc ∧ consumer i.1.2 = consumer sc)
    inputs →
  loop_run pc inputs = Some (pc', evs) →
  forallb (loop_event_of sc) evs = true
  ∧ forallb (λ e, negb (is_console e) && negb (is_close e)) evs = true.
Proof.
  intros Hsame Hrun.
  assert (Hevents : forallb (loop_event_of sc) evs = true).
  { revert pc pc' evs Hrun.
    induction Hsame as [|[[w sc'] k] inputs [Hid Hc] _ IH];
      intros pc pc' evs Hrun; simpl in Hrun; [by simplify_eq|].
    simpl in Hid, Hc.
    destruct (loop_resume w sc' pc k) as [[pc1 evs1]|] eqn:Hstep; [|done].
    destruct (loop_run pc1 inputs) as [[pc2 evs2]|] eqn:Hrest; simplify_eq.
    rewrite forallb_app, (IH _ _ _ Hrest), andb_true_r.
    by eapply loop_resume_events. }
  split; [done|].
  rewrite forallb_forall in Hevents. apply forallb_forall.
  intros e He. specialize (Hevents e He). by destruct e.
Qed.

Lemma loop_only_sleeps_receives_pushes_acknowledges_witness :
  let inputs : list loop_input :=
    [(true, example_consumer, CReceived (Rejected "ConnectError"));
     (true, set_paused true example_consumer,
      CReceived (Fulfilled (example_message "1:0" "a")));
     (true, set_paused true example_consumer, CVoid (Rejected "Timeout"));
     (true, set_paused true example_consumer, CTimer)] in
  ∃ evs : list event,
    loop_run LReceiving inputs = Some (LPaused, evs)
    ∧ length evs = 5
    ∧ forallb (λ e, negb (is_console e) && negb (is_close e)) evs = true.
Proof.
  intros inputs. eexists.
  match goal with
  | |- ?H ∧ _ => assert (Hrun : H) by reflexivity
  end.
  split; [exact Hrun|]. split; [reflexivity|].
  apply (loop_only_sleeps_receives_pushes_acknowledges example_consumer
           _ _ _ _) in Hrun as [_ Hsilent]; [exact Hsilent|].
  repeat constructor.
Defined.

(** ** More on the teardown *)

Lemma console_lines_log_rejection (what e : string) :
  console_lines (log_rejection what (Rejected e)) = 1.
Proof. done. Qed.

Lemma quit_clusters_client_field (rest : list (string * ClusterConnection))
    (st : MainState) (l : loc) (c : PulsarClient.PulsarMessageClient) :
  (quit_clusters rest (set_clientObjects <[l := c]> st)).1.2
  = (quit_clusters rest
       (set_clientObjects <[l := set_client_client None c]> st)).1.2
  ∧ (quit_clusters rest (set_clientObjects <[l := c]> st)).2
    = (quit_clusters rest
         (set_clientObjects <[l := set_client_client None c]> st)).2
  ∧ connectedClusters
      (quit_clusters rest (set_clientObjects <[l := c]> st)).1.1
    = connectedClusters
        (quit_clusters rest
           (set_clientObjects <[l := set_client_client None c]> st)).1.1.
Proof.
  destruct rest as [|[id conn] rest]; [done|]. simpl.
  destruct (decide (l = client conn)) as [->|Hne].
  - by rewrite !lookup_total_insert_eq.
  - by rewrite !lookup_total_insert_ne.
Qed.

Lemma quit_clusters_registries (rest : list (string * ClusterConnection))
    (st : MainState) :
  producers (quit_clusters rest st).1.1 = producers st
  ∧ consumers (quit_clusters rest st).1.1 = consumers st
  ∧ readers (quit_clusters rest st).1.1 = readers st
  ∧ streamingConsumers (quit_clusters rest st).1.1 = streamingConsumers st.
Proof. by destruct rest as [|[id conn] rest]. Qed.

(** X11.  A rejected close never stops the teardown.  Wherever the
    before-quit handler waits for a close (of a producer, of a consumer, of
    a streaming consumer, of the native client of a cluster), a rejection
    takes it to the same next step as a fulfilment would, issues the same
    closes and leaves the same registries; the only difference is one more
    [console.error]. *)
Theorem teardown_goes_on_after_rejected_close
    (pc pc' : quit_pc) (st st' : MainState) (e : string) (evs : list event) :
  before_quit_resume pc (CVoid (Rejected e)) st = Some (st', pc', evs) →
  ∃ (st0 : MainState) (evs0 : list event),
    before_quit_resume pc (CVoid (Fulfilled ())) st = Some (st0, pc', evs0)
    ∧ console_lines evs = S (console_lines evs0)
    ∧ native_closes evs = native_closes evs0
    ∧ producers st' = producers st0
    ∧ consumers st' = consumers st0
    ∧ readers st' = readers st0
    ∧ streamingConsumers st' = streamingConsumers st0
    ∧ connectedClusters st' = connectedClusters st0.
Proof.
  unfold before_quit_resume. intros Hresume.
  destruct pc as [[|[id h] rest]|[|[id h] rest]|p [|[id l] rest]
                 |[|[id l] rest]|[|[id conn] rest] cpc|]; simplify_eq.
  - destruct (quit_producers rest st) as [[st1 pc1] evs1].
    unfold prepend_events in *. simpl in *. simplify_eq.
    eexists _, _. split; [reflexivity|]. by repeat split.
  - destruct (quit_consumers rest st) as [[st1 pc1] evs1].
    unfold prepend_events in *. simpl in *. simplify_eq.
    eexists _, _. split; [reflexivity|]. by repeat split.
  - destruct (quit_streaming rest st) as [[st1 pc1] evs1].
    unfold prepend_events in *. simpl in *. simplify_eq.
    eexists _, _. split; [reflexivity|]. by repeat split.
  - destruct cpc; simplify_eq. simpl in *.
    pose proof (quit_clusters_client_field rest st (client conn)
                  (clientObjects st !!! client conn)) as (Hpc & Hevs & Hmap).
    pose proof (quit_clusters_registries rest
                  (set_clientObjects
                     <[client conn := clientObjects st !!! client conn]> st))
      as (Hp1 & Hc1 & Hr1 & Hs1).
    pose proof (quit_clusters_registries rest
                  (set_clientObjects
                     <[client conn := set_client_client None
                                        (clientObjects st !!! client conn)]>
                     st))
      as (Hp2 & Hc2 & Hr2 & Hs2).
    destruct (quit_clusters rest
                (set_clientObjects
                   <[client conn := clientObjects st !!! client conn]> st))
      as [[st1 pc1] evs1].
    destruct (quit_clusters rest
                (set_clientObjects
                   <[client conn := set_client_client None
                                      (clientObjects st !!! client conn)]> st))
      as [[st2 pc2] evs2] eqn:Hok.
    unfold prepend_events in *. simpl in *. simplify_eq.
    eexists _, _. split; [reflexivity|]. simpl.
    split; [done|]. split; [done|].
    rewrite Hp1, Hc1, Hr1, Hs1, Hp2, Hc2, Hr2, Hs2. done.
Qed.

Lemma teardown_goes_on_after_rejected_close_witness :
  let pc := QuitProducer [("producer_1", 7)] in
  ∃ (st' : MainState) (pc' : quit_pc) (evs : list event),
    before_quit_resume pc (CVoid (Rejected "AlreadyClosed")) one_producer
    = Some (st', pc', evs)
    ∧ pc' = QuitDone
    ∧ console_lines evs = 1
    ∧ producers st' = ∅.
Proof.
  intros pc. eexists _, _, _.
  match goal with
  | |- ?H ∧ _ => assert (Hresume : H) by (vm_compute; reflexivity)
  end.
  split; [exact Hresume|].
  destruct (teardown_goes_on_after_rejected_close _ _ _ _ _ _ Hresume)
    as (st0 & evs0 & Hok & Hlines & _ & Hproducers & _).
  split; [reflexivity|]. split; [reflexivity|].
  rewrite Hproducers. vm_compute in Hok. by injection Hok as <- _.
Defined.

(** ** Ids *)

Lemma created_id_inj (w w' : create_what) (n n' : nat) :
  created_id w n = created_id w' n' → w = w' ∧ n = n'.
Proof.
  destruct w, w'; simpl; unfold producer_id, consumer_id, reader_id,
    streaming_consumer_id; simpl; intros Heq; try discriminate;
    split; try reflexivity; injection Heq as Heq; by apply (inj pretty).
Qed.

Lemma registries_shrink_refl (st : MainState) : registries_shrink st st.
Proof. by split. Qed.

Lemma ids_inv_shrink (st st' : MainState) :
  ids_inv st → registries_shrink st st' → ids_inv st'.
Proof.
  intros Hinv [Hkeys Hcount] w id Hreg.
  destruct (Hinv w id (Hkeys w id Hreg)) as (n & -> & Hn).
  exists n. split; [done|]. specialize (Hcount w). lia.
Qed.

(** A turn that changes neither the four maps nor the counters. *)
Lemma registries_shrink_same (st st' : MainState) :
  producers st' = producers st →
  consumers st' = consumers st →
  readers st' = readers st →
  streamingConsumers st' = streamingConsumers st →
  producerIdCounter st' = producerIdCounter st →
  consumerIdCounter st' = consumerIdCounter st →
  registries_shrink st st'.
Proof.
  intros Hp Hc Hr Hs Hpc Hcc. split.
  - intros [] id; simpl; by rewrite ?Hp, ?Hc, ?Hr, ?Hs.
  - intros []; simpl; lia.
Qed.

Lemma cluster_connect_shrink (config : ClusterConfig) (now : Z)
    (st st' : MainState) (resp : IPCResponse ConnectedCluster) :
  cluster_connect config now st = (st', resp) → registries_shrink st st'.
Proof.
  unfold cluster_connect. intros Hcall.
  repeat case_match; simplify_eq; by apply registries_shrink_same.
Qed.

Lemma cluster_disconnect_start_shrink (id : string) (st st' : MainState)
    (r : step disconnect_task (IPCResponse unit)) (evs : list event) :
  cluster_disconnect_start id st = (st', r, evs) → registries_shrink st st'.
Proof.
  unfold cluster_disconnect_start. intros Hcall.
  repeat case_match; simplify_eq; by apply registries_shrink_same.
Qed.

Lemma cluster_disconnect_resume_shrink (t : disconnect_task) (k : completion)
    (st st' : MainState) (r : step disconnect_task (IPCResponse unit))
    (evs : list event) :
  cluster_disconnect_resume t k st = Some (st', r, evs) →
  registries_shrink st st'.
Proof.
  unfold cluster_disconnect_resume. intros Hcall.
  repeat case_match; simplify_eq; by apply registries_shrink_same.
Qed.

Lemma create_start_shrink (w : create_what) (clusterId topic : string)
    (fc : handle) (st st' : MainState)
    (r : step create_task (IPCResponse string)) (evs : list event) :
  create_start w clusterId topic fc st = (st', r, evs) →
  registries_shrink st st'.
Proof.
  unfold create_start. intros Hcall.
  repeat case_match; simplify_eq; by apply registries_shrink_same.
Qed.

Lemma resource_close_start_shrink (k : kind) (id : string)
    (st st' : MainState) (r : step close_task (IPCResponse unit))
    (evs : list event) :
  resource_close_start k id st = (st', r, evs) → registries_shrink st st'.
Proof.
  unfold resource_close_start. intros Hcall.
  repeat case_match; simplify_eq; by apply registries_shrink_same.
Qed.

Lemma resource_close_resume_shrink (t : close_task) (k : completion)
    (st st' : MainState) (r : step close_task (IPCResponse unit))
    (evs : list event) :
  resource_close_resume t k st = Some (st', r, evs) →
  registries_shrink st st'.
Proof.
  unfold resource_close_resume. intros Hcall.
  destruct k as [| |[u|e]| | |]; simplify_eq;
    [|by apply registries_shrink_refl].
  split; [|intros []; destruct (close_kind t); simpl; lia].
  intros w id. destruct w, (close_kind t); simpl; try done;
    intros [h Hh]; apply lookup_delete_Some in Hh as [_ Hh]; by exists h.
Qed.

Lemma consumer_acknowledge_shrink (cid mid : string) (st st' : MainState)
    (resp : IPCResponse unit) (evs : list event) :
  consumer_acknowledge cid mid st = (st', resp, evs) →
  registries_shrink st st'.
Proof.
  unfold consumer_acknowledge. intros Hcall.
  repeat case_match; simplify_eq; by apply registries_shrink_same.
Qed.

Lemma pauseConsumer_shrink (cid : string) (st st' : MainState)
    (resp : IPCResponse unit) :
  pauseConsumer cid st = (st', resp) → registries_shrink st st'.
Proof.
  unfold pauseConsumer. intros Hcall.
  repeat case_match; simplify_eq; by apply registries_shrink_same.
Qed.

Lemma stopConsumer_start_shrink (cid : string) (st st' : MainState)
    (r : step stop_task (IPCResponse unit)) (evs : list event) :
  stopConsumer_start cid st = (st', r, evs) → registries_shrink st st'.
Proof.
  unfold stopConsumer_start. intros Hcall.
  repeat case_match; simplify_eq; by apply registries_shrink_same.
Qed.

Lemma stopConsumer_resume_shrink (t : stop_task) (k : completion)
    (st st' : MainState) (r : step stop_task (IPCResponse unit))
    (evs : list event) :
  stopConsumer_resume t k st = Some (st', r, evs) → registries_shrink st st'.
Proof.
  unfold stopConsumer_resume. intros Hcall.
  repeat case_match; simplify_eq; try by apply registries_shrink_same.
  split; [|intros []; simpl; lia].
  intros [] id; simpl; try done.
  intros [h Hh]; apply lookup_delete_Some in Hh as [_ Hh]; by exists h.
Qed.

(** What a create handler does to the maps and the counters when its
    native call was fulfilled. *)
Lemma create_resume_registers (t : create_task) (k : completion)
    (st st' : MainState) (id : string) (evs : list event)
    (started : option (loc * loop_pc)) :
  create_resume t k st = Some (st', success id, evs, started) →
  id = created_id (create_op t) (S (counter_of (create_op t) st))
  ∧ counter_of (create_op t) st' = S (counter_of (create_op t) st)
  ∧ (∀ w', (counter_of w' st ≤ counter_of w' st')%nat)
  ∧ registered (create_op t) st' id
  ∧ (∀ w' id', registered w' st' id' →
               (w' = create_op t ∧ id' = id) ∨ registered w' st id')
  ∧ (∀ k' id', id' ≠ id → registry k' st' !! id' = registry k' st !! id')
  ∧ (∀ id', id' ≠ id →
            streamingConsumers st' !! id' = streamingConsumers st !! id')
  ∧ ∃ h, k = CCreated (Fulfilled h)
         ∧ match create_op t with
           | StartConsumer =>
               ∃ l, streamingConsumers st' !! id = Some l
                    ∧ consumer <$> streamingObjects st' !! l = Some h
                    ∧ streamingObjects st !! l = None
           | w => registry (created_kind w) st' !! id = Some h
           end.
Proof.
  unfold create_resume. intros Hresume.
  destruct k as [| | | | |[h|e]]; simplify_eq.
  destruct (create_op t) eqn:Hop; simpl in *; simplify_eq; simpl.
  - split; [done|]. split; [done|]. split; [intros []; simpl; lia|].
    split; [by rewrite lookup_insert_eq|].
    split.
    { intros [] id'; simpl; auto.
      destruct (decide (id' = producer_id (S (producerIdCounter st))))
        as [->|Hne]; [by left|]. rewrite lookup_insert_ne by done. auto. }
    split.
    { intros [] id' Hne; simpl; [|done|done]. by rewrite lookup_insert_ne. }
    split; [done|]. exists h. split; [done|]. by rewrite lookup_insert_eq.
  - split; [done|]. split; [done|]. split; [intros []; simpl; lia|].
    split; [by rewrite lookup_insert_eq|].
    split.
    { intros [] id'; simpl; auto.
      destruct (decide (id' = consumer_id (S (consumerIdCounter st))))
        as [->|Hne]; [by left|]. rewrite lookup_insert_ne by done. auto. }
    split.
    { intros [] id' Hne; simpl; [done| |done]. by rewrite lookup_insert_ne. }
    split; [done|]. exists h. split; [done|]. by rewrite lookup_insert_eq.
  - split; [done|]. split; [done|]. split; [intros []; simpl; lia|].
    split; [by rewrite lookup_insert_eq|].
    split.
    { intros [] id'; simpl; auto.
      destruct (decide (id' = reader_id (S (consumerIdCounter st))))
        as [->|Hne]; [by left|]. rewrite lookup_insert_ne by done. auto. }
    split.
    { intros [] id' Hne; simpl; [done|done|]. by rewrite lookup_insert_ne. }
    split; [done|]. exists h. split; [done|]. by rewrite lookup_insert_eq.
  - split; [done|]. split; [done|]. split; [intros []; simpl; lia|].
    split; [by rewrite lookup_insert_eq|].
    split.
    { intros [] id'; simpl; auto.
      destruct (decide (id' = streaming_consumer_id
                                (S (consumerIdCounter st))))
        as [->|Hne]; [by left|]. rewrite lookup_insert_ne by done. auto. }
    split; [by intros [] id' Hne|].
    split; [intros id' Hne; by rewrite lookup_insert_ne|].
    exists h. split; [done|].
    exists (fresh (dom (streamingObjects st))).
    rewrite !lookup_insert_eq. split; [done|]. split; [done|].
    apply not_elem_of_dom, is_fresh.
Qed.

Lemma create_resume_ids_inv (t : create_task) (k : completion)
    (st st' : MainState) (resp : IPCResponse string) (evs : list event)
    (started : option (loc * loop_pc)) :
  ids_inv st →
  create_resume t k st = Some (st', resp, evs, started) →
  ids_inv st'.
Proof.
  intros Hinv Hresume.
  assert (Hcases : st' = st ∨ ∃ id, resp = success id).
  { unfold create_resume in Hresume.
    destruct k as [| | | | |[h|e]]; simplify_eq; [|by left].
    right. destruct (create_op t); simpl in *; simplify_eq; by eexists. }
  destruct Hcases as [->|[id ->]]; [done|].
  destruct (create_resume_registers _ _ _ _ _ _ _ Hresume)
    as (Hid & Hcount & Hmono & _ & Hkeys & _).
  intros w' id' Hreg.
  destruct (Hkeys w' id' Hreg) as [[-> ->]|Hold].
  - exists (S (counter_of (create_op t) st)). split; [done|]. lia.
  - destruct (Hinv w' id' Hold) as (n & -> & Hn). exists n.
    split; [done|]. specialize (Hmono w'). lia.
Qed.

(** A turn either adds nothing to the maps, or is a create handler that
    goes on after its native call. *)
Lemma sys_step_main (a : action) (s s' : Sys) (evs : list event)
    (r : option reply) :
  sys_step a s = Some (s', evs, r) →
  registries_shrink (main s) (main s')
  ∨ ∃ (t : create_task) (k : completion) (resp : IPCResponse string)
      (started : option (loc * loop_pc)),
      create_resume t k (main s) = Some (main s', resp, evs, started).
Proof.
  intros Hstep.
  destruct a as [i c|i k|l k|w]; simpl in Hstep.
  - destruct (tasks s !! i) as [?|]; [done|]. injection Hstep as Hstep.
    left.
    destruct c as [config now|clusterId|w clusterId topic fc|kd cid|cid mid
                  |cid|cid]; simpl in Hstep.
    + destruct (cluster_connect config now (main s)) as [st resp] eqn:Hcall.
      simplify_eq. simpl. by eapply cluster_connect_shrink.
    + destruct (cluster_disconnect_start clusterId (main s))
        as [[st [t|resp]] evs0] eqn:Hcall; simpl in Hstep; simplify_eq;
        simpl; by eapply cluster_disconnect_start_shrink.
    + destruct (create_start w clusterId topic fc (main s))
        as [[st [t|resp]] evs0] eqn:Hcall; simplify_eq;
        simpl; by eapply create_start_shrink.
    + destruct (resource_close_start kd cid (main s))
        as [[st [t|resp]] evs0] eqn:Hcall; simpl in Hstep; simplify_eq;
        simpl; by eapply resource_close_start_shrink.
    + destruct (consumer_acknowledge cid mid (main s))
        as [[st resp] evs0] eqn:Hcall.
      simplify_eq. simpl. by eapply consumer_acknowledge_shrink.
    + destruct (pauseConsumer cid (main s)) as [st resp] eqn:Hcall.
      simplify_eq. simpl. by eapply pauseConsumer_shrink.
    + destruct (stopConsumer_start cid (main s))
        as [[st [t|resp]] evs0] eqn:Hcall; simpl in Hstep; simplify_eq;
        simpl; by eapply stopConsumer_start_shrink.
  - destruct (tasks s !! i) as [t|]; [|done].
    destruct (joinable s t k); [|done].
    destruct t as [t|t|t|t]; simpl in Hstep.
    + left. destruct (cluster_disconnect_resume t k (main s))
        as [[[st [t'|resp]] evs0]|] eqn:Hcall; simpl in Hstep; simplify_eq;
        simpl; by eapply cluster_disconnect_resume_shrink.
    + left. destruct (resource_close_resume t k (main s))
        as [[[st [t'|resp]] evs0]|] eqn:Hcall; simpl in Hstep; simplify_eq;
        simpl; by eapply resource_close_resume_shrink.
    + right. destruct (create_resume t k (main s))
        as [[[[st resp] evs0] started]|] eqn:Hcall; simplify_eq.
      simpl. by exists t, k, resp, started.
    + left. destruct (stopConsumer_resume t k (main s))
        as [[[st [t'|resp]] evs0]|] eqn:Hcall; simpl in Hstep; simplify_eq;
        simpl; by eapply stopConsumer_resume_shrink.
  - left. destruct (loops s !! l) as [pc|]; [|done].
    destruct (loop_resume _ _ pc k) as [[pc' evs0]|]; simplify_eq.
    apply registries_shrink_refl.
  - left. simplify_eq. by apply registries_shrink_same.
Qed.

Lemma create_resume_counters (t : create_task) (k : completion)
    (st st' : MainState) (resp : IPCResponse string) (evs : list event)
    (started : option (loc * loop_pc)) :
  create_resume t k st = Some (st', resp, evs, started) →
  ∀ w, (counter_of w st ≤ counter_of w st')%nat.
Proof.
  unfold create_resume. intros Hresume.
  destruct k as [| | | | |[h|e]]; simplify_eq; [|done].
  destruct (create_op t); simpl in *; simplify_eq; intros []; simpl; lia.
Qed.

Lemma sys_step_ids_inv (a : action) (s s' : Sys) (evs : list event)
    (r : option reply) :
  ids_inv (main s) → sys_step a s = Some (s', evs, r) → ids_inv (main s').
Proof.
  intros Hinv Hstep.
  destruct (sys_step_main _ _ _ _ _ Hstep)
    as [Hshrink|(t & k & resp & started & Hresume)].
  - by eapply ids_inv_shrink.
  - by eapply create_resume_ids_inv.
Qed.

Lemma sys_step_counters (a : action) (s s' : Sys) (evs : list event)
    (r : option reply) :
  sys_step a s = Some (s', evs, r) →
  ∀ w, (counter_of w (main s) ≤ counter_of w (main s'))%nat.
Proof.
  intros Hstep.
  destruct (sys_step_main _ _ _ _ _ Hstep)
    as [[_ Hcount]|(t & k & resp & started & Hresume)]; [done|].
  by eapply create_resume_counters.
Qed.

Lemma run_counters (acts : list action) :
  ∀ (s s' : Sys) (evs : list event),
    run acts s = Some (s', evs) →
    ∀ w, (counter_of w (main s) ≤ counter_of w (main s'))%nat.
Proof.
  induction acts as [|a acts IH]; intros s s' evs Hrun w; simpl in Hrun;
    [by simplify_eq|].
  destruct (sys_step a s) as [[[s1 evs1] r1]|] eqn:Hstep; [|done].
  destruct (run acts s1) as [[s2 evs2]|] eqn:Hrest; simplify_eq.
  pose proof (sys_step_counters _ _ _ _ _ Hstep w).
  pose proof (IH _ _ _ Hrest w). lia.
Qed.

Lemma run_ids_inv (acts : list action) :
  ∀ (s s' : Sys) (evs : list event),
    ids_inv (main s) → run acts s = Some (s', evs) → ids_inv (main s').
Proof.
  induction acts as [|a acts IH]; intros s s' evs Hinv Hrun; simpl in Hrun;
    [by simplify_eq|].
  destruct (sys_step a s) as [[[s1 evs1] r1]|] eqn:Hstep; [|done].
  destruct (run acts s1) as [[s2 evs2]|] eqn:Hrest; simplify_eq.
  eapply IH; [|done]. by eapply sys_step_ids_inv.
Qed.

Lemma ids_inv_initial : ids_inv initial_state.
Proof. intros [] id [h Hh]; simpl in Hh; by rewrite lookup_empty in Hh. Qed.

(** Only a create handler whose native call was fulfilled answers with a
    string. *)
Lemma sys_step_success_string (a : action) (s s' : Sys) (evs : list event)
    (id : string) :
  sys_step a s = Some (s', evs, Some (ReplyString (success id))) →
  ∃ (t : create_task) (k : completion) (started : option (loc * loop_pc)),
    create_resume t k (main s) = Some (main s', success id, evs, started).
Proof.
  intros Hstep.
  destruct a as [i c|i k|l k|w]; simpl in Hstep.
  - destruct (tasks s !! i) as [?|]; [done|]. injection Hstep as Hstep.
    destruct c as [config now|clusterId|w clusterId topic fc|kd cid|cid mid
                  |cid|cid]; simpl in Hstep.
    + by destruct (cluster_connect config now (main s)).
    + by destruct (cluster_disconnect_start clusterId (main s))
        as [[st [t|resp]] evs0].
    + unfold create_start in Hstep.
      destruct (connectedClusters (main s) !! clusterId); by simplify_eq.
    + by destruct (resource_close_start kd cid (main s))
        as [[st [t|resp]] evs0].
    + by destruct (consumer_acknowledge cid mid (main s)) as [[st resp] evs0].
    + by destruct (pauseConsumer cid (main s)).
    + by destruct (stopConsumer_start cid (main s)) as [[st [t|resp]] evs0].
  - destruct (tasks s !! i) as [t|]; [|done].
    destruct (joinable s t k); [|done].
    destruct t as [t|t|t|t]; simpl in Hstep.
    + by destruct (cluster_disconnect_resume t k (main s))
        as [[[st [t'|resp]] evs0]|].
    + by destruct (resource_close_resume t k (main s))
        as [[[st [t'|resp]] evs0]|].
    + destruct (create_resume t k (main s))
        as [[[[st resp] evs0] started]|] eqn:Hcall; simplify_eq.
      by exists t, k, started.
    + by destruct (stopConsumer_resume t k (main s))
        as [[[st [t'|resp]] evs0]|].
  - destruct (loops s !! l) as [pc|]; [|done].
    by destruct (loop_resume _ _ pc k) as [[pc' evs0]|].
  - done.
Qed.

(** X12.  A create handler never overwrites an entry.  In any state the
    main process can reach, the id that [producer:create],
    [consumer:create], [messages:browseMessages] or
    [messages:startConsumer] answers with was a key of none of the four
    maps before the call; afterwards it is registered, and every other
    entry of every map is as it was. *)
Theorem created_id_is_fresh (acts : list action) (s s' : Sys)
    (evs evs' : list event) (a : action) (id : string) :
  run acts initial_sys = Some (s, evs) →
  sys_step a s = Some (s', evs', Some (ReplyString (success id))) →
  (∀ w, ¬ registered w (main s) id)
  ∧ (∃ w, registered w (main s') id)
  ∧ (∀ k id', id' ≠ id →
              registry k (main s') !! id' = registry k (main s) !! id')
  ∧ (∀ id', id' ≠ id →
            streamingConsumers (main s') !! id'
            = streamingConsumers (main s) !! id').
Proof.
  intros Hrun Hstep.
  pose proof (run_ids_inv acts initial_sys _ _ ids_inv_initial Hrun) as Hinv.
  destruct (sys_step_success_string _ _ _ _ _ Hstep)
    as (t & k & started & Hresume).
  destruct (create_resume_registers _ _ _ _ _ _ _ Hresume)
    as (Hid & _ & _ & Hreg & _ & Hothers & Hstreaming & _).
  split; [|split; [by eexists|by split]].
  intros w Hold. destruct (Hinv w id Hold) as (n & Hn & Hle).
  rewrite Hid in Hn. apply created_id_inj in Hn as [<- <-]. lia.
Qed.

Lemma created_id_is_fresh_witness :
  sys_step (AResume 6 (CCreated (Fulfilled 5))) creating
  = Some (created, [], Some (ReplyString (success "consumer_4")))
  ∧ consumers (main created) !! "consumer_1" = Some 2.
Proof.
  assert (Hstep : sys_step (AResume 6 (CCreated (Fulfilled 5))) creating
                  = Some (created, [],
                          Some (ReplyString (success "consumer_4"))))
    by (vm_compute; reflexivity).
  split; [exact Hstep|].
  assert (Hrun : ∃ evs,
            run (setup ++ [AInvoke 6 (CallCreate CreateConsumer "c1" "t" 9)])
              initial_sys = Some (creating, evs))
    by (eexists; vm_compute; reflexivity).
  destruct Hrun as [evs Hrun].
  destruct (created_id_is_fresh _ _ _ _ _ _ _ Hrun Hstep)
    as (_ & _ & Hothers & _).
  etrans; [exact (Hothers Consumer "consumer_1" ltac:(done))|].
  vm_compute. reflexivity.
Defined.

(** X13.  An id is never handed out twice.  Whatever happens between two
    create calls that succeed (closes, stops, disconnects, other creates),
    the second answers with another id than the first, also when the first
    resource is long gone and also across the four kinds of resource. *)
Theorem created_ids_are_never_reused (a1 a2 : action) (acts : list action)
    (s0 s1 s2 s3 : Sys) (evs1 evs evs2 : list event) (id1 id2 : string) :
  sys_step a1 s0 = Some (s1, evs1, Some (ReplyString (success id1))) →
  run acts s1 = Some (s2, evs) →
  sys_step a2 s2 = Some (s3, evs2, Some (ReplyString (success id2))) →
  id1 ≠ id2.
Proof.
  intros Hfirst Hrun Hsecond Heq.
  destruct (sys_step_success_string _ _ _ _ _ Hfirst)
    as (t1 & k1 & started1 & Hresume1).
  destruct (sys_step_success_string _ _ _ _ _ Hsecond)
    as (t2 & k2 & started2 & Hresume2).
  destruct (create_resume_registers _ _ _ _ _ _ _ Hresume1)
    as (Hid1 & Hcount1 & _).
  destruct (create_resume_registers _ _ _ _ _ _ _ Hresume2)
    as (Hid2 & _).
  rewrite Hid1, Hid2 in Heq. apply created_id_inj in Heq as [Hop Hn].
  pose proof (run_counters _ _ _ _ Hrun (create_op t1)) as Hmono.
  rewrite Hop in *. lia.
Qed.

Lemma created_ids_are_never_reused_witness :
  consumers (main recreating) !! "consumer_4" = None
  ∧ ∃ s3 : Sys,
      sys_step (AResume 8 (CCreated (Fulfilled 6))) recreating
      = Some (s3, [], Some (ReplyString (success "consumer_5")))
      ∧ "consumer_4" ≠ "consumer_5".
Proof.
  split; [vm_compute; reflexivity|].
  assert (Hfirst : sys_step (AResume 6 (CCreated (Fulfilled 5))) creating
                   = Some (created, [],
                           Some (ReplyString (success "consumer_4"))))
    by (vm_compute; reflexivity).
  assert (Hrun : run close_and_create created
                 = Some (recreating, [EvClose 5; EvCreate Consumer "t"]))
    by (vm_compute; reflexivity).
  exists (default initial_sys
            ((λ r : Sys * list event * option reply, r.1.1)
             <$> sys_step (AResume 8 (CCreated (Fulfilled 6))) recreating)).
  assert (Hsecond :
            sys_step (AResume 8 (CCreated (Fulfilled 6))) recreating
            = Some (default initial_sys
                      ((λ r : Sys * list event * option reply, r.1.1)
                       <$> sys_step (AResume 8 (CCreated (Fulfilled 6)))
                             recreating),
                    [], Some (ReplyString (success "consumer_5"))))
    by (vm_compute; reflexivity).
  split; [exact Hsecond|].
  exact (created_ids_are_never_reused _ _ _ _ _ _ _ _ _ _ _ _
           Hfirst Hrun Hsecond).
Defined.

(** ** The teardown and the receive loops *)

Lemma objects_ok_stop (objects : gmap loc StreamingConsumer)
    (lps : gmap loc loop_pc) (l : loc) :
  objects_ok objects lps →
  objects_ok (alter (set_stopRequested true) l objects) lps.
Proof.
  intros Hok l' sc Hsc.
  destruct (decide (l' = l)) as [->|Hne].
  - rewrite lookup_alter_eq in Hsc.
    destruct (objects !! l) as [sc0|] eqn:Hl; simpl in Hsc; simplify_eq.
    simpl. by apply (Hok l sc0).
  - rewrite lookup_alter_ne in Hsc by done. by apply Hok.
Qed.

Lemma quit_clusters_inv (lps : gmap loc loop_pc)
    (rest : list (string * ClusterConnection)) (st : MainState) :
  objects_ok (streamingObjects st) lps →
  quit_inv_at lps (quit_clusters rest st).1.1 (quit_clusters rest st).1.2.
Proof. intros Hok. by destruct rest as [|[id conn] rest]. Qed.

Lemma quit_streaming_inv (lps : gmap loc loop_pc)
    (rest : list (string * loc)) (st : MainState) :
  objects_ok (streamingObjects st) lps →
  entries_ok rest st →
  quit_inv_at lps (quit_streaming rest st).1.1 (quit_streaming rest st).1.2.
Proof.
  intros Hok Hrest. destruct rest as [|[id l] rest].
  - unfold quit_streaming. by apply quit_clusters_inv.
  - destruct (Hrest id l) as [sc Hsc]; [by left|].
    destruct (Hok l sc Hsc) as [Hloop _].
    unfold quit_streaming. cbn [streamingObjects set_streamingObjects].
    rewrite (lookup_total_alter_eq (set_stopRequested true)).
    rewrite Hsc. simpl. rewrite Hloop. simpl.
    split; [by apply objects_ok_stop|]. split.
    + intros id' l' Hin. destruct (Hrest id' l' Hin) as [sc' Hsc'].
      simpl. destruct (decide (l' = l)) as [->|Hne].
      * rewrite lookup_alter_eq, Hsc. by eexists.
      * rewrite lookup_alter_ne by done. by eexists.
    + exists id, rest. split; [done|]. simpl.
      rewrite (lookup_total_alter_eq (set_stopRequested true)).
      by rewrite Hsc.
Qed.

Lemma entries_ok_map (st : MainState) :
  entries_ok (map_to_list (streamingConsumers st)) st ↔
  ∀ id l, streamingConsumers st !! id = Some l →
          is_Some (streamingObjects st !! l).
Proof.
  split; intros H id l Hl; apply (H id l); by apply elem_of_map_to_list.
Qed.

Lemma quit_consumers_inv (lps : gmap loc loop_pc)
    (rest : list (string * handle)) (st : MainState) :
  objects_ok (streamingObjects st) lps →
  entries_ok (map_to_list (streamingConsumers st)) st →
  quit_inv_at lps (quit_consumers rest st).1.1 (quit_consumers rest st).1.2.
Proof.
  intros Hok Hrest. destruct rest as [|[id h] rest]; [|done].
  unfold quit_consumers. by apply quit_streaming_inv.
Qed.

Lemma quit_producers_inv (lps : gmap loc loop_pc)
    (rest : list (string * handle)) (st : MainState) :
  objects_ok (streamingObjects st) lps →
  entries_ok (map_to_list (streamingConsumers st)) st →
  quit_inv_at lps (quit_producers rest st).1.1 (quit_producers rest st).1.2.
Proof.
  intros Hok Hrest. destruct rest as [|[id h] rest]; [|done].
  unfold quit_producers. by apply quit_consumers_inv.
Qed.

Lemma before_quit_resume_inv (lps : gmap loc loop_pc) (pc pc' : quit_pc)
    (k : completion) (st st' : MainState) (evs : list event) :
  quit_inv_at lps st pc →
  (∀ p rest, pc = QuitJoining p rest → k = CJoined →
             lps !! p = Some LDone) →
  before_quit_resume pc k st = Some (st', pc', evs) →
  quit_inv_at lps st' pc'.
Proof.
  intros [Hok Hpc] Hjoin Hresume. unfold before_quit_resume in Hresume.
  destruct pc as [[|[id h] rest]|[|[id h] rest]|p [|[id l] rest]
                 |[|[id l] rest]|[|[id conn] rest] cpc|];
    try done.
  - destruct k as [| |r| | |]; try done.
    pose proof (quit_producers_inv lps rest st Hok Hpc) as Hnext.
    destruct (quit_producers rest st) as [[st1 pc1] evs1].
    unfold prepend_events in Hresume. by simplify_eq.
  - destruct k as [| |r| | |]; try done.
    pose proof (quit_consumers_inv lps rest st Hok Hpc) as Hnext.
    destruct (quit_consumers rest st) as [[st1 pc1] evs1].
    unfold prepend_events in Hresume. by simplify_eq.
  - destruct k as [| | | | |]; try done.
    simplify_eq. destruct Hpc as (Hrest & id' & rest' & Heq & Hstop).
    simplify_eq. split; [done|]. split; [done|].
    exists id', p, rest'. split; [done|]. split; [|done]. by eapply Hjoin.
  - destruct k as [| |r| | |]; try done.
    destruct Hpc as (Hrest & _).
    assert (Hrest' : entries_ok rest st)
      by (intros id' l' Hin; apply (Hrest id' l'); by right).
    pose proof (quit_streaming_inv lps rest st Hok Hrest') as Hnext.
    destruct (quit_streaming rest st) as [[st1 pc1] evs1].
    unfold prepend_events in Hresume. by simplify_eq.
  - destruct (client_close_resume cpc k _) as [[[c r] evs0]|]; [|done].
    destruct r as [cpc'|r']; [by simplify_eq|].
    pose proof (quit_clusters_inv lps rest
                  (set_clientObjects <[client conn := c]> st) Hok) as Hnext.
    destruct (quit_clusters rest _) as [[st1 pc1] evs1].
    unfold prepend_events in Hresume. by simplify_eq.
Qed.

Lemma quit_step_inv (a : quit_action) (q q' : Quit) (evs : list event) :
  quit_inv q → quit_step a q = Some (q', evs) → quit_inv q'.
Proof.
  unfold quit_inv. intros Hinv Hstep. destruct a as [k|l k]; simpl in Hstep.
  - destruct (quit_joinable q k) eqn:Hjoin; [|done].
    destruct (before_quit_resume (quit_at q) k (quit_main q))
      as [[[st pc] evs0]|] eqn:Hresume; simplify_eq. simpl.
    eapply before_quit_resume_inv; [exact Hinv| |exact Hresume].
    intros p rest Hat ->. unfold quit_joinable in Hjoin. rewrite Hat in Hjoin.
    by repeat case_match.
  - destruct (quit_loops q !! l) as [pc|] eqn:Hl; [|done].
    destruct (loop_resume _ _ pc k) as [[pc' evs0]|] eqn:Hresume;
      simplify_eq. simpl.
    destruct Hinv as [Hok Hpc]. split.
    + intros l' sc Hsc. destruct (Hok l' sc Hsc) as [Hloop Hsome].
      split; [done|]. by apply lookup_insert_is_Some'; right.
    + destruct (quit_at q) as [| |p rest|rest| |]; try done.
      destruct Hpc as (Hrest & id & l' & rest' & -> & Hdone & Hstop).
      split; [done|]. exists id, l', rest'. split; [done|].
      split; [|done]. destruct (decide (l' = l)) as [->|Hne].
      * rewrite Hl in Hdone. simplify_eq; by destruct k.
      * by rewrite lookup_insert_ne.
Qed.

Lemma quit_begin_inv (s : Sys) : sys_inv s → quit_inv (quit_begin s).1.
Proof.
  intros (Hmap & Hobjects & _). unfold quit_inv, quit_begin, before_quit_start.
  pose proof (quit_producers_inv (loops s)
                (map_to_list (producers (main s))) (main s)) as Hnext.
  destruct (quit_producers _ (main s)) as [[st pc] evs]. simpl in *.
  apply Hnext; [done|].
  apply entries_ok_map. intros id l Hl. by apply (Hmap id l).
Qed.

(** X14.  The teardown closes the native consumer of a streaming consumer
    only when its receive loop has returned.  In a teardown of any state
    the main process can reach, whenever the before-quit handler is in the
    [close()] of a streaming consumer, the object has [stopRequested] set
    and its loop has left the [while]; the loop takes no further turn, so
    no receive is issued on a consumer that is being closed. *)
Theorem teardown_joins_before_close (before : list action) (s : Sys)
    (evs0 : list event) (acts : list quit_action)
    (tr : list (Quit * list event)) (q : Quit) (evs : list event)
    (id : string) (l : loc) (rest : list (string * loc)) :
  run before initial_sys = Some (s, evs0) →
  quit_run acts (quit_begin s).1 = Some tr →
  (q, evs) ∈ quit_begin s :: tr →
  quit_at q = QuitStreaming ((id, l) :: rest) →
  quit_loops q !! l = Some LDone
  ∧ stopRequested (streamingObjects (quit_main q) !!! l) = true
  ∧ ∀ k, quit_step (QLoop l k) q = None.
Proof.
  intros Hrun Hquit Hin Hat.
  assert (Hinv : quit_inv q).
  { pose proof (quit_begin_inv s (run_inv _ _ _ _ sys_inv_initial Hrun))
      as Hbegin.
    apply elem_of_cons in Hin as [Heq|Hin].
    { destruct (quit_begin s) as [q0 e0]. by simplify_eq. }
    clear Hrun Hat. revert tr Hquit Hin. generalize dependent (quit_begin s).1.
    induction acts as [|a acts IH]; intros q0 Hq0 tr Hquit Hin;
      simpl in Hquit; [simplify_eq; by apply elem_of_nil in Hin|].
    destruct (quit_step a q0) as [[q1 evs1]|] eqn:Hstep; [|done].
    destruct (quit_run acts q1) as [tr1|] eqn:Hrest; simplify_eq.
    pose proof (quit_step_inv _ _ _ _ Hq0 Hstep) as Hq1.
    apply elem_of_cons in Hin as [Heq|Hin]; [by simplify_eq|].
    by eapply IH. }
  destruct Hinv as [_ Hpc]. rewrite Hat in Hpc.
  destruct Hpc as (_ & id' & l' & rest' & Heq & Hdone & Hstop). simplify_eq.
  split; [done|]. split; [done|].
  intros k. simpl. rewrite Hdone. by destruct k.
Qed.

Lemma teardown_joins_before_close_witness :
  quit_at closing_streaming = QuitStreaming [("streaming_consumer_3", 0)]
  ∧ quit_loops closing_streaming !! 0 = Some LDone.
Proof.
  assert (Hat : quit_at closing_streaming
                = QuitStreaming [("streaming_consumer_3", 0)])
    by (vm_compute; reflexivity).
  split; [exact Hat|].
  assert (Hrun : ∃ evs0, run setup initial_sys = Some (busy, evs0))
    by (eexists; vm_compute; reflexivity).
  destruct Hrun as [evs0 Hrun].
  assert (Hquit : quit_run quit_busy (quit_begin busy).1
                  = Some (default [] (quit_run quit_busy (quit_begin busy).1)))
    by (vm_compute; reflexivity).
  assert (Hin : (closing_streaming, [EvClose 4])
                ∈ quit_begin busy
                  :: default [] (quit_run quit_busy (quit_begin busy).1)).
  { apply (list_elem_of_lookup_2 _ 4). vm_compute. reflexivity. }
  exact (proj1 (teardown_joins_before_close _ _ _ _ _ _ _ _ _ _
                  Hrun Hquit Hin Hat)).
Defined.

(** * Handlers that work on a resource of their own *)

(** ** [messages:browse] *)

Lemma reads_of_app (evs1 evs2 : list io) :
  reads_of (evs1 ++ evs2) = reads_of evs1 ++ reads_of evs2.
Proof. apply omap_app. Qed.

Lemma closes_of_app (evs1 evs2 : list io) :
  closes_of (evs1 ++ evs2) = closes_of evs1 ++ closes_of evs2.
Proof. apply omap_app. Qed.

(** A browse that answers with a result, from where it stands. *)
Lemma browse_run_result (turns : list (Z * answer)) :
  ∀ (t : browse_task) (st st' : MainState) (res : BrowseMessagesResult)
    (evs : list io),
    io_run browse_resume turns t st = Some (st', Returned (success res), evs) →
    match browse_at t with
    | BrowseCreating => True
    | BrowseReading h i msgs total =>
        br_messages res = msgs ++ (browsedMsg <$> read_until_null turns)
        ∧ br_totalRead res = (total + length (read_until_null turns))%nat
        ∧ closes_of evs = [h]
        ∧ Forall (λ c, c = (h, browse_timeoutMs t)) (reads_of evs)
        ∧ (length (reads_of evs) ≤ length (read_until_null turns))%nat
        ∧ ((Z.of_nat i < browse_maxMessages t)%Z →
           (Z.of_nat (i + length (read_until_null turns))
            ≤ browse_maxMessages t)%Z
           ∧ (Z.of_nat (S i + length (reads_of evs))
              ≤ browse_maxMessages t)%Z)
    | BrowseHasNext h msgs total =>
        br_messages res = msgs ∧ br_totalRead res = total
        ∧ closes_of evs = [h] ∧ reads_of evs = []
    | BrowseClosing h result =>
        res = result ∧ closes_of evs = [] ∧ reads_of evs = []
    | BrowseCleanup _ _ => False
    end.
Proof.
  induction turns as [|[now a] turns IH]; intros t st st' res evs Hrun;
    simpl in Hrun; [done|].
  destruct (browse_resume t now a st) as [[[st1 [t1|r1]] evs1]|] eqn:Hstep;
    [| |done].
  - (* the handler is suspended again *)
    destruct (io_run browse_resume turns t1 st1) as [[[st2 r2] evs2]|]
      eqn:Hrest; [|done].
    simplify_eq. specialize (IH _ _ _ _ _ Hrest).
    unfold browse_resume in Hstep.
    destruct (browse_at t) as [|h i msgs total|h msgs total|h result|h err]
      eqn:Hat; [done| | | |].
    + destruct a as [[|r| | | |]| |]; try done.
      destruct r as [msg|e]; simpl in Hstep.
      * unfold browse_loop in Hstep.
        destruct (Z.of_nat (S i) <? browse_maxMessages t)%Z eqn:Hmore;
          simplify_eq; simpl in IH.
        -- destruct IH as (Hmsgs & Htotal & Hcloses & Hreads & Hlen & Hmax).
           rewrite Hmsgs, Htotal. simpl.
           split; [by rewrite <- app_assoc|]. split; [lia|].
           split; [done|]. split; [by constructor|]. split; [lia|].
           intros _. apply Z.ltb_lt in Hmore.
           destruct (Hmax Hmore) as [Hmax1 Hmax2]. split; lia.
        -- destruct IH as (Hmsgs & Htotal & Hcloses & Hreads).
           destruct turns as [|[now' a'] turns]; [done|].
           assert (Hnone : read_until_null ((now', a') :: turns) = []).
           { simpl in Hrest. unfold browse_resume in Hrest. simpl in Hrest.
             destruct a' as [k| |]; [by destruct k|done|done]. }
           rewrite Hmsgs, Htotal.
           change (read_until_null
                     ((now, Answer (CReceived (Fulfilled msg)))
                      :: (now', a') :: turns))
             with (PulsarClient.convertMessage_reader msg
                   :: read_until_null ((now', a') :: turns)).
           rewrite Hnone. simpl.
           split; [done|]. split; [lia|]. split; [done|].
           rewrite Hreads. simpl. split; [done|]. split; [lia|].
           intros Hlt. split; lia.
      * simplify_eq. simpl in IH.
        destruct IH as (Hmsgs & Htotal & Hcloses & Hreads).
        rewrite reads_of_app, closes_of_app, Hmsgs, Htotal, Hreads, Hcloses.
        simpl. rewrite app_nil_r.
        split; [done|]. split; [lia|]. split; [done|].
        split; [done|]. split; [lia|]. intros Hlt. split; lia.
    + destruct a as [|[b|e]|]; try done; simpl in Hstep; simplify_eq;
        simpl in IH; [|done].
      destruct IH as (-> & Hcloses & Hreads).
      rewrite reads_of_app, closes_of_app, Hcloses, Hreads. done.
    + destruct a as [[| |[u|e]| | |]| |]; try done.
      simpl in Hstep. by simplify_eq.
    + destruct a as [[| |r| | |]| |]; try done.
  - (* the handler answers *)
    destruct turns; [|done]. simplify_eq.
    unfold browse_resume in Hstep.
    destruct (browse_at t) as [|h i msgs total|h msgs total|h result|h err]
      eqn:Hat; [done| | | |].
    + destruct a as [[|r| | | |]| |]; try done.
      destruct r as [msg|e]; simpl in Hstep; [|done].
      unfold browse_loop in Hstep.
      destruct (Z.of_nat (S i) <? browse_maxMessages t)%Z; by simplify_eq.
    + by destruct a as [|[b|e]|].
    + destruct a as [[| |[u|e]| | |]| |]; try done. by simplify_eq.
    + destruct a as [[| |r| | |]| |]; try done.
Qed.

Lemma browse_resume_created (t : browse_task) (now : Z) (h : handle)
    (st : MainState) :
  browse_at t = BrowseCreating →
  browse_resume t now (Answer (CCreated (Fulfilled h))) st
  = Some (set_clientObjects
            (alter (client_add Reader h) (browse_client t)) st,
          (browse_loop h 0 [] 0 t).1, (browse_loop h 0 [] 0 t).2).
Proof.
  intros Hat. unfold browse_resume. rewrite Hat.
  by destruct (browse_loop h 0 [] 0 t).
Qed.

(** X15.  What [messages:browse] answers when it succeeds.  The reader was
    created; the messages are those read before the first read that
    returned none, in order; [totalRead] is their number and is at most
    [maxMessages], which is 10 when the option is missing or 0; no more
    reads were issued than that bound, each on the reader and with the
    timeout of the options (5000 when missing or 0); and the reader was
    closed exactly once. *)
Theorem browse_result (clusterId : string) (options : BrowseMessagesOptions)
    (fresh_client : handle) (st st0 st' : MainState) (t : browse_task)
    (evs0 evs : list io) (turns : list (Z * answer))
    (res : BrowseMessagesResult) :
  browse_start clusterId options fresh_client st = (st0, Suspended t, evs0) →
  io_run browse_resume turns t st0 = Some (st', Returned (success res), evs) →
  ∃ (now : Z) (reader : handle) (turns' : list (Z * answer)),
    turns = (now, Answer (CCreated (Fulfilled reader))) :: turns'
    ∧ br_messages res = browsedMsg <$> read_until_null turns'
    ∧ br_totalRead res = length (br_messages res)
    ∧ (Z.of_nat (br_totalRead res)
       ≤ Z.max 0 (or_default (bo_maxMessages options) 10))%Z
    ∧ (Z.of_nat (length (reads_of evs))
       ≤ Z.max 0 (or_default (bo_maxMessages options) 10))%Z
    ∧ Forall (λ c, c = (reader, or_default (bo_timeoutMs options) 5000))
        (reads_of evs)
    ∧ closes_of evs = [reader].
Proof.
  unfold browse_start. intros Hstart Hrun.
  destruct (connectedClusters st !! clusterId) as [conn|]; simplify_eq.
  destruct turns as [|[now a] turns]; [done|]. simpl in Hrun.
  destruct a as [[| | | | |[h|e]]| |];
    try (unfold browse_resume in Hrun; simpl in Hrun; by destruct turns).
  rewrite browse_resume_created in Hrun by done.
  unfold browse_loop in Hrun. simpl in Hrun.
  change (Z.of_nat 0) with 0%Z in Hrun.
  destruct (0 <? or_default (bo_maxMessages options) 10)%Z eqn:Hmax;
    simpl in Hrun.
  - match type of Hrun with
    | context [io_run browse_resume turns ?t1 ?st1] =>
        destruct (io_run browse_resume turns t1 st1) as [[[st2 r2] evs2]|]
          eqn:Hrest; [|done]
    end.
    simplify_eq. apply browse_run_result in Hrest. simpl in Hrest.
    destruct Hrest as (Hmsgs & Htotal & Hcloses & Hreads & Hlen & Hbound).
    apply Z.ltb_lt in Hmax. destruct (Hbound Hmax) as [Hb1 Hb2].
    exists now, h, turns. split; [done|]. split; [done|].
    rewrite Hmsgs, Htotal, length_fmap. simpl.
    split; [done|]. split; [lia|]. split; [lia|].
    split; [by constructor|]. done.
  - match type of Hrun with
    | context [io_run browse_resume turns ?t1 ?st1] =>
        destruct (io_run browse_resume turns t1 st1) as [[[st2 r2] evs2]|]
          eqn:Hrest; [|done]
    end.
    simplify_eq. pose proof Hrest as Hfirst.
    apply browse_run_result in Hrest. simpl in Hrest.
    destruct Hrest as (Hmsgs & Htotal & Hcloses & Hreads).
    assert (Hnone : read_until_null turns = []).
    { destruct turns as [|[now' a'] turns]; [done|].
      simpl in Hfirst. unfold browse_resume in Hfirst. simpl in Hfirst.
      destruct a' as [k| |]; [by destruct k|done|done]. }
    exists now, h, turns. split; [done|].
    rewrite Hmsgs, Htotal, Hnone. simpl. rewrite Hreads. simpl.
    split; [done|]. split; [done|]. split; [lia|]. split; [lia|].
    split; [done|]. done.
Qed.

Lemma browse_result_witness :
  ∃ (st' : MainState) (evs : list io),
    io_run browse_resume browse_turns browse_task_example (main busy)
    = Some (st', Returned (success browse_answer), evs)
    ∧ closes_of evs = [11].
Proof.
  eexists _, _.
  match goal with
  | |- ?H ∧ _ => assert (Hrun : H) by (vm_compute; reflexivity)
  end.
  split; [exact Hrun|].
  assert (Hstart : browse_start "c1" browse_options 9 (main busy)
                   = (main busy, Suspended browse_task_example,
                      [IoEvent (EvCreate Reader "t")]))
    by (vm_compute; reflexivity).
  destruct (browse_result _ _ _ _ _ _ _ _ _ _ _ Hstart Hrun)
    as (now & reader & turns' & Hturns & _ & _ & _ & _ & _ & Hcloses).
  injection Hturns as _ <- _. exact Hcloses.
Defined.

(** Every completed browse that got its reader has closed it: once, or
    twice when the first close failed. *)
Lemma browse_run_closes (turns : list (Z * answer)) :
  ∀ (t : browse_task) (st st' : MainState)
    (resp : IPCResponse BrowseMessagesResult) (evs : list io),
    io_run browse_resume turns t st = Some (st', Returned resp, evs) →
    match browse_at t with
    | BrowseCreating => True
    | BrowseReading h _ _ _ | BrowseHasNext h _ _ =>
        closes_of evs = [h]
        ∨ (closes_of evs = [h; h] ∧ resp_success resp = false)
    | BrowseClosing h _ =>
        (closes_of evs = [] ∧ resp_success resp = true)
        ∨ (closes_of evs = [h] ∧ resp_success resp = false)
    | BrowseCleanup h _ => closes_of evs = [] ∧ resp_success resp = false
    end.
Proof.
  induction turns as [|[now a] turns IH]; intros t st st' resp evs Hrun;
    simpl in Hrun; [done|].
  destruct (browse_resume t now a st) as [[[st1 [t1|r1]] evs1]|] eqn:Hstep;
    [| |done].
  - destruct (io_run browse_resume turns t1 st1) as [[[st2 r2] evs2]|]
      eqn:Hrest; [|done].
    simplify_eq. specialize (IH _ _ _ _ _ Hrest).
    unfold browse_resume in Hstep. rewrite closes_of_app.
    destruct (browse_at t) as [|h i msgs total|h msgs total|h result|h err]
      eqn:Hat; [done| | | |].
    + destruct a as [[|r| | | |]| |]; try done.
      destruct r as [msg|e]; simpl in Hstep.
      * unfold browse_loop in Hstep.
        destruct (Z.of_nat (S i) <? browse_maxMessages t)%Z;
          by simplify_eq.
      * by simplify_eq.
    + destruct a as [|[b|e]|]; try done; simpl in Hstep; simplify_eq;
        simpl in IH; simpl.
      * destruct IH as [[-> ?]|[-> ?]]; [by left|by right].
      * destruct IH as [-> ?]. by left.
    + destruct a as [[| |[u|e]| | |]| |]; try done.
      simpl in Hstep. simplify_eq. simpl in IH. destruct IH as [-> ?].
      by right.
    + destruct a as [[| |r| | |]| |]; try done.
  - destruct turns; [|done]. simplify_eq.
    unfold browse_resume in Hstep.
    destruct (browse_at t) as [|h i msgs total|h msgs total|h result|h err]
      eqn:Hat; [done| | | |].
    + destruct a as [[|r| | | |]| |]; try done.
      destruct r as [msg|e]; simpl in Hstep; [|done].
      unfold browse_loop in Hstep.
      destruct (Z.of_nat (S i) <? browse_maxMessages t)%Z; by simplify_eq.
    + by destruct a as [|[b|e]|].
    + destruct a as [[| |[u|e]| | |]| |]; try done. simplify_eq. by left.
    + destruct a as [[| |r| | |]| |]; try done. by simplify_eq.
Qed.

(** X16.  [messages:browse] closes the reader on every path.  Once the
    call has answered, either the reader was never created and nothing was
    closed, or it was closed: once, or twice, and when it was closed twice
    the answer is a failure whatever was read. *)
Theorem browse_closes_its_reader (clusterId : string)
    (options : BrowseMessagesOptions) (fresh_client : handle)
    (st st0 st' : MainState) (t : browse_task) (evs0 evs : list io)
    (turns : list (Z * answer)) (resp : IPCResponse BrowseMessagesResult) :
  browse_start clusterId options fresh_client st = (st0, Suspended t, evs0) →
  io_run browse_resume turns t st0 = Some (st', Returned resp, evs) →
  (∃ (now : Z) (e : string),
     turns = [(now, Answer (CCreated (Rejected e)))]
     ∧ evs = []
     ∧ resp = error ("Failed to browse messages: " +:+ e))
  ∨ (∃ (now : Z) (reader : handle) (turns' : list (Z * answer)),
       turns = (now, Answer (CCreated (Fulfilled reader))) :: turns'
       ∧ (closes_of evs = [reader]
          ∨ (closes_of evs = [reader; reader]
             ∧ resp_success resp = false))).
Proof.
  unfold browse_start. intros Hstart Hrun.
  destruct (connectedClusters st !! clusterId) as [conn|]; simplify_eq.
  destruct turns as [|[now a] turns]; [done|]. simpl in Hrun.
  destruct a as [[| | | | |[h|e]]| |];
    try (unfold browse_resume in Hrun; simpl in Hrun; by destruct turns).
  - right. exists now, h, turns. split; [done|].
    rewrite browse_resume_created in Hrun by done.
    unfold browse_loop in Hrun. simpl in Hrun.
    destruct (Z.of_nat 0 <? or_default (bo_maxMessages options) 10)%Z;
      simpl in Hrun;
      match type of Hrun with
      | context [io_run browse_resume turns ?t1 ?st1] =>
          destruct (io_run browse_resume turns t1 st1)
            as [[[st2 r2] evs2]|] eqn:Hrest; [|done]
      end;
      simplify_eq; by apply browse_run_closes in Hrest.
  - left. unfold browse_resume in Hrun. simpl in Hrun.
    destruct turns; [|done]. simplify_eq. by exists now, e.
Qed.

Lemma browse_closes_its_reader_witness :
  ∃ (st' : MainState) (resp : IPCResponse BrowseMessagesResult)
    (evs : list io),
    io_run browse_resume
      [(2000%Z, Answer (CCreated (Fulfilled 11)));
       (2001%Z, Answer (CReceived (Fulfilled (example_message "1:0" "a"))));
       (7001%Z, Answer (CReceived (Rejected "TimeOut")));
       (7001%Z, AnsweredHasNext (Fulfilled false));
       (7002%Z, Answer (CVoid (Rejected "AlreadyClosed")));
       (7003%Z, Answer (CVoid (Rejected "AlreadyClosed")))]
      browse_task_example (main busy)
    = Some (st', Returned resp, evs)
    ∧ resp = error "Failed to browse messages: AlreadyClosed"
    ∧ closes_of evs = [11; 11].
Proof.
  eexists _, _, _.
  match goal with
  | |- ?H ∧ _ => assert (Hrun : H) by (vm_compute; reflexivity)
  end.
  split; [exact Hrun|]. split; [reflexivity|].
  assert (Hstart : browse_start "c1" browse_options 9 (main busy)
                   = (main busy, Suspended browse_task_example,
                      [IoEvent (EvCreate Reader "t")]))
    by (vm_compute; reflexivity).
  destruct (browse_closes_its_reader _ _ _ _ _ _ _ _ _ _ _ Hstart Hrun)
    as [(now & e & Hturns & _)|(now & reader & turns' & Hturns & Hcloses)];
    [discriminate|].
  injection Hturns as _ <- _.
  destruct Hcloses as [Hone|[Htwo _]]; [|exact Htwo].
  vm_compute in Hone. discriminate.
Defined.

(** ** [messages:peek] *)

Lemma peek_loop_cases (h : handle) (msgs : list PeekedMessage)
    (count nulls : nat) (t : peek_task) :
  ((Z.of_nat count < peek_maxMessages t)%Z ∧ (nulls < 3)%nat
   ∧ peek_loop h msgs count nulls t
     = (Suspended (peek_goto (PeekReading h msgs count nulls) t),
        [IoReadNext h 2000%Z]))
  ∨ (((peek_maxMessages t ≤ Z.of_nat count)%Z ∨ (3 ≤ nulls)%nat)
     ∧ peek_loop h msgs count nulls t
       = (Suspended (peek_goto (PeekClosing h (success msgs)) t),
          [IoEvent (EvClose h)])).
Proof.
  unfold peek_loop, maxConsecutiveNulls.
  destruct (Z.of_nat count <? peek_maxMessages t)%Z eqn:Hcount;
    destruct (nulls <? 3)%nat eqn:Hnulls; simpl.
  - left. apply Z.ltb_lt in Hcount. apply Nat.ltb_lt in Hnulls. done.
  - right. apply Nat.ltb_ge in Hnulls. split; [by right|done].
  - right. apply Z.ltb_ge in Hcount. split; [by left|done].
  - right. apply Z.ltb_ge in Hcount. split; [by left|done].
Qed.

(** A peek that has its reader, from where it stands: what it answers, how
    many more reads it issues, and what it closes. *)
Lemma peek_run_result (turns : list (Z * answer)) :
  ∀ (t : peek_task) (st st' : MainState)
    (resp : IPCResponse (list PeekedMessage)) (evs : list io),
    io_run peek_resume turns t st = Some (st', Returned resp, evs) →
    match peek_at t with
    | PeekCreating => True
    | PeekReading h msgs count nulls =>
        count = length msgs →
        (Z.of_nat count < peek_maxMessages t)%Z →
        (nulls < 3)%nat →
        ∃ more,
          resp = success (msgs ++ more)
          ∧ (Z.of_nat (length (msgs ++ more)) ≤ peek_maxMessages t)%Z
          ∧ (length (reads_of evs) + nulls + 1
             ≤ 3 * (Z.to_nat (peek_maxMessages t) - count))%nat
          ∧ Forall (λ c, c = (h, 2000%Z)) (reads_of evs)
          ∧ closes_of evs = [h]
    | PeekClosing h result =>
        resp = result ∧ reads_of evs = [] ∧ closes_of evs = []
    end.
Proof.
  induction turns as [|[now a] turns IH]; intros t st st' resp evs Hrun;
    simpl in Hrun; [done|].
  destruct (peek_resume t now a st) as [[[st1 [t1|r1]] evs1]|] eqn:Hstep;
    [| |done].
  - destruct (io_run peek_resume turns t1 st1) as [[[st2 r2] evs2]|]
      eqn:Hrest; [|done].
    simplify_eq. specialize (IH _ _ _ _ _ Hrest).
    unfold peek_resume in Hstep.
    rewrite reads_of_app, closes_of_app.
    destruct (peek_at t) as [|h msgs count nulls|h result] eqn:Hat;
      [done| |].
    + intros Hcount Hmax Hnulls.
      destruct a as [[|r| | | |]| |]; try done.
      destruct r as [msg|e]; simpl in Hstep.
      * (* a message: pushed, the nulls start again *)
        destruct (peek_loop_cases h
                    (msgs ++ [peeked now count
                                (PulsarClient.convertMessage_reader msg)])
                    (S count) 0 t) as [(Hlt & _ & Hloop)|(Hge & Hloop)];
          rewrite Hloop in Hstep; simplify_eq; simpl in IH.
        -- destruct IH as (more & -> & Hlen & Hreads & Hall & Hcloses);
             [by rewrite length_app; simpl; lia|done|lia|].
           exists (peeked now (length msgs)
                     (PulsarClient.convertMessage_reader msg) :: more).
           rewrite <- app_assoc in *. simpl in *.
           split; [done|]. split; [done|]. split; [lia|].
           split; [by constructor|done].
        -- destruct IH as (-> & Hreads & Hcloses).
           exists [peeked now (length msgs)
                     (PulsarClient.convertMessage_reader msg)].
           rewrite Hreads, Hcloses. simpl.
           split; [done|]. split; [rewrite length_app; simpl; lia|].
           split; [lia|]. split; [done|done].
      * (* nothing within two seconds *)
        destruct (peek_loop_cases h msgs count (S nulls) t)
          as [(_ & Hlt & Hloop)|(Hge & Hloop)];
          rewrite Hloop in Hstep; simplify_eq; simpl in IH.
        -- destruct IH as (more & -> & Hlen & Hreads & Hall & Hcloses);
             [done|done|done|].
           exists more. simpl.
           split; [done|]. split; [done|]. split; [lia|].
           split; [by constructor|done].
        -- destruct IH as (-> & Hreads & Hcloses).
           exists []. rewrite Hreads, Hcloses, app_nil_r. simpl.
           split; [done|]. split; [lia|]. split; [lia|]. done.
    + destruct a as [[| |[u|e]| | |]| |]; try done.
  - destruct turns; [|done]. simplify_eq.
    unfold peek_resume in Hstep.
    destruct (peek_at t) as [|h msgs count nulls|h result] eqn:Hat;
      [done| |].
    + intros Hcount Hmax Hnulls.
      destruct a as [[|r| | | |]| |]; try done.
      destruct r as [msg|e]; simpl in Hstep.
      * destruct (peek_loop_cases h
                    (msgs ++ [peeked now count
                                (PulsarClient.convertMessage_reader msg)])
                    (S count) 0 t) as [(_ & _ & Hloop)|(_ & Hloop)];
          rewrite Hloop in Hstep; by simplify_eq.
      * destruct (peek_loop_cases h msgs count (S nulls) t)
          as [(_ & _ & Hloop)|(_ & Hloop)];
          rewrite Hloop in Hstep; by simplify_eq.
    + destruct a as [[| |[u|e]| | |]| |]; try done; by simplify_eq.
Qed.

Lemma peek_resume_created (t : peek_task) (now : Z) (h : handle)
    (st : MainState) :
  peek_at t = PeekCreating →
  peek_resume t now (Answer (CCreated (Fulfilled h))) st
  = Some (set_clientObjects (alter (client_add Reader h) (peek_client t)) st,
          (peek_loop h [] 0 0 t).1, (peek_loop h [] 0 0 t).2).
Proof.
  intros Hat. unfold peek_resume. rewrite Hat.
  by destruct (peek_loop h [] 0 0 t).
Qed.

(** X17.  What [messages:peek] answers.  When the reader cannot be created
    the answer is that failure and nothing is read or closed.  Otherwise
    the answer is a success, also when the close of the reader fails; it
    carries at most [maxMessages] messages (50 when the option is missing);
    at most [3 * maxMessages] reads were issued, every one on the reader
    and bounded by two seconds; and the reader was closed exactly once. *)
Theorem peek_result (clusterId : string) (options : PeekMessagesOptions)
    (fresh_client : handle) (st st0 st' : MainState) (t : peek_task)
    (evs0 evs : list io) (turns : list (Z * answer))
    (resp : IPCResponse (list PeekedMessage)) :
  peek_start clusterId options fresh_client st = (st0, Suspended t, evs0) →
  io_run peek_resume turns t st0 = Some (st', Returned resp, evs) →
  (∃ (now : Z) (e : string),
     turns = [(now, Answer (CCreated (Rejected e)))]
     ∧ resp = error ("Failed to create reader: " +:+ e)
     ∧ reads_of evs = [] ∧ closes_of evs = [])
  ∨ (∃ (now : Z) (reader : handle) (turns' : list (Z * answer))
       (msgs : list PeekedMessage),
       turns = (now, Answer (CCreated (Fulfilled reader))) :: turns'
       ∧ resp = success msgs
       ∧ (Z.of_nat (length msgs)
          ≤ Z.max 0 (nullish_default (po_maxMessages options) 50))%Z
       ∧ (length (reads_of evs)
          ≤ 3 * Z.to_nat (nullish_default (po_maxMessages options) 50))%nat
       ∧ Forall (λ c, c = (reader, 2000%Z)) (reads_of evs)
       ∧ closes_of evs = [reader]).
Proof.
  unfold peek_start. intros Hstart Hrun.
  destruct (connectedClusters st !! clusterId) as [conn|]; simplify_eq.
  destruct turns as [|[now a] turns]; [done|]. simpl in Hrun.
  destruct a as [[| | | | |[h|e]]| |];
    try (unfold peek_resume in Hrun; simpl in Hrun; by destruct turns).
  - right. rewrite peek_resume_created in Hrun by done.
    match type of Hrun with
    | context [peek_loop h [] 0 0 ?t0] =>
        destruct (peek_loop_cases h [] 0 0 t0)
          as [(Hlt & _ & Hloop)|(Hge & Hloop)];
          rewrite Hloop in Hrun; simpl in *
    end.
    + match type of Hrun with
      | context [io_run peek_resume turns ?t1 ?st1] =>
          destruct (io_run peek_resume turns t1 st1)
            as [[[st2 r2] evs2]|] eqn:Hrest; [|done]
      end.
      simplify_eq. apply peek_run_result in Hrest. simpl in Hrest.
      destruct Hrest as (more & -> & Hlen & Hreads & Hall & Hcloses);
        [done|done|lia|].
      exists now, h, turns, more. simpl in *.
      split; [done|]. split; [done|]. split; [lia|]. split; [lia|].
      split; [by constructor|done].
    + match type of Hrun with
      | context [io_run peek_resume turns ?t1 ?st1] =>
          destruct (io_run peek_resume turns t1 st1)
            as [[[st2 r2] evs2]|] eqn:Hrest; [|done]
      end.
      simplify_eq. apply peek_run_result in Hrest. simpl in Hrest.
      destruct Hrest as (-> & Hreads & Hcloses).
      exists now, h, turns, []. simpl. rewrite Hreads, Hcloses. simpl.
      split; [done|]. split; [done|]. split; [lia|]. split; [lia|].
      done.
  - left. unfold peek_resume in Hrun. simpl in Hrun.
    destruct turns; [|done]. simplify_eq. by exists now, e.
Qed.

Lemma peek_result_witness :
  ∃ (st' : MainState) (msgs : list PeekedMessage) (evs : list io),
    io_run peek_resume peek_turns peek_task_example (main busy)
    = Some (st', Returned (success msgs), evs)
    ∧ length msgs = 1
    ∧ warnings_of evs = ["[peek] Error closing reader: AlreadyClosed"]
    ∧ closes_of evs = [11].
Proof.
  eexists _, _, _.
  match goal with
  | |- ?H ∧ _ => assert (Hrun : H) by (vm_compute; reflexivity)
  end.
  split; [exact Hrun|]. split; [reflexivity|]. split; [reflexivity|].
  assert (Hstart : peek_start "c1" peek_options 9 (main busy)
                   = (main busy, Suspended peek_task_example,
                      [IoEvent (EvCreate Reader "t")]))
    by (vm_compute; reflexivity).
  destruct (peek_result _ _ _ _ _ _ _ _ _ _ _ Hstart Hrun)
    as [(now & e & Hturns & _)
       |(now & reader & turns' & msgs & Hturns & _ & _ & _ & _ & Hcloses)];
    [discriminate|].
  injection Hturns as _ <- _. exact Hcloses.
Defined.

(** How long a peek can go on, from where it stands. *)
Lemma peek_run_length (turns : list (Z * answer)) :
  ∀ (t : peek_task) (st st' : MainState)
    (r : step peek_task (IPCResponse (list PeekedMessage))) (evs : list io),
    io_run peek_resume turns t st = Some (st', r, evs) →
    match peek_at t with
    | PeekCreating => True
    | PeekReading h msgs count nulls =>
        (Z.of_nat count < peek_maxMessages t)%Z →
        (nulls < 3)%nat →
        (length turns + pending r + nulls
         ≤ 3 * (Z.to_nat (peek_maxMessages t) - count) + 1)%nat
    | PeekClosing h result => (length turns + pending r ≤ 1)%nat
    end.
Proof.
  induction turns as [|[now a] turns IH]; intros t st st' r evs Hrun;
    simpl in Hrun.
  { simplify_eq. simpl.
    destruct (peek_at t) as [|h msgs count nulls|h result]; [done| |lia].
    intros Hmax Hnulls. lia. }
  destruct (peek_resume t now a st) as [[[st1 [t1|r1]] evs1]|] eqn:Hstep;
    [| |done].
  - destruct (io_run peek_resume turns t1 st1) as [[[st2 r2] evs2]|]
      eqn:Hrest; [|done].
    simplify_eq. specialize (IH _ _ _ _ _ Hrest).
    unfold peek_resume in Hstep.
    destruct (peek_at t) as [|h msgs count nulls|h result] eqn:Hat;
      [done| |].
    + intros Hmax Hnulls.
      destruct a as [[|r0| | | |]| |]; try done.
      destruct r0 as [msg|e]; simpl in Hstep.
      * destruct (peek_loop_cases h
                    (msgs ++ [peeked now count
                                (PulsarClient.convertMessage_reader msg)])
                    (S count) 0 t) as [(Hlt & _ & Hloop)|(Hge & Hloop)];
          rewrite Hloop in Hstep; simplify_eq; simpl in IH; simpl.
        -- specialize (IH Hlt ltac:(lia)). lia.
        -- lia.
      * destruct (peek_loop_cases h msgs count (S nulls) t)
          as [(_ & Hlt & Hloop)|(Hge & Hloop)];
          rewrite Hloop in Hstep; simplify_eq; simpl in IH; simpl.
        -- specialize (IH Hmax Hlt). lia.
        -- lia.
    + destruct a as [[| |[u|e]| | |]| |]; try done.
  - destruct turns; [|done]. simplify_eq.
    unfold peek_resume in Hstep.
    destruct (peek_at t) as [|h msgs count nulls|h result] eqn:Hat;
      [done| |].
    + intros Hmax Hnulls. simpl. lia.
    + simpl. lia.
Qed.

(** X18.  [messages:peek] cannot be kept waiting.  Whatever the broker
    answers, the call has returned after at most [3 * maxMessages + 2]
    answers: the create, three reads for each message it may return, and
    the close. *)
Theorem peek_returns_within (clusterId : string)
    (options : PeekMessagesOptions) (fresh_client : handle)
    (st st0 st' : MainState) (t : peek_task) (evs0 evs : list io)
    (turns : list (Z * answer))
    (r : step peek_task (IPCResponse (list PeekedMessage))) :
  peek_start clusterId options fresh_client st = (st0, Suspended t, evs0) →
  io_run peek_resume turns t st0 = Some (st', r, evs) →
  (length turns + pending r
   ≤ 3 * Z.to_nat (nullish_default (po_maxMessages options) 50) + 2)%nat.
Proof.
  unfold peek_start. intros Hstart Hrun.
  destruct (connectedClusters st !! clusterId) as [conn|]; simplify_eq.
  destruct turns as [|[now a] turns]; [simpl in *; simplify_eq; simpl; lia|].
  simpl in Hrun.
  destruct a as [[| | | | |[h|e]]| |];
    try (unfold peek_resume in Hrun; simpl in Hrun; by destruct turns).
  - rewrite peek_resume_created in Hrun by done.
    match type of Hrun with
    | context [peek_loop h [] 0 0 ?t0] =>
        destruct (peek_loop_cases h [] 0 0 t0)
          as [(Hlt & _ & Hloop)|(Hge & Hloop)];
          rewrite Hloop in Hrun; simpl in *
    end.
    + match type of Hrun with
      | context [io_run peek_resume turns ?t1 ?st1] =>
          destruct (io_run peek_resume turns t1 st1)
            as [[[st2 r2] evs2]|] eqn:Hrest; [|done]
      end.
      simplify_eq. apply peek_run_length in Hrest. simpl in Hrest.
      specialize (Hrest Hlt ltac:(lia)). simpl. lia.
    + match type of Hrun with
      | context [io_run peek_resume turns ?t1 ?st1] =>
          destruct (io_run peek_resume turns t1 st1)
            as [[[st2 r2] evs2]|] eqn:Hrest; [|done]
      end.
      simplify_eq. apply peek_run_length in Hrest. simpl in Hrest.
      simpl. lia.
  - unfold peek_resume in Hrun. simpl in Hrun.
    destruct turns; [|done]. simplify_eq. simpl. lia.
Qed.

Lemma peek_returns_within_witness :
  ∃ (st' : MainState) (r : step peek_task (IPCResponse (list PeekedMessage)))
    (evs : list io),
    io_run peek_resume peek_turns peek_task_example (main busy)
    = Some (st', r, evs)
    ∧ (length peek_turns + pending r ≤ 152)%nat.
Proof.
  eexists _, _, _.
  match goal with
  | |- ?H ∧ _ => assert (Hrun : H) by (vm_compute; reflexivity)
  end.
  split; [exact Hrun|].
  assert (Hstart : peek_start "c1" peek_options 9 (main busy)
                   = (main busy, Suspended peek_task_example,
                      [IoEvent (EvCreate Reader "t")]))
    by (vm_compute; reflexivity).
  exact (peek_returns_within _ _ _ _ _ _ _ _ _ _ _ Hstart Hrun).
Defined.

(** ** [messages:send] *)

Lemma send_resume_steps (t : send_task) (now : Z) (a : answer)
    (st st' : MainState) (r : step send_task (IPCResponse string))
    (evs : list io) :
  send_resume t now a st = Some (st', r, evs) →
  match send_at t with
  | SendCreating =>
      (∃ e, a = Answer (CCreated (Rejected e)) ∧ st' = st ∧ evs = []
            ∧ r = Returned (error ("Failed to send message: " +:+ e)))
      ∨ (∃ h, a = Answer (CCreated (Fulfilled h))
              ∧ st' = set_clientObjects
                        (alter (client_add Producer h) (send_client t)) st
              ∧ evs = [IoProducerSend h (producer_message (send_options t))]
              ∧ r = Suspended (send_goto (SendSending h) t))
  | SendSending h =>
      st' = st ∧ evs = [IoEvent (EvClose h)]
      ∧ ((∃ mid, a = AnsweredSent (Fulfilled mid)
                 ∧ r = Suspended (send_goto (SendClosing h mid) t))
         ∨ (∃ e, a = AnsweredSent (Rejected e)
                 ∧ r = Suspended (send_goto (SendCleanup h e) t)))
  | SendClosing h mid =>
      st' = st
      ∧ ((∃ u, a = Answer (CVoid (Fulfilled u)) ∧ evs = []
               ∧ r = Returned (success mid))
         ∨ (∃ e, a = Answer (CVoid (Rejected e))
                 ∧ evs = [IoEvent (EvClose h)]
                 ∧ r = Suspended (send_goto (SendCleanup h e) t)))
  | SendCleanup h err =>
      st' = st ∧ evs = [] ∧ (∃ c, a = Answer (CVoid c))
      ∧ r = Returned (error ("Failed to send message: " +:+ err))
  end.
Proof.
  unfold send_resume. intros Hstep.
  destruct (send_at t) as [|h|h mid|h err];
    destruct a as [[| |[u|e]| | |[h'|e]]|r'|[mid'|e]]; simplify_eq;
    eauto 10.
Qed.

Lemma send_run_cleanup (turns : list (Z * answer)) (t : send_task)
    (h : handle) (err : string) (st st' : MainState)
    (resp : IPCResponse string) (evs : list io) :
  send_at t = SendCleanup h err →
  io_run send_resume turns t st = Some (st', Returned resp, evs) →
  st' = st ∧ evs = []
  ∧ resp = error ("Failed to send message: " +:+ err)
  ∧ ∃ c, snd <$> turns = [Answer (CVoid c)].
Proof.
  intros Hat Hrun. destruct turns as [|[now a] turns]; [done|].
  simpl in Hrun.
  destruct (send_resume t now a st) as [[[st1 r1] evs1]|] eqn:Hstep; [|done].
  apply send_resume_steps in Hstep. rewrite Hat in Hstep.
  destruct Hstep as (-> & -> & [c ->] & ->).
  destruct turns; [|done]. simplify_eq. eauto.
Qed.

Lemma send_run_closing (turns : list (Z * answer)) (t : send_task)
    (h : handle) (mid : string) (st st' : MainState)
    (resp : IPCResponse string) (evs : list io) :
  send_at t = SendClosing h mid →
  io_run send_resume turns t st = Some (st', Returned resp, evs) →
  st' = st
  ∧ ((∃ u, snd <$> turns = [Answer (CVoid (Fulfilled u))]
           ∧ resp = success mid ∧ evs = [])
     ∨ (∃ e c, snd <$> turns = [Answer (CVoid (Rejected e)); Answer (CVoid c)]
               ∧ resp = error ("Failed to send message: " +:+ e)
               ∧ evs = [IoEvent (EvClose h)])).
Proof.
  intros Hat Hrun. destruct turns as [|[now a] turns]; [done|].
  simpl in Hrun.
  destruct (send_resume t now a st) as [[[st1 r1] evs1]|] eqn:Hstep; [|done].
  apply send_resume_steps in Hstep. rewrite Hat in Hstep.
  destruct Hstep as (-> & [(u & -> & -> & ->)|(e & -> & -> & ->)]).
  - destruct turns; [|done]. simplify_eq. split; [done|]. left. eauto.
  - destruct (io_run send_resume turns _ st) as [[[st2 r2] evs2]|]
      eqn:Hrest; [|done].
    simplify_eq.
    apply (send_run_cleanup _ _ h e) in Hrest as (-> & -> & -> & c & Hc);
      [|done].
    split; [done|]. right. exists e, c. by rewrite fmap_cons, Hc.
Qed.

Lemma send_run_sending (turns : list (Z * answer)) (t : send_task)
    (h : handle) (st st' : MainState) (resp : IPCResponse string)
    (evs : list io) :
  send_at t = SendSending h →
  io_run send_resume turns t st = Some (st', Returned resp, evs) →
  st' = st
  ∧ ((∃ mid u,
        snd <$> turns = [AnsweredSent (Fulfilled mid);
                         Answer (CVoid (Fulfilled u))]
        ∧ resp = success mid ∧ evs = [IoEvent (EvClose h)])
     ∨ (∃ mid e c,
          snd <$> turns = [AnsweredSent (Fulfilled mid);
                           Answer (CVoid (Rejected e)); Answer (CVoid c)]
          ∧ resp = error ("Failed to send message: " +:+ e)
          ∧ evs = [IoEvent (EvClose h); IoEvent (EvClose h)])
     ∨ (∃ e c,
          snd <$> turns = [AnsweredSent (Rejected e); Answer (CVoid c)]
          ∧ resp = error ("Failed to send message: " +:+ e)
          ∧ evs = [IoEvent (EvClose h)])).
Proof.
  intros Hat Hrun. destruct turns as [|[now a] turns]; [done|].
  simpl in Hrun.
  destruct (send_resume t now a st) as [[[st1 r1] evs1]|] eqn:Hstep; [|done].
  apply send_resume_steps in Hstep. rewrite Hat in Hstep.
  destruct Hstep as (-> & -> & [(mid & -> & ->)|(e & -> & ->)]).
  - destruct (io_run send_resume turns _ st) as [[[st2 r2] evs2]|]
      eqn:Hrest; [|done].
    simplify_eq.
    apply (send_run_closing _ _ h mid) in Hrest
      as (-> & [(u & Hturns & -> & ->)|(e & c & Hturns & -> & ->)]);
      [| |done]; (split; [done|]).
    + left. exists mid, u. by rewrite fmap_cons, Hturns.
    + right. left. exists mid, e, c. by rewrite fmap_cons, Hturns.
  - destruct (io_run send_resume turns _ st) as [[[st2 r2] evs2]|]
      eqn:Hrest; [|done].
    simplify_eq.
    apply (send_run_cleanup _ _ h e) in Hrest as (-> & -> & -> & c & Hc);
      [|done].
    split; [done|]. right. right. exists e, c. by rewrite fmap_cons, Hc.
Qed.

(** X19.  What [messages:send] does.  None of the registries learns of the
    temporary producer.  When the producer cannot be created nothing is
    sent.  Otherwise exactly one message is handed to it, with the payload
    and the properties of the call and with the key unless it is empty,
    and the producer is closed on every path.  The answer is the message
    id only when both the send and the close succeed: when the message was
    sent and the close then fails, the producer is closed a second time
    and the answer is a failure although the message is on the topic. *)
Theorem send_outcome (clusterId topic payload : string) (key : option string)
    (properties : option (list (string * string))) (fresh_client : handle)
    (st st0 st' : MainState) (t : send_task) (evs0 evs : list io)
    (turns : list (Z * answer)) (resp : IPCResponse string) :
  send_start clusterId topic payload key properties fresh_client st
  = (st0, Suspended t, evs0) →
  io_run send_resume turns t st0 = Some (st', Returned resp, evs) →
  producers st' = producers st ∧ consumers st' = consumers st
  ∧ readers st' = readers st
  ∧ streamingConsumers st' = streamingConsumers st
  ∧ connectedClusters st' = connectedClusters st
  ∧ ((∃ e, snd <$> turns = [Answer (CCreated (Rejected e))]
           ∧ evs = []
           ∧ resp = error ("Failed to send message: " +:+ e))
     ∨ ∃ producer,
         sends_of evs
         = [(producer,
             {| pm_data := payload; pm_properties := properties;
                pm_eventTimestamp := None; pm_sequenceId := None;
                pm_partitionKey := if_truthy key; pm_orderingKey := None;
                pm_deliverAfter := None; pm_deliverAt := None |})]
         ∧ ((∃ mid u,
               snd <$> turns = [Answer (CCreated (Fulfilled producer));
                                AnsweredSent (Fulfilled mid);
                                Answer (CVoid (Fulfilled u))]
               ∧ resp = success mid
               ∧ closes_of evs = [producer])
            ∨ (∃ mid e c,
                 snd <$> turns = [Answer (CCreated (Fulfilled producer));
                                  AnsweredSent (Fulfilled mid);
                                  Answer (CVoid (Rejected e));
                                  Answer (CVoid c)]
                 ∧ resp = error ("Failed to send message: " +:+ e)
                 ∧ closes_of evs = [producer; producer])
            ∨ (∃ e c,
                 snd <$> turns = [Answer (CCreated (Fulfilled producer));
                                  AnsweredSent (Rejected e);
                                  Answer (CVoid c)]
                 ∧ resp = error ("Failed to send message: " +:+ e)
                 ∧ closes_of evs = [producer]))).
Proof.
  unfold send_start. intros Hstart Hrun.
  destruct (connectedClusters st !! clusterId) as [conn|]; simplify_eq.
  destruct turns as [|[now a] turns]; [done|]. simpl in Hrun.
  match type of Hrun with
  | context [send_resume ?t0 now a ?st0] =>
      destruct (send_resume t0 now a st0) as [[[st1 r1] evs1]|] eqn:Hstep;
        [|done]
  end.
  apply send_resume_steps in Hstep. simpl in Hstep.
  destruct Hstep as [(e & -> & -> & -> & ->)|(h & -> & -> & -> & ->)].
  - destruct turns; [|done]. simplify_eq. repeat (split; [done|]).
    left. by exists e.
  - match type of Hrun with
    | context [io_run send_resume turns ?t1 ?st1] =>
        destruct (io_run send_resume turns t1 st1) as [[[st2 r2] evs2]|]
          eqn:Hrest; [|done]
    end.
    simplify_eq.
    apply (send_run_sending _ _ h) in Hrest as (-> & Hcases); [|done].
    repeat (split; [done|]). right. exists h.
    destruct Hcases as [(mid & u & Hturns & -> & ->)
                       |[(mid & e & c & Hturns & -> & ->)
                        |(e & c & Hturns & -> & ->)]];
      (split; [done|]); rewrite fmap_cons, Hturns.
    + left. by exists mid, u.
    + right. left. by exists mid, e, c.
    + right. right. by exists e, c.
Qed.

Lemma send_outcome_witness :
  ∃ (st' : MainState) (evs : list io),
    io_run send_resume send_turns send_task_example (main busy)
    = Some (st',
            Returned (error "Failed to send message: AlreadyClosed"), evs)
    ∧ sends_of evs
      = [(12, {| pm_data := "hello"; pm_properties := None;
                 pm_eventTimestamp := None; pm_sequenceId := None;
                 pm_partitionKey := None; pm_orderingKey := None;
                 pm_deliverAfter := None; pm_deliverAt := None |})]
    ∧ producers st' = producers (main busy).
Proof.
  eexists _, _.
  match goal with
  | |- ?H ∧ _ => assert (Hrun : H) by (vm_compute; reflexivity)
  end.
  split; [exact Hrun|]. split; [reflexivity|].
  assert (Hstart : send_start "c1" "t" "hello" (Some "") None 9 (main busy)
                   = (main busy, Suspended send_task_example,
                      [IoEvent (EvCreate Producer "t")]))
    by (vm_compute; reflexivity).
  exact (proj1 (send_outcome _ _ _ _ _ _ _ _ _ _ _ _ _ _ Hstart Hrun)).
Defined.

(** ** [consumer:receive] *)

(** X20.  What [consumer:receive] does on a registered consumer.  It
    issues one native receive: bounded when a timeout is given that is not
    0, unbounded otherwise.  It changes nothing in the main process and
    acknowledges nothing.  A message is answered in its wire shape.  When
    the native receive fails, the unbounded call reports the reason; the
    bounded call answers "No message received within timeout" whatever
    went wrong. *)
Theorem consumer_receive_outcome (consumerId : string) (timeoutMs : option Z)
    (st : MainState) (h : handle) :
  consumers st !! consumerId = Some h →
  ∃ (t : receive_task),
    consumer_receive_start consumerId timeoutMs st
    = (st, Suspended t,
       match timeoutMs with
       | Some n => if (n =? 0)%Z then [IoReceive h]
                   else [IoEvent (EvReceive h n)]
       | None => [IoReceive h]
       end)
    ∧ ∀ (now : Z) (r : settled PulsarClient.NativeMessage),
        consumer_receive_resume t now (Answer (CReceived r)) st
        = Some (st,
                Returned
                  match r with
                  | Fulfilled msg =>
                      success (browsedMsg (PulsarClient.convertMessage msg))
                  | Rejected e =>
                      if truthy_number timeoutMs
                      then error "No message received within timeout"
                      else error ("Failed to receive message: " +:+ e)
                  end,
                []).
Proof.
  intros Hfound. unfold consumer_receive_start. rewrite Hfound.
  destruct timeoutMs as [n|]; simpl.
  - destruct (n =? 0)%Z; simpl; eexists; (split; [done|]);
      intros now [msg|e]; done.
  - eexists. split; [done|]. by intros now [msg|e].
Qed.

Lemma consumer_receive_outcome_witness :
  ∃ t : receive_task,
    consumer_receive_start "consumer_1" (Some 0%Z) (main busy)
    = (main busy, Suspended t, [IoReceive 2])
    ∧ consumer_receive_resume t 0%Z
        (Answer (CReceived (Rejected "ConnectError"))) (main busy)
      = Some (main busy,
              Returned (error "Failed to receive message: ConnectError"), []).
Proof.
  assert (Hfound : consumers (main busy) !! "consumer_1" = Some 2)
    by (vm_compute; reflexivity).
  destruct (consumer_receive_outcome "consumer_1" (Some 0%Z) (main busy) 2
              Hfound) as (t & Hstart & Hresume).
  exists t. split; [exact Hstart|].
  exact (Hresume 0%Z (Rejected "ConnectError")).
Defined.

(** * The profile storage *)

Lemma find_app {A : Type} (f : A → bool) (l1 l2 : list A) :
  List.find f (l1 ++ l2)
  = match List.find f l1 with
    | Some x => Some x
    | None => List.find f l2
    end.
Proof. induction l1 as [|x l1 IH]; simpl; [done|]. by destruct (f x). Qed.

Lemma has_id_true (id : string) (p : ProfileStorage.SavedProfile) :
  ProfileStorage.has_id id p = true ↔ ProfileStorage.profileId p = id.
Proof. apply String.eqb_eq. Qed.

Lemma other_id_true (id : string) (p : ProfileStorage.SavedProfile) :
  ProfileStorage.other_id id p = true ↔ ProfileStorage.profileId p ≠ id.
Proof.
  unfold ProfileStorage.other_id, ProfileStorage.has_id.
  rewrite negb_true_iff. apply String.eqb_neq.
Qed.

Lemma find_filter_same (id : string)
    (ps : list ProfileStorage.SavedProfile) :
  List.find (ProfileStorage.has_id id)
    (List.filter (ProfileStorage.other_id id) ps) = None.
Proof.
  induction ps as [|p ps IH]; simpl; [done|].
  unfold ProfileStorage.other_id at 1.
  destruct (ProfileStorage.has_id id p) eqn:Hid; simpl; [done|].
  by rewrite Hid.
Qed.

Lemma find_filter_other (id id' : string)
    (ps : list ProfileStorage.SavedProfile) :
  id' ≠ id →
  List.find (ProfileStorage.has_id id')
    (List.filter (ProfileStorage.other_id id) ps)
  = List.find (ProfileStorage.has_id id') ps.
Proof.
  intros Hne. induction ps as [|p ps IH]; simpl; [done|].
  destruct (ProfileStorage.other_id id p) eqn:Hother; simpl.
  - by rewrite IH.
  - destruct (ProfileStorage.has_id id' p) eqn:Hid; [|done].
    apply has_id_true in Hid.
    unfold ProfileStorage.other_id in Hother.
    apply negb_false_iff, has_id_true in Hother. congruence.
Qed.

Lemma filter_length_eq {A : Type} (f : A → bool) (l : list A) :
  length (List.filter f l) = length l ↔ List.filter f l = l.
Proof.
  split; [|by intros ->].
  induction l as [|x l IH]; simpl; [done|].
  destruct (f x); simpl.
  - intros Hlen. f_equal. apply IH. lia.
  - intros Hlen. pose proof (List.filter_length_le f l). lia.
Qed.

Lemma filter_filter_same {A : Type} (f : A → bool) (l : list A) :
  List.filter f (List.filter f l) = List.filter f l.
Proof.
  induction l as [|x l IH]; simpl; [done|].
  destruct (f x) eqn:Hx; simpl; [|done]. by rewrite Hx, IH.
Qed.

(** X21.  A profile that was saved can be read back.  When the write
    succeeds, [getProfile] on the id of the result returns the profile just
    saved; the stored list is the old one without the profiles of that id,
    followed by the new profile; every profile with another id is found as
    before and the last used id is as before.  When the write fails the
    file is as it was, and the result is the same. *)
Theorem saveProfile_round_trip (profile : ProfileStorage.ProfileDetails)
    (profileId : option string) (idNow savedNow : Z)
    (file : ProfileStorage.File) :
  let saved :=
    (ProfileStorage.saveProfile profile profileId idNow savedNow true file).1.1
  in
  let file' :=
    (ProfileStorage.saveProfile profile profileId idNow savedNow true file).1.2
  in
  ProfileStorage.getProfile (ProfileStorage.profileId saved) file'
  = Some saved
  ∧ (ProfileStorage.loadProfiles file').1
    = List.filter (ProfileStorage.other_id (ProfileStorage.profileId saved))
        (ProfileStorage.loadProfiles file).1
      ++ [saved]
  ∧ (∀ id, id ≠ ProfileStorage.profileId saved →
           ProfileStorage.getProfile id file'
           = ProfileStorage.getProfile id file)
  ∧ ProfileStorage.getLastUsedProfileId file'
    = ProfileStorage.getLastUsedProfileId file
  ∧ ProfileStorage.saveProfile profile profileId idNow savedNow false file
    = (saved, file,
       (ProfileStorage.loadProfiles file).2 ++ ["Error writing profiles:"]).
Proof.
  unfold ProfileStorage.saveProfile, ProfileStorage.getProfile,
    ProfileStorage.getLastUsedProfileId, ProfileStorage.writeProfiles.
  destruct (ProfileStorage.loadProfiles file) as [ps log] eqn:Hload.
  simpl.
  set (id := ProfileStorage.choose_id profileId
               (List.find (ProfileStorage.same_details profile) ps) idNow).
  split.
  { rewrite find_app, find_filter_same. simpl.
    unfold ProfileStorage.has_id. simpl. by rewrite String.eqb_refl. }
  split; [done|]. split.
  { intros id' Hne. rewrite find_app, find_filter_other by done.
    destruct (List.find (ProfileStorage.has_id id') ps); [done|]. simpl.
    unfold ProfileStorage.has_id. simpl.
    destruct (String.eqb_spec id id'); [congruence|done]. }
  split; [by destruct file|done].
Qed.

Lemma saveProfile_round_trip_witness :
  ProfileStorage.getProfile "profile_1000"
    (ProfileStorage.saveProfile local_details None 1000 2000 true
       ProfileStorage.Missing).1.2
  = Some (ProfileStorage.with_id local_details "profile_1000" 2000%Z).
Proof.
  exact (proj1 (saveProfile_round_trip local_details None 1000 2000
                  ProfileStorage.Missing)).
Defined.

Lemma same_details_true (profile : ProfileStorage.ProfileDetails)
    (p : ProfileStorage.SavedProfile) :
  ProfileStorage.same_details profile p = true ↔
  details_of p
  = (ProfileStorage.d_adminUrl profile, ProfileStorage.d_serviceUrl profile,
     ProfileStorage.d_name profile).
Proof.
  unfold ProfileStorage.same_details, details_of.
  rewrite !andb_true_iff, !String.eqb_eq. split.
  - by intros [[-> ->] ->].
  - intros Heq. by simplify_eq.
Qed.

Lemma elem_of_filter_bool {A : Type} (f : A → bool) (x : A) (l : list A) :
  x ∈ List.filter f l ↔ x ∈ l ∧ f x = true.
Proof. rewrite !list_elem_of_In. apply List.filter_In. Qed.

Lemma NoDup_fmap_filter {A B : Type} (g : A → B) (f : A → bool)
    (l : list A) :
  NoDup (g <$> l) → NoDup (g <$> List.filter f l).
Proof.
  induction l as [|x l IH]; simpl; [done|].
  rewrite NoDup_cons. intros [Hx Hl].
  destruct (f x); [|by apply IH].
  simpl. rewrite NoDup_cons. split; [|by apply IH].
  intros Hin. apply Hx. apply list_elem_of_fmap in Hin as (y & -> & Hy).
  apply list_elem_of_fmap. exists y. split; [done|].
  by apply elem_of_filter_bool in Hy as [Hy _].
Qed.

Lemma NoDup_fmap_inj_on {A B : Type} (g : A → B) (l : list A) (x y : A) :
  NoDup (g <$> l) → x ∈ l → y ∈ l → g x = g y → x = y.
Proof.
  induction l as [|z l IH]; simpl; [by intros _ Hx; apply elem_of_nil in Hx|].
  rewrite NoDup_cons. intros [Hz Hl] Hx Hy Heq.
  apply elem_of_cons in Hx as [->|Hx]; apply elem_of_cons in Hy as [->|Hy].
  - done.
  - exfalso. apply Hz. rewrite Heq. apply list_elem_of_fmap. by exists y.
  - exfalso. apply Hz. rewrite <- Heq. apply list_elem_of_fmap. by exists x.
  - by apply IH.
Qed.

Lemma choose_id_truthy (existing : option ProfileStorage.SavedProfile)
    (now : Z) :
  truthy (ProfileStorage.choose_id None existing now) = true.
Proof.
  unfold ProfileStorage.choose_id, ProfileStorage.or_else.
  destruct existing as [p|]; simpl; [|done].
  by destruct (truthy (ProfileStorage.profileId p)) eqn:Hid.
Qed.

(** What a save through the handler stores, and that it keeps the stored
    profiles well formed. *)
Lemma save_keeps_profiles_ok (profile : ProfileStorage.ProfileDetails)
    (idNow savedNow : Z) (ps : list ProfileStorage.SavedProfile) :
  profiles_ok ps →
  let id :=
    ProfileStorage.choose_id None
      (List.find (ProfileStorage.same_details profile) ps) idNow in
  profiles_ok (List.filter (ProfileStorage.other_id id) ps
               ++ [ProfileStorage.with_id profile id savedNow]).
Proof.
  intros (Hids & Hnodup & Hdetails) id. split; [|split].
  - apply Forall_app. split.
    + apply Forall_forall. intros p Hp.
      apply elem_of_filter_bool in Hp as [Hp _].
      by apply (proj1 (Forall_forall _ _) Hids).
    + constructor; [|done]. simpl. apply choose_id_truthy.
  - rewrite fmap_app. apply NoDup_app. split; [|split].
    + by apply NoDup_fmap_filter.
    + intros x Hx Hsaved. simpl in Hsaved.
      apply list_elem_of_singleton in Hsaved as ->.
      apply list_elem_of_fmap in Hx as (p & Hid & Hp).
      apply elem_of_filter_bool in Hp as [_ Hp].
      apply other_id_true in Hp. done.
    + apply NoDup_singleton.
  - rewrite fmap_app. apply NoDup_app. split; [|split].
    + by apply NoDup_fmap_filter.
    + intros x Hx Hsaved. simpl in Hsaved.
      apply list_elem_of_singleton in Hsaved as ->.
      apply list_elem_of_fmap in Hx as (p & Hsame & Hp).
      apply elem_of_filter_bool in Hp as [Hp Hother].
      apply other_id_true in Hother. apply Hother. subst id.
      destruct (List.find (ProfileStorage.same_details profile) ps)
        as [p0|] eqn:Hfind.
      * apply List.find_some in Hfind as [Hp0 Hsame0].
        apply list_elem_of_In in Hp0. apply same_details_true in Hsame0.
        assert (p = p0) as ->.
        { apply (NoDup_fmap_inj_on details_of ps); [done..|].
          by rewrite <- Hsame, Hsame0. }
        unfold ProfileStorage.choose_id, ProfileStorage.or_else. simpl.
        by rewrite (proj1 (Forall_forall _ _) Hids p0 Hp0).
      * exfalso. apply list_elem_of_In in Hp.
        pose proof (List.find_none _ _ Hfind p Hp) as Hno.
        assert (ProfileStorage.same_details profile p = true) as Hyes
          by (by apply same_details_true).
        congruence.
    + apply NoDup_singleton.
Qed.

(** X22.  Saving the same connection again does not add a profile.  On
    stored profiles as the handlers leave them (ids that are not empty and
    differ, details that differ), two saves of the same details through
    [profiles:saveProfile] answer with the same id, the second list is as
    long as the first, and only the time of saving differs.  The stored
    profiles stay as the handlers leave them. *)
Theorem saving_again_keeps_the_id (profile : ProfileStorage.ProfileDetails)
    (idNow1 savedNow1 idNow2 savedNow2 : Z) (file : ProfileStorage.File) :
  profiles_ok (ProfileStorage.loadProfiles file).1 →
  let first := profiles_saveProfile profile idNow1 savedNow1 true file in
  let second := profiles_saveProfile profile idNow2 savedNow2 true first.2 in
  ∃ saved : ProfileStorage.SavedProfile,
    first.1 = success saved
    ∧ second.1
      = success (ProfileStorage.with_id profile
                   (ProfileStorage.profileId saved) savedNow2)
    ∧ length (ProfileStorage.loadProfiles second.2).1
      = length (ProfileStorage.loadProfiles first.2).1
    ∧ profiles_ok (ProfileStorage.loadProfiles first.2).1
    ∧ profiles_ok (ProfileStorage.loadProfiles second.2).1.
Proof.
  intros Hok. unfold profiles_saveProfile, ProfileStorage.saveProfile,
    ProfileStorage.writeProfiles.
  destruct (ProfileStorage.loadProfiles file) as [ps log] eqn:Hload.
  simpl in *.
  set (id := ProfileStorage.choose_id None
               (List.find (ProfileStorage.same_details profile) ps) idNow1).
  set (saved := ProfileStorage.with_id profile id savedNow1).
  set (rest := List.filter (ProfileStorage.other_id id) ps).
  pose proof (save_keeps_profiles_ok profile idNow1 savedNow1 ps Hok)
    as Hfirst.
  fold id saved rest in Hfirst.
  assert (Hfind : List.find (ProfileStorage.same_details profile)
                    (rest ++ [saved]) = Some saved).
  { destruct (List.find (ProfileStorage.same_details profile)
                (rest ++ [saved])) as [p|] eqn:Hfind.
    - apply List.find_some in Hfind as [Hp Hsame].
      apply list_elem_of_In in Hp. apply same_details_true in Hsame.
      f_equal. destruct Hfirst as (_ & _ & Hdetails).
      apply (NoDup_fmap_inj_on details_of (rest ++ [saved]));
        [done|done| |by rewrite Hsame].
      apply elem_of_app. right. by apply list_elem_of_singleton.
    - assert (Hin : List.In saved (rest ++ [saved]))
        by (apply List.in_or_app; right; by left).
      pose proof (List.find_none _ _ Hfind saved Hin) as Hno.
      assert (ProfileStorage.same_details profile saved = true) as Hyes
        by (by apply same_details_true).
      congruence. }
  rewrite Hfind.
  assert (Hid : ProfileStorage.choose_id None (Some saved) idNow2 = id).
  { assert (Htruthy : truthy id = true) by apply choose_id_truthy.
    unfold ProfileStorage.choose_id, ProfileStorage.or_else.
    subst saved. simpl. by rewrite Htruthy. }
  rewrite Hid.
  assert (Hrest : List.filter (ProfileStorage.other_id id) (rest ++ [saved])
                  = rest).
  { rewrite List.filter_app. simpl.
    unfold ProfileStorage.other_id at 2, ProfileStorage.has_id. simpl.
    rewrite String.eqb_refl. simpl. rewrite app_nil_r.
    subst rest. apply filter_filter_same. }
  exists saved. split; [done|]. split; [done|].
  rewrite Hrest, !length_app. simpl. split; [done|]. split; [done|].
  pose proof (save_keeps_profiles_ok profile idNow2 savedNow2
                (rest ++ [saved]) Hfirst) as Hsecond.
  simpl in Hsecond. by rewrite Hfind, Hid, Hrest in Hsecond.
Qed.

Lemma saving_again_keeps_the_id_witness :
  (profiles_saveProfile local_details 3000 3000 true
     (profiles_saveProfile local_details 1000 1000 true
        ProfileStorage.Missing).2).1
  = success (ProfileStorage.with_id local_details "profile_1000" 3000%Z).
Proof.
  assert (Hok : profiles_ok
                  (ProfileStorage.loadProfiles ProfileStorage.Missing).1)
    by (repeat split; constructor).
  destruct (saving_again_keeps_the_id local_details 1000 1000 3000 3000
              ProfileStorage.Missing Hok)
    as (saved & Hfirst & Hsecond & _).
  vm_compute in Hfirst. injection Hfirst as <-. exact Hsecond.
Defined.

(** X23.  Two profiles saved within the same millisecond share an id, and
    the second replaces the first.  When neither connection is stored yet
    and [Date.now()] returns the same value for both saves, the second
    save answers with the id of the first, [getProfile] on that id returns
    the second profile, and the first is no longer stored. *)
Theorem saves_in_one_millisecond_collide
    (first second : ProfileStorage.ProfileDetails) (now savedNow1 savedNow2 : Z)
    (file : ProfileStorage.File) :
  List.find (ProfileStorage.same_details first)
    (ProfileStorage.loadProfiles file).1 = None →
  List.find (ProfileStorage.same_details second)
    (ProfileStorage.loadProfiles file).1 = None →
  ProfileStorage.same_details second
    (ProfileStorage.with_id first ("profile_" +:+ pretty now) savedNow1)
  = false →
  let r1 := profiles_saveProfile first now savedNow1 true file in
  let r2 := profiles_saveProfile second now savedNow2 true r1.2 in
  let id := "profile_" +:+ pretty now in
  r1.1 = success (ProfileStorage.with_id first id savedNow1)
  ∧ r2.1 = success (ProfileStorage.with_id second id savedNow2)
  ∧ ProfileStorage.getProfile id r2.2
    = Some (ProfileStorage.with_id second id savedNow2)
  ∧ (ProfileStorage.loadProfiles r2.2).1
    = List.filter (ProfileStorage.other_id id)
        (ProfileStorage.loadProfiles file).1
      ++ [ProfileStorage.with_id second id savedNow2]
  ∧ List.find (ProfileStorage.same_details first)
      (ProfileStorage.loadProfiles r2.2).1 = None.
Proof.
  intros Hfirst Hsecond Hdiffer.
  unfold profiles_saveProfile, ProfileStorage.saveProfile,
    ProfileStorage.writeProfiles, ProfileStorage.getProfile.
  destruct (ProfileStorage.loadProfiles file) as [ps log] eqn:Hload.
  simpl in *. rewrite Hfirst. simpl.
  assert (Hnone : ∀ (details : ProfileStorage.ProfileDetails) id,
            List.find (ProfileStorage.same_details details) ps = None →
            List.find (ProfileStorage.same_details details)
              (List.filter (ProfileStorage.other_id id) ps) = None).
  { intros details id Hfind.
    destruct (List.find _ (List.filter _ ps)) as [p|] eqn:Hp; [|done].
    apply List.find_some in Hp as [Hin Hsame].
    apply List.filter_In in Hin as [Hin _].
    pose proof (List.find_none _ _ Hfind p Hin). congruence. }
  change (ProfileStorage.choose_id None None now)
    with ("profile_" +:+ pretty now) in *.
  rewrite !find_app, !(Hnone second) by done. simpl.
  rewrite Hdiffer.
  change (ProfileStorage.choose_id None None now)
    with ("profile_" +:+ pretty now) in *.
  assert (Hrest : List.filter
                    (ProfileStorage.other_id ("profile_" +:+ pretty now))
                    (List.filter
                       (ProfileStorage.other_id ("profile_" +:+ pretty now))
                       ps
                     ++ [ProfileStorage.with_id first
                           ("profile_" +:+ pretty now) savedNow1])
                  = List.filter
                      (ProfileStorage.other_id ("profile_" +:+ pretty now))
                      ps).
  { rewrite List.filter_app, filter_filter_same.
    cbn [List.filter]. unfold ProfileStorage.other_id at 2.
    unfold ProfileStorage.has_id. cbn [ProfileStorage.profileId
      ProfileStorage.with_id]. rewrite String.eqb_refl. simpl.
    by rewrite app_nil_r. }
  rewrite !Hrest.
  split; [done|]. split; [done|]. split.
  { rewrite find_filter_same.
    unfold ProfileStorage.has_id. simpl. by rewrite String.eqb_refl. }
  split; [done|].
  rewrite (Hnone first) by done.
  destruct (ProfileStorage.same_details first
              (ProfileStorage.with_id second _ savedNow2)) eqn:Hsame;
    [|done].
  exfalso. apply same_details_true in Hsame.
  assert (ProfileStorage.same_details second
            (ProfileStorage.with_id first ("profile_" +:+ pretty now)
               savedNow1) = true) as Hyes.
  { apply same_details_true. unfold details_of in *. simpl in *.
    by symmetry. }
  congruence.
Qed.

Lemma saves_in_one_millisecond_collide_witness :
  ProfileStorage.getProfile "profile_1000"
    (profiles_saveProfile staging_details 1000 1000 true
       (profiles_saveProfile local_details 1000 1000 true
          ProfileStorage.Missing).2).2
  = Some (ProfileStorage.with_id staging_details "profile_1000" 1000%Z).
Proof.
  exact (proj1 (proj2 (proj2
           (saves_in_one_millisecond_collide local_details staging_details
              1000 1000 1000 ProfileStorage.Missing
              eq_refl eq_refl eq_refl)))).
Defined.

(** X24.  Deleting a profile.  [deleteProfile] reports whether a profile
    with the id was stored.  After a delete whose write succeeds no profile
    with the id is found, every profile with another id is found as
    before, and the last used id is left as it was: when it named the
    deleted profile, [getLastUsedProfile] finds nothing.  The handler
    [profiles:deleteProfile] answers with a success either way. *)
Theorem deleteProfile_removes_the_profile (profileId : string)
    (file : ProfileStorage.File) :
  let r := ProfileStorage.deleteProfile profileId true file in
  (r.1.1 = true ↔ is_Some (ProfileStorage.getProfile profileId file))
  ∧ ProfileStorage.getProfile profileId r.1.2 = None
  ∧ (∀ id, id ≠ profileId →
           ProfileStorage.getProfile id r.1.2
           = ProfileStorage.getProfile id file)
  ∧ ProfileStorage.getLastUsedProfileId r.1.2
    = ProfileStorage.getLastUsedProfileId file
  ∧ (ProfileStorage.getLastUsedProfileId file = Some profileId →
     ProfileStorage.getLastUsedProfile r.1.2 = None)
  ∧ (∀ write_ok,
       (profiles_deleteProfile profileId write_ok file).1 = success ()).
Proof.
  unfold ProfileStorage.deleteProfile, ProfileStorage.getProfile,
    profiles_deleteProfile, ProfileStorage.deleteProfile,
    ProfileStorage.getLastUsedProfile, ProfileStorage.getProfile,
    ProfileStorage.writeProfiles.
  destruct (ProfileStorage.loadProfiles file) as [ps log] eqn:Hload.
  simpl.
  assert (Hgone : List.filter (ProfileStorage.other_id profileId) ps = ps →
                  List.find (ProfileStorage.has_id profileId) ps = None).
  { intros <-. apply find_filter_same. }
  assert (Hthere : List.filter (ProfileStorage.other_id profileId) ps ≠ ps →
                   is_Some (List.find (ProfileStorage.has_id profileId) ps)).
  { clear. induction ps as [|p ps IH]; simpl; [done|].
    unfold ProfileStorage.other_id at 1.
    destruct (ProfileStorage.has_id profileId p); simpl; [by eexists|].
    intros Hne. apply IH. congruence. }
  destruct (length (List.filter (ProfileStorage.other_id profileId) ps)
            =? length ps)%nat eqn:Hlen.
  - apply Nat.eqb_eq, filter_length_eq in Hlen. simpl.
    rewrite Hload. simpl. rewrite (Hgone Hlen).
    split; [split; [done|by intros [? ?]]|].
    split; [done|]. split; [done|]. split; [done|].
    split; [|done].
    intros ->. destruct (truthy profileId); [|done]. by apply Hgone.
  - apply Nat.eqb_neq in Hlen.
    assert (Hne : List.filter (ProfileStorage.other_id profileId) ps ≠ ps)
      by (intros Heq; apply Hlen; by rewrite Heq).
    simpl. rewrite find_filter_same.
    split; [split; [by intros _; apply Hthere|done]|].
    split; [done|].
    split; [by intros id Hid; apply find_filter_other|].
    split; [by destruct file|].
    split; [|by intros []].
    unfold ProfileStorage.getLastUsedProfileId. simpl.
    destruct file as [| |data]; simpl; try done.
    intros ->. destruct (truthy profileId); [|done].
    apply find_filter_same.
Qed.

Lemma deleteProfile_removes_the_profile_witness :
  ProfileStorage.getProfile "profile_1000"
    (ProfileStorage.deleteProfile "profile_1000" true
       (ProfileStorage.saveProfile local_details None 1000 2000 true
          ProfileStorage.Missing).1.2).1.2
  = None.
Proof.
  exact (proj1 (proj2 (deleteProfile_removes_the_profile "profile_1000"
                         (ProfileStorage.saveProfile local_details None
                            1000 2000 true ProfileStorage.Missing).1.2))).
Defined.

(** * The OAuth client *)

Lemma string_length_app (s1 s2 : string) :
  String.length (s1 +:+ s2) = (String.length s1 + String.length s2)%nat.
Proof. induction s1 as [|c s1 IH]; simpl; [done|]. by rewrite IH. Qed.

Lemma string_app_longer (s x : string) : x ≠ "" → s ≠ s +:+ x.
Proof.
  intros Hx Heq. apply (f_equal String.length) in Heq.
  rewrite string_length_app in Heq. destruct x; [done|]. simpl in Heq. lia.
Qed.

Lemma unique_from (l seen : list string) :
  NoDup (seen ++ l) →
  fold_left (λ seen s, if bool_decide (s ∈ seen) then seen else seen ++ [s])
    l seen = seen ++ l.
Proof.
  revert seen. induction l as [|s l IH]; intros seen Hnodup; simpl.
  - by rewrite app_nil_r.
  - rewrite bool_decide_eq_false_2.
    + rewrite IH; rewrite <- app_assoc; done.
    + apply NoDup_app in Hnodup as (_ & Hdisjoint & _).
      intros Hin. apply (Hdisjoint s Hin). by left.
Qed.

Lemma unique_nodup (l : list string) : NoDup l → OAuthClient.unique l = l.
Proof. intros Hnodup. by apply (unique_from l []). Qed.

Lemma tokenEndpoints_cases (config : OAuthConfig) :
  let issuer := remove_trailing_slash (issuerUrl config) in
  let defaults :=
    [issuer +:+ "/oauth/token"; issuer +:+ "/cached/oauth/token";
     issuer +:+ "/protocol/openid-connect/token"] in
  NoDup (OAuthClient.tokenEndpoints config)
  ∧ (OAuthClient.tokenEndpoints config = defaults
     ∨ OAuthClient.tokenEndpoints config = issuer :: defaults).
Proof.
  intros issuer defaults.
  assert (Hdefaults : NoDup defaults).
  { subst defaults. repeat constructor; rewrite ?elem_of_cons, ?elem_of_nil.
    - intros [H|[H|[]]]; by apply (inj (String.app issuer)) in H.
    - intros [H|[]]; by apply (inj (String.app issuer)) in H.
    - intros []. }
  unfold OAuthClient.tokenEndpoints. fold issuer. fold defaults.
  destruct (OAuthClient.token_endpoint issuer); simpl; [|by split; [|left]].
  split; [|by right].
  apply NoDup_cons. split; [|done]. subst defaults.
  rewrite !elem_of_cons, elem_of_nil.
  intros [H|[H|[H|[]]]]; by apply string_app_longer in H.
Qed.

Lemma string_prefix_app (a s : string) :
  String.prefix a s = true ↔ ∃ r, s = a +:+ r.
Proof.
  revert s. induction a as [|c a IH]; intros s.
  - split; [intros _; by exists s|by destruct s].
  - destruct s as [|c' s]; simpl; [split; [done|by intros [r ?]]|].
    destruct (Ascii.ascii_dec c c') as [->|Hne].
    + rewrite IH. split; intros [r Hr]; exists r.
      * by rewrite Hr.
      * simpl in Hr. by injection Hr.
    + split; [done|]. intros [r Hr]. simpl in Hr. by injection Hr.
Qed.

(** The test for a token endpoint is the test of the regular expression:
    "/token" stands somewhere in the url, followed by "?" or by the
    end. *)
Lemma token_endpoint_spec (s : string) :
  OAuthClient.token_endpoint s = true ↔
  ∃ p q, s = p +:+ "/token" +:+ q ∧ (q = "" ∨ ∃ q', q = String "?" q').
Proof.
  split.
  - induction s as [|c s IH]; [done|].
    cbn [OAuthClient.token_endpoint]. rewrite !orb_true_iff.
    intros [[Heq|Hprefix]|Hrest].
    + apply String.eqb_eq in Heq. exists "", "". split; [done|by left].
    + apply string_prefix_app in Hprefix as [r Hr].
      exists "", (String "?" r). split; [done|]. right. by exists r.
    + destruct (IH Hrest) as (p & q & -> & Hq).
      by exists (String c p), q.
  - intros (p & q & -> & Hq). induction p as [|c p IH].
    + destruct Hq as [->|[q' ->]]; [reflexivity|]. by destruct q'.
    + change (String c p +:+ "/token" +:+ q)
        with (String c (p +:+ "/token" +:+ q)).
      cbn [OAuthClient.token_endpoint]. rewrite IH.
      by rewrite orb_true_r.
Qed.

(** X25.  The token endpoints that are tried.  There are three of them,
    made from the issuer url without its trailing slash; when that url has
    "/token" in it, followed by "?" or by the end, it is a fourth and is
    tried first.  They differ from one another, so removing duplicates
    never removes any. *)
Theorem token_endpoints_are_distinct (config : OAuthConfig) :
  let issuer := remove_trailing_slash (issuerUrl config) in
  let defaults :=
    [issuer +:+ "/oauth/token"; issuer +:+ "/cached/oauth/token";
     issuer +:+ "/protocol/openid-connect/token"] in
  NoDup (OAuthClient.uniqueTokenEndpoints config)
  ∧ OAuthClient.uniqueTokenEndpoints config
    = OAuthClient.tokenEndpoints config
  ∧ ((∃ p q, issuer = p +:+ "/token" +:+ q
             ∧ (q = "" ∨ ∃ q', q = String "?" q')) →
     OAuthClient.uniqueTokenEndpoints config = issuer :: defaults)
  ∧ ((¬ ∃ p q, issuer = p +:+ "/token" +:+ q
               ∧ (q = "" ∨ ∃ q', q = String "?" q')) →
     OAuthClient.uniqueTokenEndpoints config = defaults).
Proof.
  intros issuer defaults.
  destruct (tokenEndpoints_cases config) as [Hall _].
  unfold OAuthClient.uniqueTokenEndpoints.
  rewrite (unique_nodup _ Hall). split; [done|]. split; [done|].
  unfold OAuthClient.tokenEndpoints. fold issuer. fold defaults.
  pose proof (token_endpoint_spec issuer) as Hspec.
  destruct (OAuthClient.token_endpoint issuer); simpl.
  - split; [done|]. intros Hno. exfalso. apply Hno. by apply Hspec.
  - split; [|done]. intros Hyes. apply Hspec in Hyes. done.
Qed.

Lemma token_endpoints_are_distinct_witness :
  OAuthClient.uniqueTokenEndpoints direct_oauth
  = ["https://auth.example.com/oauth/token";
     "https://auth.example.com/oauth/token/oauth/token";
     "https://auth.example.com/oauth/token/cached/oauth/token";
     "https://auth.example.com/oauth/token/protocol/openid-connect/token"].
Proof.
  apply (proj1 (proj2 (proj2 (token_endpoints_are_distinct direct_oauth)))).
  exists "https://auth.example.com/oauth", "".
  split; [reflexivity|by left].
Defined.

(** What the loop over the endpoints does. *)
Lemma try_endpoints_spec (respond : string → OAuthClient.Fetched)
    (urls : list string) :
  ∀ (errors : list string),
    let r := OAuthClient.try_endpoints respond urls errors in
    match r.1 with
    | inl data =>
        ∃ (before after : list string) (tokenUrl : string),
          urls = before ++ tokenUrl :: after
          ∧ r.2 = before ++ [tokenUrl]
          ∧ respond tokenUrl = OAuthClient.Granted data
          ∧ Forall (λ u, ∀ d, respond u ≠ OAuthClient.Granted d) before
    | inr attemptErrors =>
        r.2 = urls
        ∧ Forall (λ u, ∀ d, respond u ≠ OAuthClient.Granted d) urls
        ∧ attemptErrors
          = errors
            ++ ((λ u, OAuthClient.attempt_error u (respond u)) <$> urls)
    end.
Proof.
  induction urls as [|u urls IH]; intros errors; simpl.
  { split; [done|]. split; [done|]. by rewrite app_nil_r. }
  assert (Hu : (∃ data, respond u = OAuthClient.Granted data)
               ∨ (∀ d, respond u ≠ OAuthClient.Granted d))
    by (destruct (respond u); eauto).
  destruct Hu as [[data Hu]|Hu].
  - rewrite Hu. simpl. exists [], urls, u. simpl. by repeat split.
  - specialize (IH (errors ++ [OAuthClient.attempt_error u (respond u)])).
    simpl in IH.
    assert (Hstep :
      match respond u with
      | OAuthClient.Granted data => (inl data, [u])
      | _ =>
          let '(result, fetched) :=
            OAuthClient.try_endpoints respond urls
              (errors ++ [OAuthClient.attempt_error u (respond u)]) in
          (result, u :: fetched)
      end
      = ((OAuthClient.try_endpoints respond urls
            (errors ++ [OAuthClient.attempt_error u (respond u)])).1,
         u :: (OAuthClient.try_endpoints respond urls
                 (errors ++ [OAuthClient.attempt_error u (respond u)])).2)).
    { destruct (respond u) eqn:Hr;
        try (by destruct (OAuthClient.try_endpoints respond urls _)).
      by exfalso; eapply Hu. }
    assert (Hgoal :
      OAuthClient.try_endpoints respond (u :: urls) errors
      = ((OAuthClient.try_endpoints respond urls
            (errors ++ [OAuthClient.attempt_error u (respond u)])).1,
         u :: (OAuthClient.try_endpoints respond urls
                 (errors ++ [OAuthClient.attempt_error u (respond u)])).2)).
    { rewrite <- Hstep. simpl. by destruct (respond u). }
    change (match (OAuthClient.try_endpoints respond (u :: urls) errors).1
            with
            | inl data =>
                ∃ (before after : list string) (tokenUrl : string),
                  u :: urls = before ++ tokenUrl :: after
                  ∧ (OAuthClient.try_endpoints respond (u :: urls) errors).2
                    = before ++ [tokenUrl]
                  ∧ respond tokenUrl = OAuthClient.Granted data
                  ∧ Forall (λ u, ∀ d, respond u ≠ OAuthClient.Granted d)
                      before
            | inr attemptErrors =>
                (OAuthClient.try_endpoints respond (u :: urls) errors).2
                = u :: urls
                ∧ Forall (λ u, ∀ d, respond u ≠ OAuthClient.Granted d)
                    (u :: urls)
                ∧ attemptErrors
                  = errors
                    ++ ((λ u, OAuthClient.attempt_error u (respond u))
                        <$> u :: urls)
            end).
    rewrite Hgoal. simpl.
    destruct (OAuthClient.try_endpoints respond urls _)
      as [[data|attemptErrors] fetched]; simpl in *.
    + destruct IH as (before & after & tokenUrl & -> & -> & Hg & Hb).
      exists (u :: before), after, tokenUrl.
      split; [done|]. split; [done|]. split; [done|]. by constructor.
    + destruct IH as (-> & Hall & ->).
      split; [done|]. split; [by constructor|]. by rewrite <- app_assoc.
Qed.

(** X26.  How a token is requested.  The endpoints are fetched in order
    and the first that grants a token ends the search: its token is the
    result and is cached with the time it expires, less a minute.  An
    endpoint that fails in any way, also with a status other than 404,
    only moves the search on.  When no endpoint grants a token, each was
    fetched once, the promise is rejected with the errors of all attempts,
    and the cache is left as it was. *)
Theorem requestToken_tries_in_order (config : OAuthConfig)
    (respond : string → OAuthClient.Fetched) (now : Z)
    (tokenCache : option OAuthClient.TokenCache) :
  let r := OAuthClient.requestToken config respond now tokenCache in
  let urls := OAuthClient.uniqueTokenEndpoints config in
  (length r.2 ≤ 4)%nat
  ∧ match r.1.1 with
    | Fulfilled accessToken =>
        ∃ (before after : list string) (tokenUrl : string)
          (data : OAuthClient.OAuthTokenResponse),
          urls = before ++ tokenUrl :: after
          ∧ r.2 = before ++ [tokenUrl]
          ∧ Forall (λ u, ∀ d, respond u ≠ OAuthClient.Granted d) before
          ∧ respond tokenUrl = OAuthClient.Granted data
          ∧ accessToken = OAuthClient.access_token data
          ∧ r.1.2
            = Some {| OAuthClient.token := accessToken;
                      OAuthClient.expiresAt :=
                        now + OAuthClient.expires_in data * 1000 - 60000 |}
    | Rejected reason =>
        r.2 = urls
        ∧ Forall (λ u, ∀ d, respond u ≠ OAuthClient.Granted d) urls
        ∧ reason
          = "Failed to acquire OAuth token: "
            +:+ String.concat "; "
                  ((λ u, OAuthClient.attempt_error u (respond u)) <$> urls)
        ∧ r.1.2 = tokenCache
    end.
Proof.
  intros r urls. subst r. unfold OAuthClient.requestToken. fold urls.
  pose proof (try_endpoints_spec respond urls []) as Hspec. simpl in Hspec.
  assert (Hurls : (length urls ≤ 4)%nat).
  { subst urls. unfold OAuthClient.uniqueTokenEndpoints.
    destruct (tokenEndpoints_cases config) as [Hnodup Hcases].
    rewrite (unique_nodup _ Hnodup).
    destruct Hcases as [->| ->]; simpl; lia. }
  destruct (OAuthClient.try_endpoints respond urls [])
    as [[data|attemptErrors] fetched]; simpl in *.
  - destruct Hspec as (before & after & tokenUrl & Hsplit & -> & Hg & Hb).
    split.
    { rewrite Hsplit, length_app in Hurls. rewrite length_app. simpl in *.
      lia. }
    exists before, after, tokenUrl, data. by repeat split.
  - destruct Hspec as (-> & Hall & ->). by repeat split.
Qed.

Lemma requestToken_tries_in_order_witness :
  (length (OAuthClient.requestToken example_oauth example_provider 0
             None).2 ≤ 4)%nat.
Proof.
  exact (proj1 (requestToken_tries_in_order example_oauth example_provider
                  0 None)).
Defined.

(** X27.  How long a token is reused.  A token that was granted with
    [expires_in] seconds and cached at time [cachedAt] is handed out
    again, with no fetch, exactly while the call comes more than two
    minutes before the token expires: the cache takes one minute off the
    lifetime and the test another.  From then on a call requests a new
    token; a token that lives two minutes or less is never reused. *)
Theorem token_is_reused_until_two_minutes_before_expiry
    (config : OAuthConfig) (respond : string → OAuthClient.Fetched)
    (cachedAt : Z) (before : option OAuthClient.TokenCache)
    (accessToken : string) (after : option OAuthClient.TokenCache)
    (fetched : list string) :
  OAuthClient.requestToken config respond cachedAt before
  = (Fulfilled accessToken, after, fetched) →
  ∃ data : OAuthClient.OAuthTokenResponse,
    accessToken = OAuthClient.access_token data
    ∧ after
      = Some {| OAuthClient.token := accessToken;
                OAuthClient.expiresAt :=
                  cachedAt + OAuthClient.expires_in data * 1000 - 60000 |}
    ∧ (∀ (respond' : string → OAuthClient.Fetched) (now cachedAt' : Z),
         OAuthClient.getAccessToken config respond' now cachedAt' after
         = if (now + 120000
               <? cachedAt + OAuthClient.expires_in data * 1000)%Z
           then (Fulfilled accessToken, after, [])
           else OAuthClient.requestToken config respond' cachedAt' after)
    ∧ ((OAuthClient.expires_in data ≤ 120)%Z →
       ∀ (respond' : string → OAuthClient.Fetched) (now cachedAt' : Z),
         (cachedAt ≤ now)%Z →
         OAuthClient.getAccessToken config respond' now cachedAt' after
         = OAuthClient.requestToken config respond' cachedAt' after).
Proof.
  unfold OAuthClient.requestToken. intros Hrequest.
  destruct (OAuthClient.try_endpoints respond _ [])
    as [[data|attemptErrors] urls]; simplify_eq.
  exists data. split; [done|]. split; [done|].
  assert (Hwindow : ∀ now,
            (now + 60000
             <? cachedAt + OAuthClient.expires_in data * 1000 - 60000)%Z
            = (now + 120000
               <? cachedAt + OAuthClient.expires_in data * 1000)%Z).
  { intros now.
    destruct (now + 120000
              <? cachedAt + OAuthClient.expires_in data * 1000)%Z
      eqn:Hlt.
    - apply Z.ltb_lt in Hlt. apply Z.ltb_lt. lia.
    - apply Z.ltb_ge in Hlt. apply Z.ltb_ge. lia. }
  split.
  - intros respond' now cachedAt'. unfold OAuthClient.getAccessToken.
    simpl. rewrite Hwindow. by case_match.
  - intros Hshort respond' now cachedAt' Hlater.
    unfold OAuthClient.getAccessToken. simpl. rewrite Hwindow.
    assert ((now + 120000
             <? cachedAt + OAuthClient.expires_in data * 1000)%Z = false)
      as -> by (apply Z.ltb_ge; lia).
    done.
Qed.

Lemma token_is_reused_until_two_minutes_before_expiry_witness :
  OAuthClient.requestToken example_oauth example_provider 0 None
  = (Fulfilled "t0k3n",
     Some {| OAuthClient.token := "t0k3n";
             OAuthClient.expiresAt := 240000 |},
     ["https://auth.example.com/oauth/token";
      "https://auth.example.com/cached/oauth/token"])
  ∧ OAuthClient.getAccessToken example_oauth example_provider 179999 179999
      (Some {| OAuthClient.token := "t0k3n";
               OAuthClient.expiresAt := 240000 |})
    = (Fulfilled "t0k3n",
       Some {| OAuthClient.token := "t0k3n";
               OAuthClient.expiresAt := 240000 |}, []).
Proof.
  assert (Hrequest :
            OAuthClient.requestToken example_oauth example_provider 0 None
            = (Fulfilled "t0k3n",
               Some {| OAuthClient.token := "t0k3n";
                       OAuthClient.expiresAt := 240000 |},
               ["https://auth.example.com/oauth/token";
                "https://auth.example.com/cached/oauth/token"]))
    by (vm_compute; reflexivity).
  split; [exact Hrequest|].
  destruct (token_is_reused_until_two_minutes_before_expiry _ _ _ _ _ _ _
              Hrequest) as (data & Htoken & Hafter & Hreuse & _).
  rewrite (Hreuse example_provider 179999%Z 179999%Z).
  injection Hafter as Hexpires.
  replace (OAuthClient.expires_in data * 1000)%Z with 300000%Z by lia.
  reflexivity.
Defined.
